(** * Client-side utilities of the site: mobile navigation, video background,
      progressive loader and image preloader.

    The TypeScript classes of [src/utils] are embedded as state-passing
    programs.  A method is a computation in the monad [Js.M W]: it reads and
    writes a world [W] (the page together with the fields of [this]) and
    either completes normally or completes abruptly with a thrown error, in
    which case the writes made so far stay.  [try { .. } catch] is
    [Js.try_catch].  Timers, idle callbacks and listeners are data: a closure
    is a constructor naming it, and [run_callback] gives its body. *)

From stdpp Require Import base option list gmap strings pretty sorting.
From Stdlib Require Import ZArith Ascii PrimFloat.

Open Scope Z_scope.
Open Scope string_scope.

(** ** Completions and the state monad *)

Module Js.

Inductive completion (A : Type) : Type :=
| Normal (a : A)
| Throw (err : string).
Arguments Normal {A} a.
Arguments Throw {A} err.

Definition M (W A : Type) : Type := W -> completion A * W.

Section Monad.
Context {W : Type}.

Definition ret {A} (a : A) : M W A := fun w => (Normal a, w).

Definition bind {A B} (m : M W A) (k : A -> M W B) : M W B :=
  fun w => match m w with
           | (Normal a, w') => k a w'
           | (Throw e, w') => (Throw e, w')
           end.

Definition throw {A} (e : string) : M W A := fun w => (Throw e, w).

Definition gets {A} (f : W -> A) : M W A := fun w => (Normal (f w), w).

Definition modify (f : W -> W) : M W unit := fun w => (Normal tt, f w).

(** [try { m } catch (e) { h e }] *)
Definition try_catch {A} (m : M W A) (h : string -> M W A) : M W A :=
  fun w => match m w with
           | (Throw e, w') => h e w'
           | r => r
           end.

(** [try { m } finally { f }] *)
Definition try_finally {A} (m : M W A) (f : M W unit) : M W A :=
  fun w => match m w with
           | (r, w') => match f w' with
                        | (Normal _, w'') => (r, w'')
                        | (Throw e, w'') => (Throw e, w'')
                        end
           end.

Definition when (b : bool) (m : M W unit) : M W unit :=
  if b then m else ret tt.

Fixpoint forEach {A} (l : list A) (f : A -> M W unit) : M W unit :=
  match l with
  | [] => ret tt
  | x :: l' => bind (f x) (fun _ => forEach l' f)
  end.

(** The world a computation leaves behind, and whether it threw. *)
Definition exec {A} (m : M W A) (w : W) : W := snd (m w).

Definition throws {A} (m : M W A) (w : W) : bool :=
  match fst (m w) with Throw _ => true | Normal _ => false end.

End Monad.
End Js.

Declare Scope js_scope.
Delimit Scope js_scope with js.
Notation "x ← y ; z" := (Js.bind y (fun x => z))
  (at level 20, y at level 100, z at level 200, only parsing) : js_scope.
Notation "x ;; z" := (Js.bind x (fun _ => z))
  (at level 100, z at level 200, only parsing, right associativity) : js_scope.

(** ** Elements *)

Module Dom.

(** Identity of an element object.  Two references are the same object
    exactly when they are the same [node]. *)
Definition node : Type := positive.

Record Element : Type := mkElement {
  classList : gset string;
  attributes : gmap string string;
  style : gmap string string;
  textContent : string
}.

Definition blank : Element := mkElement ∅ ∅ ∅ "".

#[global] Instance Element_inhabited : Inhabited Element := populate blank.

Definition classList_add (c : string) (e : Element) : Element :=
  mkElement ({[c]} ∪ classList e) (attributes e) (style e) (textContent e).

Definition classList_remove (c : string) (e : Element) : Element :=
  mkElement (classList e ∖ {[c]}) (attributes e) (style e) (textContent e).

Definition classList_contains (c : string) (e : Element) : bool :=
  bool_decide (c ∈ classList e).

Definition classList_toggle (c : string) (e : Element) : Element :=
  if classList_contains c e then classList_remove c e else classList_add c e.

Definition setAttribute (k v : string) (e : Element) : Element :=
  mkElement (classList e) (<[k:=v]> (attributes e)) (style e) (textContent e).

(** [element.style[k] = v] for a constant [v] that is a value of the
    property. *)
Definition setStyle (k v : string) (e : Element) : Element :=
  mkElement (classList e) (attributes e) (<[k:=v]> (style e)) (textContent e).

Definition setTextContent (v : string) (e : Element) : Element :=
  mkElement (classList e) (attributes e) (style e) v.

(** The template literal [`${n}px`] for a whole number [n]. *)
Definition px (n : Z) : string := pretty n +:+ "px".

(** [element.style.height = `${n}px`].  The browser keeps an assigned
    declaration only if it parses as a value of the property; a negative
    length is no height, and the assignment then changes nothing. *)
Definition setHeightPx (n : Z) (e : Element) : Element :=
  if (n <? 0)%Z then e else setStyle "height" (px n) e.

Inductive Level : Type := debug | warn | error.

Definition LogEntry : Type := (Level * string)%type.

Inductive EventTarget : Type :=
| TDocument
| TNode (n : node).

#[global] Instance EventTarget_eq_dec : EqDecision EventTarget.
Proof. solve_decision. Defined.

#[global] Instance Level_eq_dec : EqDecision Level.
Proof. solve_decision. Defined.

(** [nodes] maps every element of the page to its current state; an element
    no write has touched yet is [blank]. *)
Definition update (n : node) (f : Element -> Element)
    (nodes : gmap node Element) : gmap node Element :=
  <[n := f (nodes !!! n)]> nodes.

End Dom.

(** ** Mobile navigation controller ([src/utils/mobile-navigation.ts]) *)

Module MobileNavigation.
Import Js Dom.
Local Open Scope js_scope.

(** [MobileNavigationConfig]: the optional fields may be left out. *)
Record MobileNavigationConfig : Type := mkInput {
  in_hamburgerSelector : string;
  in_menuSelector : string;
  in_navLinksSelector : string;
  in_pageTitleSelector : option string;
  in_debounceDelay : option Z;
  in_animationDuration : option Z;
  in_opacityDuration : option Z
}.

(** [Required<MobileNavigationConfig>].  Durations are whole milliseconds. *)
Record Config : Type := mkConfig {
  hamburgerSelector : string;
  menuSelector : string;
  navLinksSelector : string;
  pageTitleSelector : string;
  debounceDelay : Z;
  animationDuration : Z;
  opacityDuration : Z
}.

(** [x || d] on an optional string and on an optional number: the empty
    string and 0 are falsy. *)
Definition or_string (x : option string) (d : string) : string :=
  match x with
  | None | Some "" => d
  | Some s => s
  end.

Definition or_number (x : option Z) (d : Z) : Z :=
  match x with
  | None | Some 0 => d
  | Some n => n
  end.

(** The configuration the constructor stores. *)
Definition constructor_config (c : MobileNavigationConfig) : Config :=
  mkConfig (in_hamburgerSelector c) (in_menuSelector c) (in_navLinksSelector c)
    (or_string (in_pageTitleSelector c) ".mobile-page-title")
    (or_number (in_debounceDelay c) 300)
    (or_number (in_animationDuration c) 500)
    (or_number (in_opacityDuration c) 300).

Definition defaultMobileNavigationConfig : MobileNavigationConfig :=
  mkInput "#mobile-hamburger" "#mobile-navigation" "#mobile-navigation .nav-link a"
    (Some ".mobile-page-title") (Some 300) (Some 500) (Some 300).

(** The four bound methods registered as listeners. *)
Inductive Handler : Type :=
| HandleHamburgerClick
| HandleOutsideClick
| HandleEscapeKey
| HandleNavLinkClick.

Record Listener : Type := mkListener {
  l_target : EventTarget;
  l_type : string;
  l_handler : Handler
}.

(** The three arrow functions handed to [window.setTimeout]. *)
Inductive Callback : Type :=
| ResetAnimating              (* toggleMenu: isAnimating = false *)
| NavigationCloseDone         (* startNavigationClose *)
| UpdateTitle (link : node).  (* handleNavLinkClick *)

Record Timer : Type := mkTimer {
  t_id : positive;
  t_delay : Z;
  t_callback : Callback
}.

#[global] Instance Handler_eq_dec : EqDecision Handler.
Proof. solve_decision. Defined.

#[global] Instance Listener_eq_dec : EqDecision Listener.
Proof. solve_decision. Defined.

#[global] Instance Callback_eq_dec : EqDecision Callback.
Proof. solve_decision. Defined.

#[global] Instance Timer_eq_dec : EqDecision Timer.
Proof. solve_decision. Defined.

(** What the controller asks of the document and cannot change: selector
    queries (a malformed selector throws), the tree order behind
    [Node.contains], [instanceof HTMLElement], [document.body], the
    built-in [String.prototype.toUpperCase], and what every plain object
    inherits: [objectPrototype key] is the text of [Object.prototype[key]]
    (of 'constructor', 'toString', '__proto__', ...) when there is such a
    property.  What is inherited is a function or an object, so it counts as
    true and its text is not empty.

    Strings are UTF-8 text, as string literals are. *)
Record Page : Type := mkPage {
  querySelector : string -> completion (option node);
  querySelectorAll : string -> completion (list node);
  isHTMLElement : node -> bool;
  contains : node -> node -> bool;
  body : node;
  toUpperCase : string -> string;
  objectPrototype : string -> option string
}.

Record Event : Type := mkEvent {
  target : node;
  currentTarget : node;
  key : string
}.

(** The page state the controller touches, then the fields of [this]. *)
Record World : Type := mkWorld {
  nodes : gmap node Element;
  listeners : list Listener;
  timers : list Timer;
  nextTimer : positive;
  console : list LogEntry;
  clock : Z;                       (* Date.now() *)
  innerHeight : Z;                 (* window.innerHeight *)
  hamburger : option node;
  menu : option node;
  navLinks : option (list node);
  pageTitle : option node;
  isAnimating : bool;
  lastClickTime : Z;
  cleanupTimeout : option positive;
  pageMapping : gmap string string
}.

Definition set_nodes (v : gmap node Element) (w : World) : World :=
  mkWorld v (listeners w) (timers w) (nextTimer w) (console w) (clock w) (innerHeight w) (hamburger w) (menu w) (navLinks w) (pageTitle w) (isAnimating w) (lastClickTime w) (cleanupTimeout w) (pageMapping w).

Definition set_listeners (v : list Listener) (w : World) : World :=
  mkWorld (nodes w) v (timers w) (nextTimer w) (console w) (clock w) (innerHeight w) (hamburger w) (menu w) (navLinks w) (pageTitle w) (isAnimating w) (lastClickTime w) (cleanupTimeout w) (pageMapping w).

Definition set_timers (v : list Timer) (w : World) : World :=
  mkWorld (nodes w) (listeners w) v (nextTimer w) (console w) (clock w) (innerHeight w) (hamburger w) (menu w) (navLinks w) (pageTitle w) (isAnimating w) (lastClickTime w) (cleanupTimeout w) (pageMapping w).

Definition set_nextTimer (v : positive) (w : World) : World :=
  mkWorld (nodes w) (listeners w) (timers w) v (console w) (clock w) (innerHeight w) (hamburger w) (menu w) (navLinks w) (pageTitle w) (isAnimating w) (lastClickTime w) (cleanupTimeout w) (pageMapping w).

Definition set_console (v : list LogEntry) (w : World) : World :=
  mkWorld (nodes w) (listeners w) (timers w) (nextTimer w) v (clock w) (innerHeight w) (hamburger w) (menu w) (navLinks w) (pageTitle w) (isAnimating w) (lastClickTime w) (cleanupTimeout w) (pageMapping w).

Definition set_clock (v : Z) (w : World) : World :=
  mkWorld (nodes w) (listeners w) (timers w) (nextTimer w) (console w) v (innerHeight w) (hamburger w) (menu w) (navLinks w) (pageTitle w) (isAnimating w) (lastClickTime w) (cleanupTimeout w) (pageMapping w).

Definition set_hamburger (v : option node) (w : World) : World :=
  mkWorld (nodes w) (listeners w) (timers w) (nextTimer w) (console w) (clock w) (innerHeight w) v (menu w) (navLinks w) (pageTitle w) (isAnimating w) (lastClickTime w) (cleanupTimeout w) (pageMapping w).

Definition set_menu (v : option node) (w : World) : World :=
  mkWorld (nodes w) (listeners w) (timers w) (nextTimer w) (console w) (clock w) (innerHeight w) (hamburger w) v (navLinks w) (pageTitle w) (isAnimating w) (lastClickTime w) (cleanupTimeout w) (pageMapping w).

Definition set_navLinks (v : option (list node)) (w : World) : World :=
  mkWorld (nodes w) (listeners w) (timers w) (nextTimer w) (console w) (clock w) (innerHeight w) (hamburger w) (menu w) v (pageTitle w) (isAnimating w) (lastClickTime w) (cleanupTimeout w) (pageMapping w).

Definition set_pageTitle (v : option node) (w : World) : World :=
  mkWorld (nodes w) (listeners w) (timers w) (nextTimer w) (console w) (clock w) (innerHeight w) (hamburger w) (menu w) (navLinks w) v (isAnimating w) (lastClickTime w) (cleanupTimeout w) (pageMapping w).

Definition set_isAnimating (v : bool) (w : World) : World :=
  mkWorld (nodes w) (listeners w) (timers w) (nextTimer w) (console w) (clock w) (innerHeight w) (hamburger w) (menu w) (navLinks w) (pageTitle w) v (lastClickTime w) (cleanupTimeout w) (pageMapping w).

Definition set_lastClickTime (v : Z) (w : World) : World :=
  mkWorld (nodes w) (listeners w) (timers w) (nextTimer w) (console w) (clock w) (innerHeight w) (hamburger w) (menu w) (navLinks w) (pageTitle w) (isAnimating w) v (cleanupTimeout w) (pageMapping w).

Definition set_cleanupTimeout (v : option positive) (w : World) : World :=
  mkWorld (nodes w) (listeners w) (timers w) (nextTimer w) (console w) (clock w) (innerHeight w) (hamburger w) (menu w) (navLinks w) (pageTitle w) (isAnimating w) (lastClickTime w) v (pageMapping w).

Definition set_pageMapping (v : gmap string string) (w : World) : World :=
  mkWorld (nodes w) (listeners w) (timers w) (nextTimer w) (console w) (clock w) (innerHeight w) (hamburger w) (menu w) (navLinks w) (pageTitle w) (isAnimating w) (lastClickTime w) (cleanupTimeout w) v.

(** *** Browser operations *)

Definition log (l : Level) (msg : string) : M World unit :=
  modify (fun w => set_console (console w ++ [(l, msg)]) w).

(** A write to a property of element [n].  The [style] map keeps the string
    that was assigned. *)
Definition onNode (n : node) (f : Element -> Element) : M World unit :=
  modify (fun w => set_nodes (update n f (nodes w)) w).

Definition element (n : node) : M World Element :=
  gets (fun w => nodes w !!! n).

(** Registering the same callback twice for one event of one target keeps a
    single registration. *)
Definition register (l : Listener) (ls : list Listener) : list Listener :=
  if bool_decide (l ∈ ls) then ls else ls ++ [l].

Definition unregister (l : Listener) (ls : list Listener) : list Listener :=
  filter (fun l' => l' ≠ l) ls.

Definition cancel (id : positive) (ts : list Timer) : list Timer :=
  filter (fun t => t_id t ≠ id) ts.

Arguments register : simpl never.
Arguments unregister : simpl never.
Arguments cancel : simpl never.

Definition addEventListener (t : EventTarget) (ty : string) (h : Handler) : M World unit :=
  modify (fun w => set_listeners (register (mkListener t ty h) (listeners w)) w).

Definition removeEventListener (t : EventTarget) (ty : string) (h : Handler) : M World unit :=
  modify (fun w => set_listeners (unregister (mkListener t ty h) (listeners w)) w).

Definition setTimeout (cb : Callback) (delay : Z) : M World positive :=
  fun w =>
    let id := nextTimer w in
    (Normal id,
     set_nextTimer (Pos.succ id) (set_timers (timers w ++ [mkTimer id delay cb]) w)).

Definition clearTimeout (id : positive) : M World unit :=
  modify (fun w => set_timers (cancel id (timers w)) w).

(** *** Methods *)

Section Methods.
Variable pg : Page.
Variable cfg : Config.

(** [cleanup()] *)
Definition cleanup : M World unit :=
  try_catch
    (h ← gets hamburger;
     match h with
     | Some h => removeEventListener (TNode h) "click" HandleHamburgerClick
     | None => ret tt
     end;;
     removeEventListener TDocument "click" HandleOutsideClick;;
     removeEventListener TDocument "keydown" HandleEscapeKey;;
     ls ← gets navLinks;
     match ls with
     | Some ls =>
         forEach ls (fun link =>
           when (isHTMLElement pg link)
             (removeEventListener (TNode link) "click" HandleNavLinkClick))
     | None => ret tt
     end;;
     t ← gets cleanupTimeout;
     match t with
     | Some t => clearTimeout t;; modify (set_cleanupTimeout None)
     | None => ret tt
     end)
    (fun _ => log error "Error during cleanup:").

(** [init()] *)
Definition init : M World unit :=
  try_catch
    (cleanup;;
     h ← (fun w => (querySelector pg (hamburgerSelector cfg), w));
     modify (set_hamburger h);;
     m ← (fun w => (querySelector pg (menuSelector cfg), w));
     modify (set_menu m);;
     ls ← (fun w => (querySelectorAll pg (navLinksSelector cfg), w));
     modify (set_navLinks (Some ls));;
     t ← (fun w => (querySelector pg (pageTitleSelector cfg), w));
     modify (set_pageTitle t);;
     match h, m with
     | Some h, Some _ =>
         addEventListener (TNode h) "click" HandleHamburgerClick;;
         addEventListener TDocument "click" HandleOutsideClick;;
         addEventListener TDocument "keydown" HandleEscapeKey;;
         forEach ls (fun link =>
           when (isHTMLElement pg link)
             (addEventListener (TNode link) "click" HandleNavLinkClick));;
         log debug "Mobile navigation initialized"
     | _, _ => log warn "Mobile navigation elements not found"
     end)
    (fun _ => log error "Failed to initialize mobile navigation:").

(** [toggleMenu()].  Reading [offsetHeight] has no effect on the state
    modelled here and is left out. *)
Definition toggleMenu : M World unit :=
  try_catch
    (h ← gets hamburger;
     m ← gets menu;
     busy ← gets isAnimating;
     match h, m, busy with
     | Some h, Some m, false =>
         modify (set_isAnimating true);;
         isActive ← gets (fun w => classList_contains "is-active" (nodes w !!! h));
         log debug "Toggle menu:";;
         onNode h (classList_toggle "is-active");;
         onNode h (setAttribute "aria-expanded" (if isActive then "false" else "true"));;
         (if negb isActive then
            viewportHeight ← gets innerHeight;
            let headerHeight := 80 in
            let menuHeight := viewportHeight - headerHeight in
            log debug "Opening menu:";;
            onNode m (setHeightPx menuHeight);;
            onNode m (classList_add "menu-open");;
            added ← gets (fun w => classList_contains "menu-open" (nodes w !!! m));
            when (negb added)
              (log warn "Failed to add menu-open class, retrying...";;
               onNode m (classList_add "menu-open"));;
            onNode (body pg) (setStyle "overflow" "hidden");;
            log debug "Menu opened successfully:"
          else
            log debug "Closing menu";;
            onNode m (classList_remove "menu-open");;
            onNode m (setStyle "height" "0");;
            onNode (body pg) (setStyle "overflow" "");;
            log debug "Menu closed successfully");;
         t ← setTimeout ResetAnimating (Z.max (animationDuration cfg) (opacityDuration cfg));
         modify (set_cleanupTimeout (Some t))
     | _, _, _ => log debug "Toggle blocked:"
     end)
    (fun _ => log error "Error toggling menu:";; modify (set_isAnimating false)).

(** [handleHamburgerClick(e)].  [preventDefault] and [stopPropagation] mark
    the event object only. *)
Definition handleHamburgerClick (e : Event) : M World unit :=
  try_catch
    (now ← gets clock;
     last ← gets lastClickTime;
     if bool_decide (now - last < debounceDelay cfg) then ret tt
     else
       modify (set_lastClickTime now);;
       busy ← gets isAnimating;
       if busy then ret tt else toggleMenu)
    (fun _ => log error "Error handling hamburger click:").

(** [handleOutsideClick(e)] *)
Definition handleOutsideClick (e : Event) : M World unit :=
  try_catch
    (h ← gets hamburger;
     m ← gets menu;
     match h, m with
     | Some h, Some m =>
         active ← gets (fun w => classList_contains "is-active" (nodes w !!! h));
         if active && negb (contains pg m (target e)) && negb (contains pg h (target e))
         then toggleMenu else ret tt
     | _, _ => ret tt
     end)
    (fun _ => log error "Error handling outside click:").

(** [handleEscapeKey(e)] *)
Definition handleEscapeKey (e : Event) : M World unit :=
  try_catch
    (h ← gets hamburger;
     match h with
     | Some h =>
         active ← gets (fun w => classList_contains "is-active" (nodes w !!! h));
         if bool_decide (key e = "Escape") && active then toggleMenu else ret tt
     | None => ret tt
     end)
    (fun _ => log error "Error handling escape key:").

(** [startNavigationClose()] *)
Definition startNavigationClose : M World unit :=
  try_catch
    (m ← gets menu;
     h ← gets hamburger;
     match m, h with
     | Some m, Some h =>
         modify (set_isAnimating true);;
         onNode m (classList_add "navigating");;
         onNode h (classList_remove "is-active");;
         onNode h (setAttribute "aria-expanded" "false");;
         onNode m (setStyle "height" "0");;
         onNode m (classList_remove "menu-open");;
         onNode (body pg) (setStyle "overflow" "");;
         t ← setTimeout NavigationCloseDone 200;
         modify (set_cleanupTimeout (Some t))
     | _, _ => ret tt
     end)
    (fun _ =>
       log error "Error starting navigation close:";;
       modify (set_isAnimating false);;
       m ← gets menu;
       match m with
       | Some m => onNode m (classList_remove "navigating")
       | None => ret tt
       end).

(** [handleNavLinkClick(e)] *)
Definition handleNavLinkClick (e : Event) : M World unit :=
  try_catch
    (let link := currentTarget e in
     h ← gets hamburger;
     match h with
     | Some h =>
         active ← gets (fun w => classList_contains "is-active" (nodes w !!! h));
         if active then
           startNavigationClose;;
           t ← setTimeout (UpdateTitle link) 200;
           modify (set_cleanupTimeout (Some t))
         else ret tt
     | None => ret tt
     end)
    (fun _ => log error "Error handling nav link click:").

(** [String.prototype.split] on a one-character separator. *)
Fixpoint split (sep : Ascii.ascii) (s : string) : list string :=
  match s with
  | EmptyString => [""]
  | String a s' =>
      if Ascii.eqb a sep then "" :: split sep s'
      else match split sep s' with
           | p :: ps => String a p :: ps
           | [] => [String a ""]
           end
  end.

Definition nonempty (s : string) : bool :=
  match s with EmptyString => false | _ => true end.

(** The first [n] bytes of a string, and the rest. *)
Fixpoint splitAt (n : nat) (s : string) : string * string :=
  match n, s with
  | S n', String a s' => let (l, r) := splitAt n' s' in (String a l, r)
  | _, _ => ("", s)
  end.

(** How many bytes the character takes whose first byte is [a]. *)
Definition charBytes (a : Ascii.ascii) : nat :=
  let n := Ascii.N_of_ascii a in
  if (n <? 192)%N then 1 else if (n <? 224)%N then 2 else if (n <? 240)%N then 3 else 4.

(** [word.charAt(0).toUpperCase() + word.slice(1)].  [charAt(0)] is the
    first UTF-16 code unit: the whole first character when that takes up to
    three bytes; otherwise half of a surrogate pair, which [toUpperCase]
    leaves as it is, so that the word comes back unchanged. *)
Definition capitalize (word : string) : string :=
  match word with
  | EmptyString => ""
  | String a _ =>
      if bool_decide (charBytes a = 4%nat) then word
      else let (first, rest) := splitAt (charBytes a) word in
           toUpperCase pg first +:+ rest
  end.

Fixpoint join (sep : string) (l : list string) : string :=
  match l with
  | [] => ""
  | [x] => x
  | x :: l' => x +:+ sep +:+ join sep l'
  end.

(** [this.pageMapping[path]]: an own property, or else an inherited one. *)
Definition property (mapping : gmap string string) (path : string) : option string :=
  match mapping !! path with
  | Some t => Some t
  | None => objectPrototype pg path
  end.

(** [getPageTitle(path)]; of an inherited property the result is its text,
    which is what [textContent] shows. *)
Definition getPageTitle (mapping : gmap string string) (path : option string) : string :=
  match path with
  | None | Some "" => "Home"
  | Some path =>
      match property mapping path with
      | Some (String a t) => String a t
      | _ =>
          let pathParts := List.filter nonempty (split "/"%char path) in
          match last pathParts with
          | Some part => join " " (map capitalize (split "-"%char part))
          | None => "Home"
          end
      end
  end.

(** The bodies of the timer callbacks. *)
Definition run_callback (cb : Callback) : M World unit :=
  match cb with
  | ResetAnimating =>
      modify (set_isAnimating false);;
      log debug "Animation completed, isAnimating reset to false"
  | NavigationCloseDone =>
      modify (set_isAnimating false);;
      m ← gets menu;
      match m with
      | Some m => onNode m (classList_remove "navigating")
      | None => ret tt
      end
  | UpdateTitle link =>
      l ← element link;
      let path := attributes l !! "href" in
      mapping ← gets pageMapping;
      let newTitle := getPageTitle mapping path in
      t ← gets pageTitle;
      match t with
      | Some t => when (nonempty newTitle) (onNode t (setTextContent newTitle))
      | None => ret tt
      end
  end.

(** A pending timer comes due: it leaves the timer list and its callback
    runs.  An id that is not pending does nothing. *)
Definition fire (id : positive) : M World unit :=
  ts ← gets timers;
  match List.find (fun t => bool_decide (t_id t = id)) ts with
  | Some t => clearTimeout id;; run_callback (t_callback t)
  | None => ret tt
  end.

(** [forceCloseMenu()] *)
Definition forceCloseMenu : M World unit :=
  try_catch
    (m ← gets menu;
     h ← gets hamburger;
     match m, h with
     | Some m, Some h =>
         log debug "Force closing menu";;
         modify (set_isAnimating false);;
         onNode m (classList_remove "menu-open");;
         onNode m (setStyle "height" "0");;
         onNode h (classList_remove "is-active");;
         onNode h (setAttribute "aria-expanded" "false");;
         onNode (body pg) (setStyle "overflow" "");;
         t ← gets cleanupTimeout;
         match t with
         | Some t => clearTimeout t;; modify (set_cleanupTimeout None)
         | None => ret tt
         end;;
         log debug "Menu force closed successfully"
     | _, _ => ret tt
     end)
    (fun _ => log error "Error forcing menu close:").

(** [forceOpenMenu()] *)
Definition forceOpenMenu : M World unit :=
  try_catch
    (m ← gets menu;
     h ← gets hamburger;
     match m, h with
     | Some m, Some h =>
         log debug "Force opening menu";;
         modify (set_isAnimating false);;
         viewportHeight ← gets innerHeight;
         let headerHeight := 80 in
         let menuHeight := viewportHeight - headerHeight in
         onNode m (setHeightPx menuHeight);;
         onNode m (classList_add "menu-open");;
         onNode h (classList_add "is-active");;
         onNode h (setAttribute "aria-expanded" "true");;
         onNode (body pg) (setStyle "overflow" "hidden");;
         t ← gets cleanupTimeout;
         match t with
         | Some t => clearTimeout t;; modify (set_cleanupTimeout None)
         | None => ret tt
         end;;
         log debug "Menu force opened successfully:"
     | _, _ => ret tt
     end)
    (fun _ => log error "Error forcing menu open:").

(** [updatePageMapping(mapping)]: the entries of [mapping] win. *)
Definition updatePageMapping (mapping : gmap string string) : M World unit :=
  modify (fun w => set_pageMapping (mapping ∪ pageMapping w) w).

(** The listener table of [init]: which method a registration runs. *)
Definition dispatch (h : Handler) (e : Event) : M World unit :=
  match h with
  | HandleHamburgerClick => handleHamburgerClick e
  | HandleOutsideClick => handleOutsideClick e
  | HandleEscapeKey => handleEscapeKey e
  | HandleNavLinkClick => handleNavLinkClick e
  end.

(** *** What the tests observe of the menu *)

Definition hasClass (n : node) (c : string) (w : World) : bool :=
  classList_contains c (nodes w !!! n).

Definition getAttribute (n : node) (k : string) (w : World) : option string :=
  attributes (nodes w !!! n) !! k.

Definition getStyle (n : node) (k : string) (w : World) : option string :=
  style (nodes w !!! n) !! k.

(** The hamburger's 'is-active' class and [aria-expanded], the menu's inline
    height and the body's inline overflow. *)
Record MenuView : Type := mkView {
  v_active : option bool;
  v_expanded : option string;
  v_height : option string;
  v_overflow : option string
}.

Definition view (w : World) : MenuView :=
  mkView ((fun h => hasClass h "is-active" w) <$> hamburger w)
         (hamburger w ≫= fun h => getAttribute h "aria-expanded" w)
         (menu w ≫= fun m => getStyle m "height" w)
         (getStyle (body pg) "overflow" w).

End Methods.

(** The fields of a fresh instance, on a page whose elements are [nodes]. *)
Definition new (nodes : gmap node Element) (now height : Z) : World :=
  mkWorld nodes [] [] 1%positive [] now height None None None None false 0 None
    (list_to_map [("/", "Home"); ("/about", "About Me"); ("/blog", "Blog");
                  ("/courses", "Courses"); ("/gallery", "Gallery")]).

(** [toUpperCase] on the letters a to z; every other byte is kept.  On
    ASCII text this is what the browsers do. *)
Definition upperCaseByte (a : Ascii.ascii) : Ascii.ascii :=
  let n := Ascii.N_of_ascii a in
  if (97 <=? n)%N && (n <=? 122)%N then Ascii.ascii_of_N (n - 32) else a.

Fixpoint upperCase (s : string) : string :=
  match s with
  | EmptyString => ""
  | String a s' => String (upperCaseByte a) (upperCase s')
  end.

(** The names every plain object inherits from [Object.prototype]. *)
Definition prototypeKeys : list string :=
  ["constructor"; "__defineGetter__"; "__defineSetter__"; "hasOwnProperty";
   "__lookupGetter__"; "__lookupSetter__"; "isPrototypeOf"; "propertyIsEnumerable";
   "toString"; "valueOf"; "__proto__"; "toLocaleString"].

(** *** A page for the examples

    Hamburger button 1, menu 2, body 3, one link 4 inside the menu and the
    title element 5; every other selector matches nothing. *)

Definition sample_page : Page :=
  mkPage
    (fun s => if String.eqb s "#mobile-hamburger" then Normal (Some 1%positive)
              else if String.eqb s "#mobile-navigation" then Normal (Some 2%positive)
              else if String.eqb s ".mobile-page-title" then Normal (Some 5%positive)
              else Normal None)
    (fun s => if String.eqb s "#mobile-navigation .nav-link a" then Normal [4%positive]
              else Normal [])
    (fun _ => true)
    (fun a b => bool_decide (a = b)
                || bool_decide (a = 3%positive)
                || (bool_decide (a = 2%positive) && bool_decide (b = 4%positive)))
    3%positive
    upperCase
    (fun key => if bool_decide (key ∈ prototypeKeys)
                then Some (if String.eqb key "__proto__" then "[object Object]"
                           else "function " +:+ (if String.eqb key "constructor" then "Object"
                                                 else key) +:+ "() { [native code] }")
                else None).

Definition sample_config : Config := constructor_config defaultMobileNavigationConfig.

(** A fresh controller after its constructor ran [init], at time 1000 in a
    viewport 768 pixels high. *)
Definition sample_ready : World :=
  exec (init sample_page sample_config) (new ∅ 1000 768).

(** The same controller in a viewport 50 pixels high, lower than the
    header. *)
Definition sample_short : World :=
  exec (init sample_page sample_config) (new ∅ 1000 50).

(** The hamburger was clicked once: the menu is open, its animation runs. *)
Definition sample_opening : World :=
  exec (handleHamburgerClick sample_page sample_config (mkEvent 1 1 "")%positive) sample_ready.

(** The 500 ms timer of that click came due: the menu is open and idle. *)
Definition sample_open : World :=
  exec (fire sample_page 1%positive) sample_opening.

(** [init()] is called again while the opening animation still runs. *)
Definition sample_reinit : World :=
  exec (init sample_page sample_config) sample_opening.

(** The same page without the menu element. *)
Definition sample_page_no_menu : Page :=
  mkPage
    (fun s => if String.eqb s "#mobile-hamburger" then Normal (Some 1%positive)
              else Normal None)
    (querySelectorAll sample_page)
    (isHTMLElement sample_page) (contains sample_page) (body sample_page)
    (toUpperCase sample_page) (objectPrototype sample_page).

(** The open, idle menu on a page whose link 4 points to a blog post. *)
Definition sample_linked : World :=
  exec (onNode 4%positive (setAttribute "href" "/blog/my-first-post")) sample_open.

End MobileNavigation.

(** ** Progressive loader ([src/utils/progressive-loader.ts]) *)

Module ProgressiveLoader.
Import Js Dom.
Local Open Scope js_scope.

Inductive Priority : Type := critical | high | medium | low.

#[global] Instance Priority_eq_dec : EqDecision Priority.
Proof. solve_decision. Defined.

(** [priorityOrder] of the comparator in [processQueue]. *)
Definition priorityOrder (p : Priority) : Z :=
  match p with critical => 0 | high => 1 | medium => 2 | low => 3 end.

(** A tier.  Its [loadFunction] is a closure of the caller: it is named by a
    number, and how the promise it returns settles is an input of the run. *)
Record LoadingTier : Type := mkTier {
  name : string;
  priority : Priority;
  loadFunction : nat;
  timeout : Z
}.

#[global] Instance LoadingTier_eq_dec : EqDecision LoadingTier.
Proof. solve_decision. Defined.

(** [ProgressiveLoaderConfig] as given to the constructor, and as stored
    after the defaults were spread under it. *)
Record ProgressiveLoaderConfig : Type := mkInput {
  in_enableIdleCallback : option bool;
  in_fallbackDelay : option Z;
  in_maxConcurrent : option Z
}.

Record Config : Type := mkConfig {
  enableIdleCallback : bool;
  fallbackDelay : Z;
  maxConcurrent : Z
}.

Definition constructor_config (c : ProgressiveLoaderConfig) : Config :=
  mkConfig (default true (in_enableIdleCallback c))
           (default 1000 (in_fallbackDelay c))
           (default 2 (in_maxConcurrent c)).

(** [createLoadingTiers] *)
Definition createLoadingTiers_critical (n : string) (loadFn : nat) : LoadingTier :=
  mkTier n critical loadFn 1000.
Definition createLoadingTiers_high (n : string) (loadFn : nat) : LoadingTier :=
  mkTier n high loadFn 1500.
Definition createLoadingTiers_medium (n : string) (loadFn : nat) : LoadingTier :=
  mkTier n medium loadFn 2000.
Definition createLoadingTiers_low (n : string) (loadFn : nat) : LoadingTier :=
  mkTier n low loadFn 3000.

(** The arrow functions handed to [setTimeout] and [requestIdleCallback]. *)
Inductive Task : Type :=
| RunLoadTier (t : LoadingTier)          (* () => this.loadTier(tier) *)
| RunLoadTierWhenIdle (t : LoadingTier). (* () => this.loadTierWhenIdle(tier) *)

Inductive When : Type :=
| AfterMs (ms : Z)          (* setTimeout(task, ms) *)
| WhenIdle (timeout : Z).   (* requestIdleCallback(task, { timeout }) *)

Record Scheduled : Type := mkScheduled { s_when : When; s_task : Task }.

(** Identity of an array object.  [sort] and [push] change the array they
    are called on; [filter] makes a new one. *)
Definition ref : Type := positive.

(** A [processQueue] call suspended in [await this.loadTier(tier)]: its
    [sortedQueue] (an array object) and the critical tiers still to come. *)
Record Pass : Type := mkPass { sortedQueue : ref; rest : list LoadingTier }.

(** A [loadTier] call suspended in [await tier.loadFunction()], and the
    [processQueue] call that awaits it, if any. *)
Record Pending : Type := mkPending { p_tier : LoadingTier; p_pass : option Pass }.

Record World : Type := mkWorld {
  arrays : gmap ref (list LoadingTier);
  nextRef : ref;
  loadingQueue : ref;
  isProcessing : bool;
  loadedTiers : list string;    (* a Set: insertion order, no duplicates *)
  scheduled : list Scheduled;   (* callbacks the browser holds *)
  pending : list Pending;       (* load promises not yet settled *)
  started : list nat;           (* calls of load functions, oldest first *)
  console : list LogEntry
}.

Definition set_arrays (v : gmap ref (list LoadingTier)) (w : World) : World :=
  mkWorld v (nextRef w) (loadingQueue w) (isProcessing w) (loadedTiers w) (scheduled w) (pending w) (started w) (console w).

Definition set_nextRef (v : ref) (w : World) : World :=
  mkWorld (arrays w) v (loadingQueue w) (isProcessing w) (loadedTiers w) (scheduled w) (pending w) (started w) (console w).

Definition set_loadingQueue (v : ref) (w : World) : World :=
  mkWorld (arrays w) (nextRef w) v (isProcessing w) (loadedTiers w) (scheduled w) (pending w) (started w) (console w).

Definition set_isProcessing (v : bool) (w : World) : World :=
  mkWorld (arrays w) (nextRef w) (loadingQueue w) v (loadedTiers w) (scheduled w) (pending w) (started w) (console w).

Definition set_loadedTiers (v : list string) (w : World) : World :=
  mkWorld (arrays w) (nextRef w) (loadingQueue w) (isProcessing w) v (scheduled w) (pending w) (started w) (console w).

Definition set_scheduled (v : list Scheduled) (w : World) : World :=
  mkWorld (arrays w) (nextRef w) (loadingQueue w) (isProcessing w) (loadedTiers w) v (pending w) (started w) (console w).

Definition set_pending (v : list Pending) (w : World) : World :=
  mkWorld (arrays w) (nextRef w) (loadingQueue w) (isProcessing w) (loadedTiers w) (scheduled w) v (started w) (console w).

Definition set_started (v : list nat) (w : World) : World :=
  mkWorld (arrays w) (nextRef w) (loadingQueue w) (isProcessing w) (loadedTiers w) (scheduled w) (pending w) v (console w).

Definition set_console (v : list LogEntry) (w : World) : World :=
  mkWorld (arrays w) (nextRef w) (loadingQueue w) (isProcessing w) (loadedTiers w) (scheduled w) (pending w) (started w) v.

(** The contents of [this.loadingQueue]. *)
Definition queue (w : World) : list LoadingTier := default [] (arrays w !! loadingQueue w).

Definition array (r : ref) (w : World) : list LoadingTier := default [] (arrays w !! r).

(** [new ProgressiveLoader(config)]: an empty array, nothing loaded. *)
Definition new : World :=
  mkWorld {[1%positive := []]} 2%positive 1%positive false [] [] [] [] [].

(** [Array.prototype.sort] with the comparator
    [priorityOrder[a.priority] - priorityOrder[b.priority]]; the sort is
    stable, so it is the insertion sort that puts an element before the
    first one that does not rank below it. *)
Fixpoint insert_tier (t : LoadingTier) (l : list LoadingTier) : list LoadingTier :=
  match l with
  | [] => [t]
  | x :: l' =>
      if (priorityOrder (priority t) <=? priorityOrder (priority x))%Z
      then t :: x :: l'
      else x :: insert_tier t l'
  end.

Definition sort_tiers (l : list LoadingTier) : list LoadingTier :=
  foldr insert_tier [] l.

Definition is_critical (t : LoadingTier) : bool :=
  bool_decide (priority t = critical).

(** [Set.prototype.add] *)
Definition set_add (x : string) (s : list string) : list string :=
  if bool_decide (x ∈ s) then s else s ++ [x].

Arguments set_add : simpl never.

Definition log (l : Level) (msg : string) : M World unit :=
  modify (fun w => set_console (console w ++ [(l, msg)]) w).

Definition schedule (wh : When) (t : Task) : M World unit :=
  modify (fun w => set_scheduled (scheduled w ++ [mkScheduled wh t]) w).

Section Methods.
Variable cfg : Config.
(** ['requestIdleCallback' in window] *)
Variable hasRequestIdleCallback : bool.

(** [loadTier(tier)] up to its [await]: the load function is called and the
    call waits for the promise.  [pass] is the [processQueue] call awaiting
    this [loadTier], if there is one. *)
Definition loadTier (tier : LoadingTier) (pass : option Pass) : M World unit :=
  modify (fun w =>
    set_started (started w ++ [loadFunction tier])
      (set_pending (pending w ++ [mkPending tier pass]) w)).

(** [loadTier(tier)] after the [await]: the promise was fulfilled ([ok]) or
    rejected. *)
Definition loadTier_settled (tier : LoadingTier) (ok : bool) : M World unit :=
  if ok then
    modify (fun w => set_loadedTiers (set_add (name tier) (loadedTiers w)) w);;
    modify (fun w =>
      let fresh := nextRef w in
      set_loadingQueue fresh
        (set_nextRef (Pos.succ fresh)
           (set_arrays (<[fresh := List.filter (fun t => bool_decide (name t ≠ name tier))
                                    (queue w)]> (arrays w)) w)));;
    log debug "Loaded tier"
  else
    log warn "Failed to load tier".

(** [loadTierWhenIdle(tier)] *)
Definition loadTierWhenIdle (tier : LoadingTier) : M World unit :=
  if enableIdleCallback cfg && hasRequestIdleCallback
  then schedule (WhenIdle (timeout tier)) (RunLoadTier tier)
  else schedule (AfterMs (fallbackDelay cfg)) (RunLoadTier tier).

(** One round of the second loop of [processQueue]. *)
Definition schedule_tier (tier : LoadingTier) : M World unit :=
  match priority tier with
  | high => schedule (AfterMs 100) (RunLoadTier tier)
  | medium => loadTierWhenIdle tier
  | _ => schedule (AfterMs 2000) (RunLoadTierWhenIdle tier)
  end.

(** [processQueue] from the head of its first loop, with [criticalTiers]
    still to load: it awaits the first of them, or, when none is left,
    filters [sortedQueue], schedules the other tiers and leaves through
    [finally]. *)
Definition processQueue_continue (sorted : ref) (criticalTiers : list LoadingTier)
    : M World unit :=
  match criticalTiers with
  | tier :: rest => loadTier tier (Some (mkPass sorted rest))
  | [] =>
      remainingTiers ← gets (fun w => List.filter (fun t => negb (is_critical t)) (array sorted w));
      forEach remainingTiers schedule_tier;;
      modify (set_isProcessing false)
  end.

(** [processQueue()] up to its first [await]. *)
Definition processQueue : M World unit :=
  busy ← gets isProcessing;
  q ← gets queue;
  if busy || bool_decide (length q = 0%nat) then ret tt
  else
    modify (set_isProcessing true);;
    modify (fun w => set_arrays (<[loadingQueue w := sort_tiers (queue w)]> (arrays w)) w);;
    sortedQueue ← gets loadingQueue;
    criticalTiers ← gets (fun w => List.filter is_critical (array sortedQueue w));
    processQueue_continue sortedQueue criticalTiers.

(** [addTier(tier)] *)
Definition addTier (tier : LoadingTier) : M World unit :=
  loaded ← gets loadedTiers;
  if bool_decide (name tier ∈ loaded) then ret tt
  else
    modify (fun w => set_arrays (<[loadingQueue w := (queue w ++ [tier])%list]> (arrays w)) w);;
    processQueue.

(** The [i]-th pending load promise settles: its [loadTier] call finishes,
    and the [processQueue] call awaiting it goes on. *)
Definition settle (i : nat) (ok : bool) : M World unit :=
  ps ← gets pending;
  match ps !! i with
  | Some p =>
      modify (set_pending (delete i ps));;
      loadTier_settled (p_tier p) ok;;
      match p_pass p with
      | Some pass => processQueue_continue (sortedQueue pass) (rest pass)
      | None => ret tt
      end
  | None => ret tt
  end.

(** The browser runs the [i]-th callback it holds. *)
Definition run_scheduled (i : nat) : M World unit :=
  ss ← gets scheduled;
  match ss !! i with
  | Some s =>
      modify (set_scheduled (delete i ss));;
      match s_task s with
      | RunLoadTier t => loadTier t None
      | RunLoadTierWhenIdle t => loadTierWhenIdle t
      end
  | None => ret tt
  end.

(** [isTierLoaded(tierName)] *)
Definition isTierLoaded (tierName : string) (w : World) : bool :=
  bool_decide (tierName ∈ loadedTiers w).

(** [getStatus()] *)
Record Status : Type := mkStatus {
  st_loaded : list string;
  st_queued : list string;
  st_total : nat
}.

Definition getStatus (w : World) : Status :=
  mkStatus (loadedTiers w) (map name (queue w))
           (length (loadedTiers w) + length (queue w)).

(** [cleanup()] *)
Definition cleanup : M World unit :=
  modify (fun w =>
    let fresh := nextRef w in
    set_loadingQueue fresh (set_nextRef (Pos.succ fresh) (set_arrays (<[fresh := []]> (arrays w)) w)));;
  modify (set_loadedTiers []);;
  modify (set_isProcessing false).

End Methods.

(** [initProgressiveLoader()]: the loader it builds and the three tiers it
    adds; the load functions are numbered in that order. *)
Definition initProgressiveLoader_config : Config :=
  constructor_config (mkInput (Some true) (Some 1000) (Some 2)).

Definition initProgressiveLoader (hasRequestIdleCallback : bool) : M World unit :=
  addTier initProgressiveLoader_config hasRequestIdleCallback
    (createLoadingTiers_critical "video-background" 0);;
  addTier initProgressiveLoader_config hasRequestIdleCallback
    (createLoadingTiers_medium "image-preloader" 1);;
  addTier initProgressiveLoader_config hasRequestIdleCallback
    (createLoadingTiers_low "mobile-navigation" 2).

(** *** Loaders for the examples *)

Definition sample_video : LoadingTier := createLoadingTiers_critical "video-background" 0.
Definition sample_images : LoadingTier := createLoadingTiers_medium "image-preloader" 1.
Definition sample_nav : LoadingTier := createLoadingTiers_low "mobile-navigation" 2.

(** An idle loader whose queue holds three tiers that no pass has seen. *)
Definition sample_queued : World :=
  mkWorld {[1%positive := [sample_nav; sample_images; sample_video]]} 2%positive 1%positive
    false [] [] [] [] [].

(** The critical tier is loading. *)
Definition sample_loading : World :=
  exec (addTier initProgressiveLoader_config true sample_video) new.

End ProgressiveLoader.

(** ** Image preloader ([src/utils/image-preloader.ts], class [ImagePreloader]) *)

Module ImagePreloader.
Import Js Dom.
Local Open Scope js_scope.

(** [ImagePreloaderConfig] as given, and as stored after the defaults were
    spread under it. *)
Record ImagePreloaderConfig : Type := mkInput {
  in_rootMargin : option string;
  in_threshold : option (list float);
  in_enableHoverPreload : option bool;
  in_preloadAttribute : option string;
  in_triggerClass : option string
}.

Record Config : Type := mkConfig {
  rootMargin : string;
  threshold : list float;
  enableHoverPreload : bool;
  preloadAttribute : string;
  triggerClass : string
}.

Definition constructor_config (c : ImagePreloaderConfig) : Config :=
  mkConfig (default "50px" (in_rootMargin c))
           (default [0x1.999999999999ap-4%float] (in_threshold c))   (* 0.1 *)
           (default true (in_enableHoverPreload c))
           (default "data-preload-src" (in_preloadAttribute c))
           (default "preload-trigger" (in_triggerClass c)).

(** How a load went so far: [new Image()] with its [src] assigned is being
    fetched until the browser fires [load] or [error] on it, once. *)
Inductive Status : Type := Fetching | Loaded | Failed.

#[global] Instance Status_eq_dec : EqDecision Status.
Proof. solve_decision. Defined.

(** One [preloadData] object together with the [Image] it holds and what
    the two handlers of that image have captured: the target element and
    the promise of the call that created it.  [waiters] are the promises of
    later calls that added [load] and [error] listeners to the image. *)
Record Preload : Type := mkPreload {
  p_src : string;
  p_loaded : bool;
  p_loading : bool;
  p_status : Status;
  p_target : option node;
  p_promise : nat;
  p_waiters : list nat
}.

(** A settled promise; a promise that is not in the table is pending. *)
Inductive Settled : Type :=
| Fulfilled (image : nat)
| Rejected.

#[global] Instance Settled_eq_dec : EqDecision Settled.
Proof. solve_decision. Defined.

(** The two kinds of [mouseenter] listeners. *)
Inductive Handler : Type :=
| HoverPreload (trigger : node)       (* setupHoverPreloading *)
| LegacyHover (images : list node).   (* setupLegacyHoverPreloading *)

Record Listener : Type := mkListener {
  l_node : node;
  l_handler : Handler;
  l_once : bool
}.

Inductive When : Type :=
| AfterMs (ms : Z)
| WhenIdle (timeout : Z).

(** What the preloader asks of the page: the elements of a class, the
    descendants of an element that carry an attribute (both queries throw on
    a malformed selector), whether the browser has [IntersectionObserver] and
    [requestIdleCallback], and whether constructing the observer with the
    configured options throws. *)
Record Page : Type := mkPage {
  elementsOfClass : string -> completion (list node);
  descendantsWith : node -> string -> completion (list node);
  hasIntersectionObserver : bool;
  hasRequestIdleCallback : bool;
  observerOptionsRejected : bool
}.

Record World : Type := mkWorld {
  nodes : gmap node Element;
  preloads : gmap nat Preload;          (* the preloadData objects, by identity *)
  nextImage : nat;
  preloadedImages : gmap string nat;    (* the Map: src to preloadData *)
  promises : gmap nat Settled;
  nextPromise : nat;
  observer : option (list node);        (* the observer and what it observes *)
  observedElements : list node;
  isInitialized : bool;
  listeners : list Listener;            (* mouseenter listeners *)
  scheduled : list When;                (* pending initializeImagePreloader callbacks *)
  console : list LogEntry
}.

Definition set_nodes (v : gmap node Element) (w : World) : World :=
  mkWorld v (preloads w) (nextImage w) (preloadedImages w) (promises w) (nextPromise w) (observer w) (observedElements w) (isInitialized w) (listeners w) (scheduled w) (console w).

Definition set_preloads (v : gmap nat Preload) (w : World) : World :=
  mkWorld (nodes w) v (nextImage w) (preloadedImages w) (promises w) (nextPromise w) (observer w) (observedElements w) (isInitialized w) (listeners w) (scheduled w) (console w).

Definition set_nextImage (v : nat) (w : World) : World :=
  mkWorld (nodes w) (preloads w) v (preloadedImages w) (promises w) (nextPromise w) (observer w) (observedElements w) (isInitialized w) (listeners w) (scheduled w) (console w).

Definition set_preloadedImages (v : gmap string nat) (w : World) : World :=
  mkWorld (nodes w) (preloads w) (nextImage w) v (promises w) (nextPromise w) (observer w) (observedElements w) (isInitialized w) (listeners w) (scheduled w) (console w).

Definition set_promises (v : gmap nat Settled) (w : World) : World :=
  mkWorld (nodes w) (preloads w) (nextImage w) (preloadedImages w) v (nextPromise w) (observer w) (observedElements w) (isInitialized w) (listeners w) (scheduled w) (console w).

Definition set_nextPromise (v : nat) (w : World) : World :=
  mkWorld (nodes w) (preloads w) (nextImage w) (preloadedImages w) (promises w) v (observer w) (observedElements w) (isInitialized w) (listeners w) (scheduled w) (console w).

Definition set_observer (v : option (list node)) (w : World) : World :=
  mkWorld (nodes w) (preloads w) (nextImage w) (preloadedImages w) (promises w) (nextPromise w) v (observedElements w) (isInitialized w) (listeners w) (scheduled w) (console w).

Definition set_observedElements (v : list node) (w : World) : World :=
  mkWorld (nodes w) (preloads w) (nextImage w) (preloadedImages w) (promises w) (nextPromise w) (observer w) v (isInitialized w) (listeners w) (scheduled w) (console w).

Definition set_isInitialized (v : bool) (w : World) : World :=
  mkWorld (nodes w) (preloads w) (nextImage w) (preloadedImages w) (promises w) (nextPromise w) (observer w) (observedElements w) v (listeners w) (scheduled w) (console w).

Definition set_listeners (v : list Listener) (w : World) : World :=
  mkWorld (nodes w) (preloads w) (nextImage w) (preloadedImages w) (promises w) (nextPromise w) (observer w) (observedElements w) (isInitialized w) v (scheduled w) (console w).

Definition set_scheduled (v : list When) (w : World) : World :=
  mkWorld (nodes w) (preloads w) (nextImage w) (preloadedImages w) (promises w) (nextPromise w) (observer w) (observedElements w) (isInitialized w) (listeners w) v (console w).

Definition set_console (v : list LogEntry) (w : World) : World :=
  mkWorld (nodes w) (preloads w) (nextImage w) (preloadedImages w) (promises w) (nextPromise w) (observer w) (observedElements w) (isInitialized w) (listeners w) (scheduled w) v.

(** [new ImagePreloader(config)] on a page whose elements are [nodes]. *)
Definition new (nodes : gmap node Element) : World :=
  mkWorld nodes ∅ 0 ∅ ∅ 0 None [] false [] [] [].

Definition log (l : Level) (msg : string) : M World unit :=
  modify (fun w => set_console (console w ++ [(l, msg)]) w).

(** The [src] property of an image element; an absent one reads as the
    empty string. *)
Definition srcOf (n : node) (w : World) : string :=
  default "" (attributes (nodes w !!! n) !! "src").

Definition truthy (s : string) : bool :=
  match s with EmptyString => false | _ => true end.

(** [if (targetElement && !targetElement.src) targetElement.src = src] *)
Definition fillTarget (target : option node) (src : string) : M World unit :=
  match target with
  | Some t =>
      current ← gets (srcOf t);
      if truthy current then ret tt
      else modify (fun w => set_nodes (update t (setAttribute "src" src) (nodes w)) w)
  | None => ret tt
  end.

(** [resolve] and [reject]: a settled promise stays as it is. *)
Definition settlePromise (p : nat) (s : Settled) : M World unit :=
  modify (fun w =>
    match promises w !! p with
    | Some _ => w
    | None => set_promises (<[p := s]> (promises w)) w
    end).

Definition newPromise : M World nat :=
  fun w => (Normal (nextPromise w), set_nextPromise (S (nextPromise w)) w).

(** The entry of the Map for [src], with the object it refers to. *)
Definition cached (src : string) (w : World) : option (nat * Preload) :=
  match preloadedImages w !! src with
  | Some id =>
      match preloads w !! id with
      | Some p => Some (id, p)
      | None => None
      end
  | None => None
  end.

Section Methods.
Variable pg : Page.
Variable cfg : Config.

(** [preloadImage(src, targetElement)]; the result is the promise. *)
Definition preloadImage (src : string) (targetElement : option node) : M World nat :=
  promise ← newPromise;
  c ← gets (cached src);
  match c with
  | Some (id, p) =>
      if p_loaded p then
        fillTarget targetElement src;;
        settlePromise promise (Fulfilled id);;
        ret promise
      else if p_loading p then
        modify (fun w =>
          set_preloads (<[id := mkPreload (p_src p) (p_loaded p) (p_loading p) (p_status p)
                                  (p_target p) (p_promise p) (p_waiters p ++ [promise])%list]>
                          (preloads w)) w);;
        ret promise
      else
        id' ← gets nextImage;
        modify (fun w =>
          set_preloadedImages (<[src := id']> (preloadedImages w))
            (set_nextImage (S id')
               (set_preloads (<[id' := mkPreload src false true Fetching targetElement promise []]>
                                (preloads w)) w)));;
        ret promise
  | None =>
      id' ← gets nextImage;
      modify (fun w =>
        set_preloadedImages (<[src := id']> (preloadedImages w))
          (set_nextImage (S id')
             (set_preloads (<[id' := mkPreload src false true Fetching targetElement promise []]>
                              (preloads w)) w)));;
      ret promise
  end.

(** The browser fires [load] on image [id]: [onload] runs, then the [load]
    listeners added by later calls. *)
Definition image_load (id : nat) : M World unit :=
  ps ← gets preloads;
  match ps !! id with
  | Some p =>
      if bool_decide (p_status p = Fetching) then
        modify (set_preloads (<[id := mkPreload (p_src p) true false Loaded
                                        (p_target p) (p_promise p) (p_waiters p)]> ps));;
        fillTarget (p_target p) (p_src p);;
        settlePromise (p_promise p) (Fulfilled id);;
        forEach (p_waiters p) (fun q => settlePromise q (Fulfilled id))
      else ret tt
  | None => ret tt
  end.

(** The browser fires [error] on image [id]: [onerror] runs, then the
    [error] listeners added by later calls. *)
Definition image_error (id : nat) : M World unit :=
  ps ← gets preloads;
  match ps !! id with
  | Some p =>
      if bool_decide (p_status p = Fetching) then
        modify (set_preloads (<[id := mkPreload (p_src p) (p_loaded p) false Failed
                                        (p_target p) (p_promise p) (p_waiters p)]> ps));;
        modify (fun w => set_preloadedImages (delete (p_src p) (preloadedImages w)) w);;
        log warn "Failed to preload image";;
        settlePromise (p_promise p) Rejected;;
        forEach (p_waiters p) (fun q => settlePromise q Rejected)
      else ret tt
  | None => ret tt
  end.

Definition has (src : string) (w : World) : bool :=
  bool_decide (is_Some (preloadedImages w !! src)).

(** [preloadImagesInElement(element)] *)
Definition preloadImagesInElement (element : node) : M World unit :=
  imgs ← (fun w => (descendantsWith pg element (preloadAttribute cfg), w));
  forEach imgs (fun img =>
    src ← gets (fun w => attributes (nodes w !!! img) !! preloadAttribute cfg);
    match src with
    | Some src =>
        known ← gets (has src);
        if truthy src && negb known
        then preloadImage src (Some img);; ret tt
        else ret tt
    | None => ret tt
    end).

(** [setupIntersectionObserver()] *)
Definition setupIntersectionObserver : M World unit :=
  if observerOptionsRejected pg then throw "SyntaxError"
  else modify (set_observer (Some [])).

(** The callback of the observer, called with entries (target, isIntersecting). *)
Definition observerCallback (entries : list (node * bool)) : M World unit :=
  forEach entries (fun e =>
    if snd e then
      preloadImagesInElement (fst e);;
      modify (fun w =>
        match observer w with
        | Some obs => set_observer (Some (List.filter (fun n => negb (Pos.eqb n (fst e))) obs)) w
        | None => w
        end)
    else ret tt).

(** [observeElements()] *)
Definition observeElements : M World unit :=
  obs ← gets observer;
  match obs with
  | None => ret tt
  | Some _ =>
      triggers ← (fun w => (elementsOfClass pg (triggerClass cfg), w));
      forEach triggers (fun trigger =>
        seen ← gets (fun w => bool_decide (trigger ∈ observedElements w));
        if seen then ret tt
        else
          modify (fun w =>
            match observer w with
            | Some obs => set_observer (Some (obs ++ [trigger])%list) w
            | None => w
            end);;
          modify (fun w => set_observedElements (observedElements w ++ [trigger]) w))
  end.

Definition addListener (l : Listener) : M World unit :=
  modify (fun w => set_listeners (listeners w ++ [l]) w).

(** [setupHoverPreloading()]: each call makes new handler functions. *)
Definition setupHoverPreloading : M World unit :=
  triggers ← (fun w => (elementsOfClass pg (triggerClass cfg), w));
  forEach triggers (fun trigger =>
    addListener (mkListener trigger (HoverPreload trigger) true)).

(** [setupLegacyHoverPreloading()] *)
Definition setupLegacyHoverPreloading : M World unit :=
  triggers ← (fun w => (elementsOfClass pg (triggerClass cfg), w));
  forEach triggers (fun trigger =>
    imgs ← (fun w => (descendantsWith pg trigger (preloadAttribute cfg), w));
    if bool_decide (length imgs = 0%nat) then ret tt
    else addListener (mkListener trigger (LegacyHover imgs) false)).

(** The body of a [mouseenter] handler. *)
Definition run_handler (h : Handler) : M World unit :=
  match h with
  | HoverPreload trigger => preloadImagesInElement trigger
  | LegacyHover imgs =>
      forEach imgs (fun img =>
        src ← gets (fun w => attributes (nodes w !!! img) !! preloadAttribute cfg);
        match src with
        | Some src =>
            current ← gets (srcOf img);
            known ← gets (has src);
            if truthy src && negb (truthy current) && negb known
            then preloadImage src (Some img);; ret tt
            else ret tt
        | None => ret tt
        end)
  end.

(** [initializeImagePreloader()] *)
Definition initializeImagePreloader : M World unit :=
  done ← gets isInitialized;
  if done then ret tt
  else if negb (hasIntersectionObserver pg) then
    log warn "IntersectionObserver not supported, falling back to hover preloading";;
    setupLegacyHoverPreloading
  else
    try_catch
      (setupIntersectionObserver;;
       observeElements;;
       when (enableHoverPreload cfg) setupHoverPreloading;;
       modify (set_isInitialized true))
      (fun _ =>
         log error "ImagePreloader initialization failed:";;
         setupLegacyHoverPreloading).

(** [init()] *)
Definition init : M World unit :=
  done ← gets isInitialized;
  if done then ret tt
  else
    modify (fun w =>
      set_scheduled (scheduled w ++ [if hasRequestIdleCallback pg then WhenIdle 1500
                                     else AfterMs 1000]) w).

(** [observeNewElements()] *)
Definition observeNewElements : M World unit :=
  done ← gets isInitialized;
  obs ← gets observer;
  if done && bool_decide (is_Some obs) then observeElements else ret tt.

(** [preloadImages(sources)]: the promises of the single loads. *)
Fixpoint preloadImages (sources : list string) : M World (list nat) :=
  match sources with
  | [] => ret []
  | src :: rest =>
      p ← preloadImage src None;
      ps ← preloadImages rest;
      ret (p :: ps)
  end.

(** What the promise of [preloadImages] holds once it is settled:
    [Promise.all] of the single promises, with a rejection turned into the
    empty list.  [None]: still pending. *)
Fixpoint all_fulfilled (ps : list nat) (table : gmap nat Settled) : option (list nat) :=
  match ps with
  | [] => Some []
  | p :: rest =>
      match table !! p with
      | Some (Fulfilled i) => cons i <$> all_fulfilled rest table
      | _ => None
      end
  end.

Definition preloadImages_result (ps : list nat) (w : World) : option (list nat) :=
  if bool_decide (Exists (fun p => promises w !! p = Some Rejected) ps) then Some []
  else all_fulfilled ps (promises w).

(** [isImagePreloaded(src)] *)
Definition isImagePreloaded (src : string) (w : World) : bool :=
  match cached src w with
  | Some (_, p) => p_loaded p
  | None => false
  end.

(** [getStats()] *)
Record Stats : Type := mkStats { total : nat; loaded : nat; loading : nat }.

Definition entries (w : World) : list Preload :=
  omap (fun kv => preloads w !! snd kv) (map_to_list (preloadedImages w)).

Definition getStats (w : World) : Stats :=
  mkStats (size (preloadedImages w))
          (length (List.filter p_loaded (entries w)))
          (length (List.filter (fun p => negb (p_loaded p) && p_loading p) (entries w))).

(** [clearCache()] *)
Definition clearCache : M World unit :=
  modify (set_preloadedImages ∅).

(** [destroy()] *)
Definition destroy : M World unit :=
  modify (set_observer None);;
  clearCache;;
  modify (set_observedElements []);;
  modify (set_isInitialized false).

(** A [mouseenter] on [n]: its listeners run in the order in which they were
    added; a listener added with [once] is removed before it runs.  What a
    handler throws is reported by the browser and stops nothing else. *)
Definition mouseenter (n : node) : M World unit :=
  ls ← gets listeners;
  modify (set_listeners (List.filter (fun l => negb (Pos.eqb (l_node l) n && l_once l)) ls));;
  forEach (List.filter (fun l => Pos.eqb (l_node l) n) ls) (fun l =>
    try_catch (run_handler (l_handler l)) (fun _ => log error "Uncaught")).

End Methods.

(** A page with one trigger (node 1) around one image (node 2) that has a
    [data-preload-src] and no [src] yet. *)
Definition sample_nodes : gmap node Element :=
  {[ 1%positive := mkElement {[ "preload-trigger" ]} ∅ ∅ "";
     2%positive := mkElement ∅ {[ "data-preload-src" := "a.png" ]} ∅ "" ]}.

Definition sample_page : Page :=
  mkPage (fun c => Normal (if bool_decide (c = "preload-trigger") then [1%positive] else []))
         (fun n a => Normal (if bool_decide (n = 1%positive ∧ a = "data-preload-src")
                             then [2%positive] else []))
         true true false.

(** The same page in a browser without [IntersectionObserver]. *)
Definition sample_page_legacy : Page :=
  mkPage (elementsOfClass sample_page) (descendantsWith sample_page) false false false.

(** The image of the page when it has a [src] already. *)
Definition sample_nodes_src : gmap node Element :=
  {[ 1%positive := mkElement {[ "preload-trigger" ]} ∅ ∅ "";
     2%positive := mkElement ∅ {[ "src" := "b.png"; "data-preload-src" := "a.png" ]} ∅ "" ]}.

Definition sample_config : Config :=
  constructor_config (mkInput None None None None None).

(** After [preloadImages(["a.png"])]: one image is being fetched. *)
Definition sample_fetching : World :=
  exec (preloadImages ["a.png"]) (new sample_nodes).

(** ... and after that image has loaded. *)
Definition sample_loaded : World := exec (image_load 0) sample_fetching.

End ImagePreloader.

(** ** Video background ([src/utils/image-preloader.ts], class [VideoBackgroundManager]) *)

Module VideoBackgroundManager.
Import Js Dom.
Local Open Scope js_scope.

(** [VideoBackgroundConfig] as given, and as stored after the defaults were
    spread under it. *)
Record VideoBackgroundConfig : Type := mkInput {
  in_videoId : option string;
  in_placeholderId : option string;
  in_fadeDuration : option Z;
  in_fallbackTimeout : option Z;
  in_loadDelay : option Z
}.

Record Config : Type := mkConfig {
  videoId : string;
  placeholderId : string;
  fadeDuration : Z;
  fallbackTimeout : Z;
  loadDelay : Z
}.

Definition constructor_config (c : VideoBackgroundConfig) : Config :=
  mkConfig (default "bgvid" (in_videoId c))
           (default "video-placeholder" (in_placeholderId c))
           (default 500 (in_fadeDuration c))
           (default 3000 (in_fallbackTimeout c))
           (default 100 (in_loadDelay c)).

(** What the manager reads and writes of a media element. *)
Record Media : Type := mkMedia {
  paused : bool;
  currentTime : float
}.

#[global] Instance Media_inhabited : Inhabited Media := populate (mkMedia true 0%float).

(** The functions the manager registers as event listeners.  Every call of
    [setupVideoLoading], of [setupViewTransitions] and of the rejection
    handler in [ensureVideoPlayback] makes new function objects; [c] tells
    the calls apart. *)
Inductive Handler : Type :=
| OnCanPlayThrough (c : nat)
| OnLoadedData (c : nat)
| OnCanPlay (c : nat)
| StartVideoOnInteraction (c : nat)
| BeforeSwapHandler (c : nat)
| AfterSwapHandler (c : nat).

#[global] Instance Handler_eq_dec : EqDecision Handler.
Proof. solve_decision. Defined.

Record Listener : Type := mkListener {
  l_target : EventTarget;
  l_type : string;
  l_handler : Handler;
  l_once : bool
}.

#[global] Instance Listener_eq_dec : EqDecision Listener.
Proof. solve_decision. Defined.

(** The functions handed to [setTimeout], [requestIdleCallback] and
    [requestAnimationFrame]. *)
Inductive Callback : Type :=
| InitializeVideoBackground      (* init *)
| HidePlaceholder (c : nat)      (* the fallback of setupVideoLoading *)
| BeforeSwapFrame (c : nat)
| SaveVideoTime (c : nat)
| AfterSwapFrame (c : nat)
| EndTransition (c : nat).

Inductive When : Type :=
| AfterMs (ms : Z)
| WhenIdle (timeout : Z)
| NextFrame.

Record Task : Type := mkTask {
  k_id : positive;
  k_when : When;
  k_callback : Callback
}.

Definition is_timer (t : Task) : bool :=
  match k_when t with AfterMs _ => true | _ => false end.

(** The entries of [cleanupFunctions]. *)
Inductive Cleanup : Type :=
| RemoveVideoListener (type : string) (h : Handler)
| ClearFallbackTimeout (id : positive)
| RemoveSwapListeners (c : nat).

(** The two variables the handlers of one [setupViewTransitions] call
    share. *)
Record Transition : Type := mkTransition {
  transitionInProgress : bool;
  saveTimeoutId : option positive
}.

#[global] Instance Transition_inhabited : Inhabited Transition :=
  populate (mkTransition false None).

(** Who waits for a promise of [play()]. *)
Inductive Origin : Type := FromEnsure | FromInteraction.

(** What the manager asks of the browser: the elements by id, whether
    [window] has [sessionStorage] and [requestIdleCallback], whether reading
    or writing the storage throws, whether [play()] returns a promise, and
    the two conversions between numbers and strings. *)
Record Page : Type := mkPage {
  getElementById : string -> option node;
  hasSessionStorage : bool;
  getItemThrows : bool;
  setItemThrows : bool;
  hasRequestIdleCallback : bool;
  playReturnsPromise : bool;
  parseFloat : string -> float;
  numberToString : float -> string
}.

Record World : Type := mkWorld {
  nodes : gmap node Element;
  media : gmap node Media;   (* the playback state of the media elements *)
  storage : gmap string string;   (* sessionStorage *)
  video : option node;
  placeholder : option node;
  isInitialized : bool;
  isVideoLoading : bool;
  cleanupFunctions : list Cleanup;
  listeners : list Listener;
  tasks : list Task;   (* timers, idle callbacks and animation frames the browser holds *)
  nextTask : positive;
  transitions : gmap nat Transition;   (* the variables of the [setupViewTransitions] calls *)
  nextClosure : nat;
  plays : list Origin;   (* the pending promises of [play()] *)
  playCalls : nat;   (* how often [play()] was called *)
  console : list LogEntry
}.

Definition set_nodes (v : gmap node Element) (w : World) : World :=
  mkWorld v (media w) (storage w) (video w) (placeholder w) (isInitialized w) (isVideoLoading w) (cleanupFunctions w) (listeners w) (tasks w) (nextTask w) (transitions w) (nextClosure w) (plays w) (playCalls w) (console w).

Definition set_media (v : gmap node Media) (w : World) : World :=
  mkWorld (nodes w) v (storage w) (video w) (placeholder w) (isInitialized w) (isVideoLoading w) (cleanupFunctions w) (listeners w) (tasks w) (nextTask w) (transitions w) (nextClosure w) (plays w) (playCalls w) (console w).

Definition set_storage (v : gmap string string) (w : World) : World :=
  mkWorld (nodes w) (media w) v (video w) (placeholder w) (isInitialized w) (isVideoLoading w) (cleanupFunctions w) (listeners w) (tasks w) (nextTask w) (transitions w) (nextClosure w) (plays w) (playCalls w) (console w).

Definition set_video (v : option node) (w : World) : World :=
  mkWorld (nodes w) (media w) (storage w) v (placeholder w) (isInitialized w) (isVideoLoading w) (cleanupFunctions w) (listeners w) (tasks w) (nextTask w) (transitions w) (nextClosure w) (plays w) (playCalls w) (console w).

Definition set_placeholder (v : option node) (w : World) : World :=
  mkWorld (nodes w) (media w) (storage w) (video w) v (isInitialized w) (isVideoLoading w) (cleanupFunctions w) (listeners w) (tasks w) (nextTask w) (transitions w) (nextClosure w) (plays w) (playCalls w) (console w).

Definition set_isInitialized (v : bool) (w : World) : World :=
  mkWorld (nodes w) (media w) (storage w) (video w) (placeholder w) v (isVideoLoading w) (cleanupFunctions w) (listeners w) (tasks w) (nextTask w) (transitions w) (nextClosure w) (plays w) (playCalls w) (console w).

Definition set_isVideoLoading (v : bool) (w : World) : World :=
  mkWorld (nodes w) (media w) (storage w) (video w) (placeholder w) (isInitialized w) v (cleanupFunctions w) (listeners w) (tasks w) (nextTask w) (transitions w) (nextClosure w) (plays w) (playCalls w) (console w).

Definition set_cleanupFunctions (v : list Cleanup) (w : World) : World :=
  mkWorld (nodes w) (media w) (storage w) (video w) (placeholder w) (isInitialized w) (isVideoLoading w) v (listeners w) (tasks w) (nextTask w) (transitions w) (nextClosure w) (plays w) (playCalls w) (console w).

Definition set_listeners (v : list Listener) (w : World) : World :=
  mkWorld (nodes w) (media w) (storage w) (video w) (placeholder w) (isInitialized w) (isVideoLoading w) (cleanupFunctions w) v (tasks w) (nextTask w) (transitions w) (nextClosure w) (plays w) (playCalls w) (console w).

Definition set_tasks (v : list Task) (w : World) : World :=
  mkWorld (nodes w) (media w) (storage w) (video w) (placeholder w) (isInitialized w) (isVideoLoading w) (cleanupFunctions w) (listeners w) v (nextTask w) (transitions w) (nextClosure w) (plays w) (playCalls w) (console w).

Definition set_nextTask (v : positive) (w : World) : World :=
  mkWorld (nodes w) (media w) (storage w) (video w) (placeholder w) (isInitialized w) (isVideoLoading w) (cleanupFunctions w) (listeners w) (tasks w) v (transitions w) (nextClosure w) (plays w) (playCalls w) (console w).

Definition set_transitions (v : gmap nat Transition) (w : World) : World :=
  mkWorld (nodes w) (media w) (storage w) (video w) (placeholder w) (isInitialized w) (isVideoLoading w) (cleanupFunctions w) (listeners w) (tasks w) (nextTask w) v (nextClosure w) (plays w) (playCalls w) (console w).

Definition set_nextClosure (v : nat) (w : World) : World :=
  mkWorld (nodes w) (media w) (storage w) (video w) (placeholder w) (isInitialized w) (isVideoLoading w) (cleanupFunctions w) (listeners w) (tasks w) (nextTask w) (transitions w) v (plays w) (playCalls w) (console w).

Definition set_plays (v : list Origin) (w : World) : World :=
  mkWorld (nodes w) (media w) (storage w) (video w) (placeholder w) (isInitialized w) (isVideoLoading w) (cleanupFunctions w) (listeners w) (tasks w) (nextTask w) (transitions w) (nextClosure w) v (playCalls w) (console w).

Definition set_playCalls (v : nat) (w : World) : World :=
  mkWorld (nodes w) (media w) (storage w) (video w) (placeholder w) (isInitialized w) (isVideoLoading w) (cleanupFunctions w) (listeners w) (tasks w) (nextTask w) (transitions w) (nextClosure w) (plays w) v (console w).

Definition set_console (v : list LogEntry) (w : World) : World :=
  mkWorld (nodes w) (media w) (storage w) (video w) (placeholder w) (isInitialized w) (isVideoLoading w) (cleanupFunctions w) (listeners w) (tasks w) (nextTask w) (transitions w) (nextClosure w) (plays w) (playCalls w) v.

(** [new VideoBackgroundManager(config)] *)
Definition new (nodes : gmap node Element) (media : gmap node Media)
    (storage : gmap string string) : World :=
  mkWorld nodes media storage None None false false [] [] [] 1%positive ∅ 0 [] 0 [].

Definition log (l : Level) (msg : string) : M World unit :=
  modify (fun w => set_console (console w ++ [(l, msg)]) w).

Definition onNode (n : node) (f : Element -> Element) : M World unit :=
  modify (fun w => set_nodes (update n f (nodes w)) w).

Definition truthy (s : string) : bool :=
  match s with EmptyString => false | _ => true end.

(** *** The browser *)

(** A callback that is registered for an event of a target is not
    registered a second time. *)
Definition same_registration (a b : Listener) : bool :=
  bool_decide (l_target a = l_target b ∧ l_type a = l_type b ∧ l_handler a = l_handler b).

Definition register (l : Listener) (ls : list Listener) : list Listener :=
  if existsb (same_registration l) ls then ls else ls ++ [l].

Definition unregister (t : EventTarget) (type : string) (h : Handler)
    (ls : list Listener) : list Listener :=
  List.filter (fun l => negb (same_registration (mkListener t type h false) l)) ls.

Arguments register : simpl never.
Arguments unregister : simpl never.

Definition addEventListener (t : EventTarget) (type : string) (h : Handler) (once : bool)
    : M World unit :=
  modify (fun w => set_listeners (register (mkListener t type h once) (listeners w)) w).

Definition removeEventListener (t : EventTarget) (type : string) (h : Handler)
    : M World unit :=
  modify (fun w => set_listeners (unregister t type h (listeners w)) w).

Definition schedule (when : When) (cb : Callback) : M World positive :=
  fun w =>
    let id := nextTask w in
    (Normal id, set_nextTask (Pos.succ id) (set_tasks (tasks w ++ [mkTask id when cb]) w)).

Definition setTimeout (cb : Callback) (ms : Z) : M World positive := schedule (AfterMs ms) cb.

Definition requestAnimationFrame (cb : Callback) : M World positive := schedule NextFrame cb.

Definition clearTimeout (id : positive) : M World unit :=
  modify (fun w =>
    set_tasks (List.filter (fun t => negb (is_timer t && Pos.eqb (k_id t) id)) (tasks w)) w).

Definition fresh : M World nat :=
  fun w => (Normal (nextClosure w), set_nextClosure (S (nextClosure w)) w).

Section Methods.
Variable pg : Page.
Variable cfg : Config.

(** [sessionStorage.getItem(key)]: the name [sessionStorage] is unbound when
    the window has no such property. *)
Definition getItem (key : string) : M World (option string) :=
  if negb (hasSessionStorage pg) then throw "ReferenceError"
  else if getItemThrows pg then throw "SecurityError"
  else gets (fun w => storage w !! key).

Definition setItem (key value : string) : M World unit :=
  if negb (hasSessionStorage pg) then throw "ReferenceError"
  else if setItemThrows pg then throw "QuotaExceededError"
  else modify (fun w => set_storage (<[key := value]> (storage w)) w).

(** [video.play()]: whether a promise came back. *)
Definition play (o : Origin) : M World bool :=
  modify (fun w => set_playCalls (S (playCalls w)) w);;
  if playReturnsPromise pg
  then modify (fun w => set_plays (plays w ++ [o]) w);; ret true
  else ret false.

(** [video.currentTime = time]: the attribute is a restricted [double], a
    value that is not finite is refused with a [TypeError]. *)
Definition setCurrentTime (n : node) (time : float) : M World unit :=
  if is_finite time
  then modify (fun w => set_media (<[n := mkMedia (paused (media w !!! n)) time]> (media w)) w)
  else throw "TypeError".

(** [hidePlaceholderPermanently()] *)
Definition hidePlaceholderPermanently : M World unit :=
  p ← gets placeholder;
  match p with
  | None => ret tt
  | Some p =>
      onNode p (setStyle "opacity" "0");;
      onNode p (setStyle "display" "none");;
      when (hasSessionStorage pg)
        (try_catch (setItem "videoReady" "true")
           (fun _ => log warn "Failed to store video ready state:"))
  end.

(** [ensureVideoPlayback()] up to the promise of [play()]. *)
Definition ensureVideoPlayback : M World unit :=
  v ← gets video;
  match v with
  | None => ret tt
  | Some n =>
      m ← gets (fun w => media w !!! n);
      if negb (paused m) then ret tt
      else play FromEnsure;; ret tt
  end.

(** [startVideoOnInteraction]: [this.video?.play().catch(...)], then the
    three removals. *)
Definition startVideoOnInteraction (c : nat) : M World unit :=
  v ← gets video;
  match v with
  | Some _ =>
      promise ← play FromInteraction;
      if promise then ret tt else throw "TypeError"
  | None => ret tt
  end;;
  removeEventListener TDocument "click" (StartVideoOnInteraction c);;
  removeEventListener TDocument "touchstart" (StartVideoOnInteraction c);;
  removeEventListener TDocument "keydown" (StartVideoOnInteraction c).

(** The [i]-th pending promise of [play()] settles. *)
Definition play_settled (i : nat) (ok : bool) : M World unit :=
  ps ← gets plays;
  match ps !! i with
  | None => ret tt
  | Some o =>
      modify (set_plays (delete i ps));;
      match o with
      | FromEnsure =>
          if ok then log debug "Video background started playing successfully"
          else
            log warn "Video autoplay failed, will retry on user interaction:";;
            c ← fresh;
            addEventListener TDocument "click" (StartVideoOnInteraction c) true;;
            addEventListener TDocument "touchstart" (StartVideoOnInteraction c) true;;
            addEventListener TDocument "keydown" (StartVideoOnInteraction c) true
      | FromInteraction => ret tt
      end
  end.

(** [setupVideoLoading()] *)
Definition setupVideoLoading : M World unit :=
  v ← gets video;
  p ← gets placeholder;
  match v, p with
  | Some v, Some p =>
      flag ← getItem "videoReady";
      if bool_decide (flag = Some "true") then hidePlaceholderPermanently
      else
        onNode p (setStyle "opacity" "1");;
        c ← fresh;
        addEventListener (TNode v) "canplaythrough" (OnCanPlayThrough c) false;;
        addEventListener (TNode v) "loadeddata" (OnLoadedData c) false;;
        addEventListener (TNode v) "canplay" (OnCanPlay c) false;;
        modify (fun w =>
          set_cleanupFunctions
            (cleanupFunctions w ++ [RemoveVideoListener "canplaythrough" (OnCanPlayThrough c);
                                    RemoveVideoListener "loadeddata" (OnLoadedData c);
                                    RemoveVideoListener "canplay" (OnCanPlay c)]) w);;
        fallback ← setTimeout (HidePlaceholder c) (fallbackTimeout cfg);
        modify (fun w =>
          set_cleanupFunctions (cleanupFunctions w ++ [ClearFallbackTimeout fallback]) w);;
        ensureVideoPlayback
  | _, _ => ret tt
  end.

Definition transition (c : nat) (w : World) : Transition := transitions w !!! c.

Definition set_transition (c : nat) (t : Transition) : M World unit :=
  modify (fun w => set_transitions (<[c := t]> (transitions w)) w).

(** [setupViewTransitions()] *)
Definition setupViewTransitions : M World unit :=
  v ← gets video;
  match v with
  | None => ret tt
  | Some _ =>
      c ← fresh;
      set_transition c (mkTransition false None);;
      addEventListener TDocument "astro:before-swap" (BeforeSwapHandler c) false;;
      addEventListener TDocument "astro:after-swap" (AfterSwapHandler c) false;;
      modify (fun w => set_cleanupFunctions (cleanupFunctions w ++ [RemoveSwapListeners c]) w)
  end.

(** [beforeSwapHandler] *)
Definition beforeSwapHandler (c : nat) : M World unit :=
  t ← gets (transition c);
  if transitionInProgress t then ret tt
  else
    set_transition c (mkTransition true (saveTimeoutId t));;
    requestAnimationFrame (BeforeSwapFrame c);;
    ret tt.

(** The animation frame of [beforeSwapHandler]. *)
Definition beforeSwapFrame (c : nat) : M World unit :=
  v ← gets video;
  if bool_decide (is_Some v) && hasSessionStorage pg then
    try_catch
      (t ← gets (transition c);
       match saveTimeoutId t with
       | Some id => clearTimeout id
       | None => ret tt
       end;;
       id ← setTimeout (SaveVideoTime c) 16;
       t ← gets (transition c);
       set_transition c (mkTransition (transitionInProgress t) (Some id)))
      (fun _ => log warn "Failed to store video time:")
  else ret tt.

(** The timer of that frame. *)
Definition saveVideoTime : M World unit :=
  v ← gets video;
  match v with
  | Some n =>
      m ← gets (fun w => media w !!! n);
      setItem "videoTime" (numberToString pg (currentTime m))
  | None => ret tt
  end.

(** [wasVideoReady()] *)
Definition wasVideoReady : M World bool :=
  if negb (hasSessionStorage pg) then ret false
  else
    try_catch
      (flag ← getItem "videoReady";
       ret (bool_decide (flag = Some "true")))
      (fun _ => ret false).

(** [restoreVideoState()] *)
Definition restoreVideoState : M World unit :=
  v ← gets video;
  match v with
  | None => ret tt
  | Some n =>
      try_catch
        (wasReady ← wasVideoReady;
         p ← gets placeholder;
         match p with
         | Some p =>
             if wasReady then
               onNode p (setStyle "display" "none");;
               onNode p (setStyle "opacity" "0")
             else ret tt
         | None => ret tt
         end;;
         when (hasSessionStorage pg)
           (storedTime ← getItem "videoTime";
            match storedTime with
            | Some s =>
                if truthy s then
                  let time := parseFloat pg s in
                  m ← gets (fun w => media w !!! n);
                  if negb (is_nan time)
                     && ltb 0x1.999999999999ap-4 (abs (sub (currentTime m) time))   (* 0.1 *)
                  then setCurrentTime n time
                  else ret tt
                else ret tt
            | None => ret tt
            end);;
         m ← gets (fun w => media w !!! n);
         if paused m then ensureVideoPlayback else ret tt)
        (fun _ => log warn "Failed to restore video state:")
  end.

(** [afterSwapHandler] *)
Definition afterSwapHandler (c : nat) : M World unit :=
  v ← gets video;
  match v with
  | None =>
      t ← gets (transition c);
      set_transition c (mkTransition false (saveTimeoutId t))
  | Some _ => requestAnimationFrame (AfterSwapFrame c);; ret tt
  end.

(** The animation frame of [afterSwapHandler]. *)
Definition afterSwapFrame (c : nat) : M World unit :=
  v ← gets video;
  match v with
  | None =>
      t ← gets (transition c);
      set_transition c (mkTransition false (saveTimeoutId t))
  | Some _ =>
      try_finally
        (try_catch restoreVideoState
           (fun _ => log warn "Failed to restore video state:"))
        (requestAnimationFrame (EndTransition c);; ret tt)
  end.

Definition endTransition (c : nat) : M World unit :=
  t ← gets (transition c);
  set_transition c (mkTransition false (saveTimeoutId t)).

(** [initializeVideoBackground()] *)
Definition initializeVideoBackground : M World unit :=
  done ← gets isInitialized;
  if done then ret tt
  else
    try_catch
      (modify (set_video (getElementById pg (videoId cfg)));;
       modify (set_placeholder (getElementById pg (placeholderId cfg)));;
       v ← gets video;
       p ← gets placeholder;
       if bool_decide (is_Some v) && bool_decide (is_Some p) then
         setupVideoLoading;;
         setupViewTransitions;;
         modify (set_isInitialized true)
       else log warn "VideoBackgroundManager: Required elements not found")
      (fun _ => log error "VideoBackgroundManager initialization failed:").

(** [init()] *)
Definition init : M World unit :=
  done ← gets isInitialized;
  if done then ret tt
  else
    (if hasRequestIdleCallback pg
     then schedule (WhenIdle 1000) InitializeVideoBackground
     else schedule (AfterMs 500) InitializeVideoBackground);;
    ret tt.

(** One entry of [cleanupFunctions]. *)
Definition run_cleanup (f : Cleanup) : M World unit :=
  match f with
  | RemoveVideoListener type h =>
      v ← gets video;
      match v with
      | Some n => removeEventListener (TNode n) type h
      | None => ret tt
      end
  | ClearFallbackTimeout id => clearTimeout id
  | RemoveSwapListeners c =>
      removeEventListener TDocument "astro:before-swap" (BeforeSwapHandler c);;
      removeEventListener TDocument "astro:after-swap" (AfterSwapHandler c);;
      t ← gets (transition c);
      match saveTimeoutId t with
      | Some id => clearTimeout id
      | None => ret tt
      end
  end.

(** [destroy()] *)
Definition destroy : M World unit :=
  fs ← gets cleanupFunctions;
  forEach fs run_cleanup;;
  modify (set_cleanupFunctions []);;
  modify (set_isInitialized false);;
  modify (set_video None);;
  modify (set_placeholder None).

(** [getVideo()], [getPlaceholder()], [isReady()] *)
Definition getVideo (w : World) : option node := video w.

Definition getPlaceholder (w : World) : option node := placeholder w.

Definition isReady (w : World) : bool :=
  isInitialized w && bool_decide (is_Some (video w)) && bool_decide (is_Some (placeholder w)).

(** [getVideoState()] *)
Record VideoState : Type := mkVideoState {
  videoExists : bool;
  videoPlaying : bool;
  placeholderVisible : bool;
  videoTime : float;
  wasReady : bool
}.

Definition getVideoState : M World VideoState :=
  v ← gets video;
  p ← gets placeholder;
  ns ← gets nodes;
  ms ← gets media;
  ready ← wasVideoReady;
  ret (mkVideoState
         (bool_decide (is_Some v))
         (match v with Some n => negb (paused (ms !!! n)) | None => false end)
         (match p with
          | Some p =>
              let st := style (ns !!! p) in
              negb (bool_decide (st !! "display" = Some "none"))
              && ltb 0 (parseFloat pg (let o := default "" (st !! "opacity") in
                                       if truthy o then o else "0"))
          | None => false
          end)
         (match v with Some n => currentTime (ms !!! n) | None => 0%float end)
         ready).

(** The bodies of the callbacks the browser holds. *)
Definition run_callback (cb : Callback) : M World unit :=
  match cb with
  | InitializeVideoBackground => initializeVideoBackground
  | HidePlaceholder _ => hidePlaceholderPermanently
  | BeforeSwapFrame c => beforeSwapFrame c
  | SaveVideoTime _ => saveVideoTime
  | AfterSwapFrame c => afterSwapFrame c
  | EndTransition c => endTransition c
  end.

(** The browser runs the callback with id [id]: a timer comes due, the
    browser is idle, a frame is drawn. *)
Definition run_task (id : positive) : M World unit :=
  ts ← gets tasks;
  match List.find (fun t => Pos.eqb (k_id t) id) ts with
  | Some t =>
      modify (set_tasks (List.filter (fun t => negb (Pos.eqb (k_id t) id)) ts));;
      run_callback (k_callback t)
  | None => ret tt
  end.

Definition run_handler (h : Handler) : M World unit :=
  match h with
  | OnCanPlayThrough _ | OnLoadedData _ | OnCanPlay _ => hidePlaceholderPermanently
  | StartVideoOnInteraction c => startVideoOnInteraction c
  | BeforeSwapHandler c => beforeSwapHandler c
  | AfterSwapHandler c => afterSwapHandler c
  end.

(** An event of type [type] on [t]: the listeners registered for it when
    the event is dispatched run in the order of their registration, unless
    an earlier one has removed them; one registered with [once] is removed
    before it runs.  What a listener throws is reported by the browser and
    stops nothing else. *)
Definition listens (t : EventTarget) (type : string) (l : Listener) : bool :=
  bool_decide (l_target l = t ∧ l_type l = type).

Definition dispatchEvent (t : EventTarget) (type : string) : M World unit :=
  ls ← gets listeners;
  forEach (List.filter (listens t type) ls) (fun l =>
    present ← gets (fun w => bool_decide (l ∈ listeners w));
    if present then
      when (l_once l)
        (modify (fun w =>
           set_listeners (List.filter (fun l' => negb (bool_decide (l' = l))) (listeners w)) w));;
      try_catch (run_handler (l_handler l)) (fun _ => log error "Uncaught")
    else ret tt).

(** The playback state of a media element changes: time passes, playback
    starts or stops. *)
Definition mediaChanged (n : node) (m : Media) : M World unit :=
  modify (fun w => set_media (<[n := m]> (media w)) w).

End Methods.

(** [initVideoBackground(config)] on a new manager. *)
Definition initVideoBackground (pg : Page) : M World unit := init pg.

(** A page with the video (node 1) and its placeholder (node 2), in a
    browser that has all the manager asks for.  The numbers it reads and
    writes are whole seconds. *)
Definition sample_parseFloat (s : string) : float :=
  if bool_decide (s = "0") then 0%float
  else if bool_decide (s = "1") then 1%float
  else if bool_decide (s = "12") then 12%float
  else if bool_decide (s = "Infinity") then infinity
  else nan.

Definition sample_numberToString (x : float) : string :=
  if PrimFloat.eqb x 0 then "0"
  else if PrimFloat.eqb x 1 then "1"
  else if PrimFloat.eqb x 12 then "12"
  else "NaN".

Definition sample_page : Page :=
  mkPage (fun id => if bool_decide (id = "bgvid") then Some 1%positive
                    else if bool_decide (id = "video-placeholder") then Some 2%positive
                    else None)
         true false false true true sample_parseFloat sample_numberToString.

(** The same page in a browser that refuses the access to the storage. *)
Definition sample_page_no_storage : Page :=
  mkPage (getElementById sample_page) true true true true true
         sample_parseFloat sample_numberToString.

Definition sample_config : Config :=
  constructor_config (mkInput None None None None None).

(** A new manager on the first visit, and on a later page of the same tab. *)
Definition sample_first_visit : World := new ∅ ∅ ∅.

Definition sample_later_visit : World :=
  new ∅ {[ 1%positive := mkMedia false 1%float ]}
      {[ "videoReady" := "true"; "videoTime" := "12" ]}.

End VideoBackgroundManager.

(** * Properties *)

(** ** The monad *)

Module JsFacts.
Import Js.

Lemma bind_apply {W A B : Type} (m : M W A) (k : A → M W B) (w : W) :
  bind m k w = match m w with
               | (Normal a, w') => k a w'
               | (Throw e, w') => (Throw e, w')
               end.
Proof. reflexivity. Qed.

Lemma bind_normal {W A B : Type} (m : M W A) (k : A → M W B) (w w' : W) (a : A) :
  m w = (Normal a, w') → bind m k w = k a w'.
Proof. intros H. by rewrite bind_apply, H. Qed.

Lemma bind_gets {W A B : Type} (f : W → A) (k : A → M W B) (w : W) :
  bind (gets f) k w = k (f w) w.
Proof. reflexivity. Qed.

Lemma bind_modify {W B : Type} (f : W → W) (k : unit → M W B) (w : W) :
  bind (modify f) k w = k tt (f w).
Proof. reflexivity. Qed.

Lemma bind_ret {W A B : Type} (a : A) (k : A → M W B) (w : W) :
  bind (ret a) k w = k a w.
Proof. reflexivity. Qed.

Lemma bind_assoc {W A B C : Type} (m : M W A) (k1 : A → M W B) (k2 : B → M W C) (w : W) :
  bind (bind m k1) k2 w = bind m (fun a => bind (k1 a) k2) w.
Proof. rewrite !bind_apply. destruct (m w) as [[a|e] w']; [by rewrite bind_apply|done]. Qed.

(** *** Invariants through the combinators

    [preserves P m]: whatever [m] does, and also when it throws, a world in
    [P] is left in [P]. *)
Definition preserves {W A : Type} (P : W → Prop) (m : M W A) : Prop :=
  ∀ w, P w → P (snd (m w)).

Section Preserves.
Context {W : Type} (P : W → Prop).

Lemma preserves_ret {A : Type} (a : A) : preserves P (ret a).
Proof. by intros w. Qed.

Lemma preserves_throw {A : Type} (e : string) : preserves P (@throw W A e).
Proof. by intros w. Qed.

Lemma preserves_gets {A : Type} (f : W → A) : preserves P (gets f).
Proof. by intros w. Qed.

Lemma preserves_query {A : Type} (c : completion A) : preserves P (fun w : W => (c, w)).
Proof. by intros w. Qed.

Lemma preserves_modify (f : W → W) : (∀ w, P w → P (f w)) → preserves P (modify f).
Proof. intros Hf w Hw. by apply Hf. Qed.

Lemma preserves_bind {A B : Type} (m : M W A) (k : A → M W B) :
  preserves P m → (∀ a, preserves P (k a)) → preserves P (bind m k).
Proof.
  intros Hm Hk w Hw. rewrite bind_apply. specialize (Hm w Hw).
  destruct (m w) as [[a|e] w1]; cbn in *; [by apply Hk|done].
Qed.

Lemma preserves_try_catch {A : Type} (m : M W A) (h : string → M W A) :
  preserves P m → (∀ e, preserves P (h e)) → preserves P (try_catch m h).
Proof.
  intros Hm Hh w Hw. unfold try_catch. specialize (Hm w Hw).
  destruct (m w) as [[a|e] w1]; cbn in *; [done|by apply Hh].
Qed.

Lemma preserves_when (b : bool) (m : M W unit) : preserves P m → preserves P (when b m).
Proof. intros Hm. destruct b; [done|apply preserves_ret]. Qed.

Lemma preserves_forEach {A : Type} (l : list A) (f : A → M W unit) :
  (∀ a, preserves P (f a)) → preserves P (forEach l f).
Proof.
  intros Hf. induction l as [|a l IH]; cbn [forEach]; [apply preserves_ret|].
  apply preserves_bind; [apply Hf|by intros _].
Qed.

Lemma preserves_if {A : Type} (b : bool) (m1 m2 : M W A) :
  preserves P m1 → preserves P m2 → preserves P (if b then m1 else m2).
Proof. by destruct b. Qed.

End Preserves.

(** Takes [preserves P m] apart along the combinators of [m]; [leaf] is
    tried on what is left. *)
Ltac pres_by leaf :=
  repeat match goal with
  | |- ∀ _, preserves _ _ => intros ?
  | |- preserves _ (ret _) => apply preserves_ret
  | |- preserves _ (throw _) => apply preserves_throw
  | |- preserves _ (gets _) => apply preserves_gets
  | |- preserves _ (fun w => (_, w)) => apply preserves_query
  | |- preserves _ (bind _ _) => apply preserves_bind
  | |- preserves _ (try_catch _ _) => apply preserves_try_catch
  | |- preserves _ (when _ _) => apply preserves_when
  | |- preserves _ (forEach _ _) => apply preserves_forEach
  | |- preserves _ (if _ then _ else _) => apply preserves_if
  | |- preserves _ (match ?x with _ => _ end) => destruct x
  | |- preserves _ _ => leaf
  end.

Lemma try_catch_log_normal {W : Type} (m : M W unit) (h : string → M W unit) (w : W) :
  (∀ e w', fst (h e w') = Normal tt) → fst (try_catch m h w) = Normal tt.
Proof.
  intros Hh. unfold try_catch. destruct (m w) as [[[]|e] w']; [done|apply Hh].
Qed.

End JsFacts.

(** ** Mobile navigation *)

Module MobileNavigationFacts.
Import Js Dom MobileNavigation.

Lemma px_eq (n : Z) : px n = pretty n +:+ "px".
Proof. reflexivity. Qed.

#[local] Opaque px.

Lemma lookup_update (n k : node) (f : Element -> Element) (ns : gmap node Element) :
  update n f ns !!! k = if decide (n = k) then f (ns !!! n) else ns !!! k.
Proof.
  unfold update. case_decide as Hnk.
  - subst. by rewrite lookup_total_insert_eq.
  - by rewrite lookup_total_insert_ne.
Qed.

Ltac js_step :=
  unfold exec, try_catch, bind, gets, modify, ret, when, log, onNode, element,
    setTimeout, clearTimeout; cbn [fst snd].

(** One read of an element after a chain of writes. *)
Ltac solve_read :=
  cbn;
  first
    [ done
    | by simplify_map_eq
    | unfold classList_contains, classList_add, classList_remove; cbn;
      first [ apply bool_decide_eq_false | apply bool_decide_eq_true
            | apply (f_equal Some); first [ apply bool_decide_eq_false | apply bool_decide_eq_true ] ];
      set_solver ].

(** The hamburger, the menu and the body may be the same element: split on
    which of [h], [m], [b] coincide and resolve every [decide]. *)
Ltac split_aliases h m b :=
  destruct (decide (h = m)); destruct (decide (m = b)); destruct (decide (h = b));
  subst; try congruence;
  repeat (first [rewrite decide_True by congruence | rewrite decide_False by congruence]).

Section Handlers.
Variable pg : Page.
Variable cfg : Config.

(** A click inside the debounce window, or during an animation, changes
    nothing but (in the second case) [lastClickTime]. *)
Lemma handleHamburgerClick_blocked (e : Event) (w : World) :
  clock w - lastClickTime w < debounceDelay cfg ∨ isAnimating w = true →
  exec (handleHamburgerClick pg cfg e) w = w
  ∨ exec (handleHamburgerClick pg cfg e) w = set_lastClickTime (clock w) w.
Proof.
  intros Hblock. unfold handleHamburgerClick. js_step.
  case_bool_decide as Hd; cbn; [by left|].
  destruct Hblock as [Hlt|Hbusy]; [lia|].
  right. by rewrite Hbusy.
Qed.

Lemma handleHamburgerClick_blocked_view (e : Event) (w : World) :
  clock w - lastClickTime w < debounceDelay cfg ∨ isAnimating w = true →
  view pg (exec (handleHamburgerClick pg cfg e) w) = view pg w.
Proof.
  intros Hblock.
  destruct (handleHamburgerClick_blocked e w Hblock) as [-> | ->]; reflexivity.
Qed.

Definition closed (w : World) : Prop :=
  view pg w = mkView (Some false) (Some "false") (Some "0") (Some "").

Lemma toggleMenu_closes (w : World) (h m : node) :
  hamburger w = Some h → menu w = Some m → isAnimating w = false →
  hasClass h "is-active" w = true →
  closed (exec (toggleMenu pg cfg) w).
Proof.
  intros Hh Hm Hbusy Hact. unfold closed, toggleMenu. js_step.
  rewrite Hh, Hm, Hbusy. cbn. unfold hasClass in Hact. rewrite Hact. cbn.
  unfold view, hasClass, getAttribute, getStyle. cbn. rewrite Hh, Hm. cbn.
  rewrite !lookup_update.
  split_aliases h m (body pg).
  all: unfold classList_toggle; rewrite ?Hact; cbn.
  all: f_equal; solve_read.
Qed.

(** [toggleMenu] catches whatever its body throws. *)
Lemma toggleMenu_normal (w : World) : fst (toggleMenu pg cfg w) = Normal tt.
Proof.
  unfold toggleMenu. js_step.
  destruct (hamburger w), (menu w), (isAnimating w); cbn; try done.
  repeat (match goal with |- context [negb ?b] => destruct b end; cbn); done.
Qed.

Lemma toggleMenu_blocked (w : World) :
  hamburger w = None ∨ menu w = None ∨ isAnimating w = true →
  exec (toggleMenu pg cfg) w = set_console (console w ++ [(debug, "Toggle blocked:")]) w.
Proof.
  unfold toggleMenu. js_step.
  intros [H|[H|H]]; rewrite H; destruct (hamburger w), (menu w); try done;
    by destruct (isAnimating w).
Qed.

Lemma handleEscapeKey_toggles (e : Event) (w : World) (h : node) :
  hamburger w = Some h → hasClass h "is-active" w = true → key e = "Escape" →
  exec (handleEscapeKey pg cfg e) w = exec (toggleMenu pg cfg) w.
Proof.
  intros Hh Hact Hkey. unfold handleEscapeKey, hasClass in *.
  unfold exec, try_catch at 1. unfold bind at 1, gets at 1. rewrite Hh.
  unfold bind at 1, gets at 1. rewrite Hact, Hkey. cbn [andb bool_decide].
  rewrite bool_decide_eq_true_2 by done. cbn.
  pose proof (toggleMenu_normal w) as Hn.
  destruct (toggleMenu pg cfg w) as [[[]|] w']; cbn in *; congruence.
Qed.

Lemma handleOutsideClick_toggles (e : Event) (w : World) (h m : node) :
  hamburger w = Some h → menu w = Some m → hasClass h "is-active" w = true →
  contains pg m (target e) = false → contains pg h (target e) = false →
  exec (handleOutsideClick pg cfg e) w = exec (toggleMenu pg cfg) w.
Proof.
  intros Hh Hm Hact Hcm Hch. unfold handleOutsideClick, hasClass in *.
  unfold exec, try_catch at 1. unfold bind at 1, gets at 1. rewrite Hh.
  unfold bind at 1, gets at 1. rewrite Hm.
  unfold bind at 1, gets at 1. rewrite Hact, Hcm, Hch. cbn.
  pose proof (toggleMenu_normal w) as Hn.
  destruct (toggleMenu pg cfg w) as [[[]|] w']; cbn in *; congruence.
Qed.

(** Pressing a key or clicking the document never changes the menu while
    the busy flag is set. *)
Lemma handleEscapeKey_busy (e : Event) (w : World) :
  isAnimating w = true → view pg (exec (handleEscapeKey pg cfg e) w) = view pg w.
Proof.
  intros Hbusy. unfold handleEscapeKey.
  unfold exec, try_catch at 1. unfold bind at 1, gets at 1.
  destruct (hamburger w) as [h|] eqn:Hh; [|done].
  unfold bind at 1, gets at 1.
  destruct (bool_decide (key e = "Escape") && _); [|done].
  pose proof (toggleMenu_normal w) as Hn.
  pose proof (toggleMenu_blocked w (or_intror (or_intror Hbusy))) as Hb.
  unfold exec in Hb.
  destruct (toggleMenu pg cfg w) as [[[]|] w']; cbn in *; [|congruence].
  subst w'. unfold view. cbn. by rewrite Hh.
Qed.

Lemma handleOutsideClick_busy (e : Event) (w : World) :
  isAnimating w = true → view pg (exec (handleOutsideClick pg cfg e) w) = view pg w.
Proof.
  intros Hbusy. unfold handleOutsideClick.
  unfold exec, try_catch at 1. unfold bind at 1, gets at 1.
  destruct (hamburger w) as [h|] eqn:Hh; unfold bind at 1, gets at 1;
    destruct (menu w) as [m|] eqn:Hm; try done.
  unfold bind at 1, gets at 1.
  destruct (_ && _); [|done].
  pose proof (toggleMenu_normal w) as Hn.
  pose proof (toggleMenu_blocked w (or_intror (or_intror Hbusy))) as Hb.
  unfold exec in Hb.
  destruct (toggleMenu pg cfg w) as [[[]|] w']; cbn in *; [|congruence].
  subst w'. unfold view. cbn. by rewrite Hh.
Qed.

(** A link activation closes the open menu, busy or not. *)
Lemma handleNavLinkClick_closes (e : Event) (w : World) (h m : node) :
  hamburger w = Some h → menu w = Some m → hasClass h "is-active" w = true →
  closed (exec (handleNavLinkClick pg e) w).
Proof.
  intros Hh Hm Hact. unfold closed, handleNavLinkClick, startNavigationClose. js_step.
  rewrite Hh. cbn. unfold hasClass in Hact. rewrite Hact. cbn. rewrite Hm, Hh. cbn.
  unfold view, hasClass, getAttribute, getStyle. cbn. rewrite Hh, Hm. cbn.
  rewrite !lookup_update.
  split_aliases h m (body pg).
  all: f_equal; solve_read.
Qed.

(** The inline height of the menu after an opening: the new one, unless
    the viewport is lower than the header and the browser has discarded the
    negative length. *)
Definition opened_height (w : World) (m : node) : option string :=
  if (innerHeight w - 80 <? 0)%Z then getStyle m "height" w
  else Some (px (innerHeight w - 80)).

(** Opening: the state [toggleMenu] leaves when the menu was closed. *)
Lemma toggleMenu_opens (w : World) (h m : node) :
  hamburger w = Some h → menu w = Some m → isAnimating w = false →
  hasClass h "is-active" w = false →
  let w' := exec (toggleMenu pg cfg) w in
  view pg w' = mkView (Some true) (Some "true") (opened_height w m) (Some "hidden")
  ∧ hasClass m "menu-open" w' = true
  ∧ isAnimating w' = true
  ∧ timers w' = (timers w ++ [mkTimer (nextTimer w)
                                (Z.max (animationDuration cfg) (opacityDuration cfg))
                                ResetAnimating])%list
  ∧ cleanupTimeout w' = Some (nextTimer w).
Proof.
  intros Hh Hm Hbusy Hact. unfold toggleMenu, opened_height, setHeightPx. js_step.
  rewrite Hh, Hm, Hbusy. cbn. unfold hasClass in Hact. rewrite Hact. cbn.
  destruct (innerHeight w - 80 <? 0)%Z eqn:Hneg.
  all: match goal with |- context [negb ?b] => destruct b eqn:Hadded end; cbn.
  all: unfold view, hasClass, getAttribute, getStyle; cbn; rewrite Hh, Hm; cbn.
  all: rewrite !lookup_update.
  all: split_aliases h m (body pg).
  all: unfold classList_toggle; rewrite ?Hact; cbn.
  all: split_and!; try done; try (f_equal; solve_read); solve_read.
Qed.

(** [forceOpenMenu] leaves the same height. *)
Lemma forceOpenMenu_height (w : World) (h m : node) :
  hamburger w = Some h → menu w = Some m →
  getStyle m "height" (exec (forceOpenMenu pg) w) = opened_height w m.
Proof.
  destruct w as [ns ls ts nt con clk ih hb mn nl pt ia lc ct pm].
  cbn [hamburger menu innerHeight]. intros -> ->.
  unfold forceOpenMenu, getStyle, opened_height, setHeightPx. cbn [innerHeight].
  destruct (ih - 80 <? 0)%Z eqn:Hneg; destruct ct; cbn; rewrite ?Hneg; cbn.
  all: rewrite !lookup_update.
  all: split_aliases h m (body pg).
  all: solve_read.
Qed.

(** C3. A hamburger click that arrives fewer than [debounceDelay]
    milliseconds after the last accepted click, or while [isAnimating] is
    set, toggles nothing: the hamburger's 'is-active' class and
    [aria-expanded], the menu's inline height and the body's overflow are as
    before; so are all elements, the pending timers and the busy flag. *)
Theorem hamburger_click_debounced_or_busy_is_inert (e : Event) (w : World) :
  clock w - lastClickTime w < debounceDelay cfg ∨ isAnimating w = true →
  let w' := exec (handleHamburgerClick pg cfg e) w in
  view pg w' = view pg w ∧ nodes w' = nodes w ∧ timers w' = timers w
  ∧ isAnimating w' = isAnimating w.
Proof.
  intros Hblock w'. subst w'.
  destruct (handleHamburgerClick_blocked e w Hblock) as [-> | ->]; done.
Qed.

(** C4, as amended.  With the menu open (the hamburger has 'is-active'):
    a navigation-link activation always closes it; an Escape keydown and a
    document click outside the menu and the hamburger close it when no
    animation is in progress ([isAnimating] false); while [isAnimating] is
    set, these two events leave the menu as it is.  Closing removes
    'is-active', sets [aria-expanded] to 'false', the menu's inline height to
    '0' and the body's overflow to ''. *)
Theorem open_menu_closes_unless_busy (e : Event) (w : World) (h m : node) :
  hamburger w = Some h → menu w = Some m → hasClass h "is-active" w = true →
  closed (exec (handleNavLinkClick pg e) w)
  ∧ (isAnimating w = false →
       (key e = "Escape" → closed (exec (handleEscapeKey pg cfg e) w))
       ∧ (contains pg m (target e) = false → contains pg h (target e) = false →
            closed (exec (handleOutsideClick pg cfg e) w)))
  ∧ (isAnimating w = true →
       view pg (exec (handleEscapeKey pg cfg e) w) = view pg w
       ∧ view pg (exec (handleOutsideClick pg cfg e) w) = view pg w).
Proof.
  intros Hh Hm Hact. split_and!.
  - by eapply handleNavLinkClick_closes.
  - intros Hidle. split.
    + intros Hkey. rewrite (handleEscapeKey_toggles e w h) by done.
      by eapply toggleMenu_closes.
    + intros Hcm Hch. rewrite (handleOutsideClick_toggles e w h m) by done.
      by eapply toggleMenu_closes.
  - intros Hbusy. split.
    + by apply handleEscapeKey_busy.
    + by apply handleOutsideClick_busy.
Qed.

(** C5, as amended.  When [toggleMenu] opens the menu in a viewport at
    least 80 pixels high, the menu's inline height is the decimal numeral of
    [window.innerHeight - 80] followed by 'px'; in a lower viewport the
    length it assigns is negative, the browser discards it, and the inline
    height stays as it was.  In both cases 'menu-open' is added and the
    body's overflow is 'hidden', and [forceOpenMenu] leaves the same height. *)
Theorem toggleMenu_open_sets_viewport_height (w : World) (h m : node) :
  hamburger w = Some h → menu w = Some m → isAnimating w = false →
  hasClass h "is-active" w = false →
  let w' := exec (toggleMenu pg cfg) w in
  ((80 ≤ innerHeight w)%Z →
   getStyle m "height" w' = Some (pretty (innerHeight w - 80) +:+ "px"))
  ∧ (innerHeight w < 80 → getStyle m "height" w' = getStyle m "height" w)
  ∧ hasClass m "menu-open" w' = true
  ∧ getStyle (body pg) "overflow" w' = Some "hidden"
  ∧ getStyle m "height" (exec (forceOpenMenu pg) w) = getStyle m "height" w'.
Proof.
  intros Hh Hm Hbusy Hact w'.
  destruct (toggleMenu_opens w h m Hh Hm Hbusy Hact) as (Hview & Hopen & _).
  fold w' in Hview, Hopen.
  assert (Hheight : getStyle m "height" w' = opened_height w m).
  { apply (f_equal v_height) in Hview. unfold view in Hview. cbn in Hview.
    replace (menu w') with (Some m) in Hview; [done|].
    subst w'. unfold toggleMenu. js_step. rewrite Hh, Hm, Hbusy. cbn.
    by repeat (match goal with |- context [negb ?b] => destruct b end; cbn). }
  split_and!.
  - intros Hhigh. rewrite Hheight. unfold opened_height.
    replace (innerHeight w - 80 <? 0)%Z with false by (symmetry; apply Z.ltb_ge; lia).
    by rewrite px_eq.
  - intros Hlow. rewrite Hheight. unfold opened_height.
    by replace (innerHeight w - 80 <? 0)%Z with true by (symmetry; apply Z.ltb_lt; lia).
  - done.
  - by apply (f_equal v_overflow) in Hview.
  - by rewrite Hheight, (forceOpenMenu_height w h m).
Qed.

End Handlers.

(** The defaults named in the claims. *)
Lemma default_durations :
  debounceDelay sample_config = 300 ∧ animationDuration sample_config = 500
  ∧ opacityDuration sample_config = 300.
Proof. done. Qed.

Definition escape : Event := mkEvent 3%positive 3%positive "Escape".
Definition click_on (n : node) : Event := mkEvent n n "".

Lemma hamburger_click_debounced_or_busy_is_inert_witness :
  isAnimating sample_opening = true
  ∧ view sample_page
      (exec (handleHamburgerClick sample_page sample_config (click_on 1%positive))
         sample_opening)
    = view sample_page sample_opening.
Proof.
  split; [vm_compute; reflexivity|].
  apply (hamburger_click_debounced_or_busy_is_inert sample_page sample_config
           (click_on 1%positive) sample_opening).
  right. vm_compute. reflexivity.
Defined.

(** C4 as stated fails: the menu has just been opened, so it is open and the
    busy flag is still set; an Escape keydown and a click on the body, which
    lies outside the menu and the hamburger, both leave it open. *)
Lemma escape_during_animation_leaves_menu_open :
  hasClass 1%positive "is-active" sample_opening = true
  ∧ key escape = "Escape"
  ∧ contains sample_page 2%positive (target (click_on 3%positive)) = false
  ∧ contains sample_page 1%positive (target (click_on 3%positive)) = false
  ∧ view sample_page (exec (handleEscapeKey sample_page sample_config escape) sample_opening)
    = mkView (Some true) (Some "true") (Some "688px") (Some "hidden")
  ∧ view sample_page
      (exec (handleOutsideClick sample_page sample_config (click_on 3%positive)) sample_opening)
    = mkView (Some true) (Some "true") (Some "688px") (Some "hidden").
Proof. vm_compute. repeat split. Qed.

Lemma open_menu_closes_unless_busy_witness :
  closed sample_page (exec (handleNavLinkClick sample_page (click_on 4%positive)) sample_open)
  ∧ closed sample_page (exec (handleEscapeKey sample_page sample_config escape) sample_open)
  ∧ closed sample_page
      (exec (handleOutsideClick sample_page sample_config (click_on 3%positive)) sample_open).
Proof.
  destruct (open_menu_closes_unless_busy sample_page sample_config (click_on 4%positive)
              sample_open 1%positive 2%positive) as (Hlink & _ & _);
    [vm_compute; reflexivity ..|].
  destruct (open_menu_closes_unless_busy sample_page sample_config escape sample_open
              1%positive 2%positive) as (_ & Hidle & _);
    [vm_compute; reflexivity ..|].
  destruct Hidle as [Hesc _]; [vm_compute; reflexivity|].
  destruct (open_menu_closes_unless_busy sample_page sample_config (click_on 3%positive)
              sample_open 1%positive 2%positive) as (_ & Hidle & _);
    [vm_compute; reflexivity ..|].
  destruct Hidle as [_ Hout]; [vm_compute; reflexivity|].
  split_and!.
  - exact Hlink.
  - apply Hesc. vm_compute. reflexivity.
  - apply Hout; vm_compute; reflexivity.
Defined.

Lemma toggleMenu_open_sets_viewport_height_witness :
  getStyle 2%positive "height" (exec (toggleMenu sample_page sample_config) sample_ready)
  = Some "688px"
  ∧ getStyle 2%positive "height" (exec (forceOpenMenu sample_page) sample_ready)
    = Some "688px".
Proof.
  destruct (toggleMenu_open_sets_viewport_height sample_page sample_config sample_ready
              1%positive 2%positive) as (H & _ & _ & _ & Hforce);
    [vm_compute; reflexivity ..|].
  assert (Hhigh : (80 ≤ innerHeight sample_ready)%Z) by (vm_compute; discriminate).
  specialize (H Hhigh). rewrite Hforce. split; (etransitivity; [exact H|]);
    vm_compute; reflexivity.
Defined.

(** C5 as stated fails in a viewport lower than the header: the controller
    is idle and the menu closed; [toggleMenu] opens the menu, and the inline
    height, which should be '-30px', is still unset. *)
Lemma toggleMenu_in_a_short_viewport_keeps_the_height :
  hamburger sample_short = Some 1%positive ∧ menu sample_short = Some 2%positive
  ∧ isAnimating sample_short = false
  ∧ hasClass 1%positive "is-active" sample_short = false
  ∧ innerHeight sample_short - 80 = -30
  ∧ px (innerHeight sample_short - 80) = "-30px"
  ∧ let w' := exec (toggleMenu sample_page sample_config) sample_short in
    hasClass 1%positive "is-active" w' = true
    ∧ hasClass 2%positive "menu-open" w' = true
    ∧ getStyle 2%positive "height" w' = None
    ∧ getStyle 2%positive "height" (exec (forceOpenMenu sample_page) sample_short) = None.
Proof. vm_compute. repeat split. Qed.

(** C6, the failing run.  [toggleMenu] set the busy flag and scheduled its
    reset (timer 1, 500 ms).  [cleanup], run here by a second [init] before
    the timer is due, clears that timer and leaves the flag set: no reset is
    pending, and from then on no hamburger click, Escape keydown or outside
    click toggles the menu, whenever it arrives. *)
Theorem reinit_during_animation_strands_busy_flag :
  isAnimating sample_opening = true
  ∧ timers sample_opening = [mkTimer 1%positive 500 ResetAnimating]
  ∧ isAnimating sample_reinit = true
  ∧ timers sample_reinit = []
  ∧ isAnimating (exec (cleanup sample_page) sample_opening) = true
  ∧ timers (exec (cleanup sample_page) sample_opening) = []
  ∧ ∀ (now : Z) (e : Event),
      let w := set_clock now sample_reinit in
      view sample_page (exec (handleHamburgerClick sample_page sample_config e) w)
      = view sample_page w
      ∧ view sample_page (exec (handleEscapeKey sample_page sample_config e) w)
        = view sample_page w
      ∧ view sample_page (exec (handleOutsideClick sample_page sample_config e) w)
        = view sample_page w.
Proof.
  do 6 (split; [vm_compute; reflexivity|]).
  intros now e w.
  assert (Hbusy : isAnimating w = true) by (vm_compute; reflexivity).
  clearbody w. split_and!.
  - apply handleHamburgerClick_blocked_view. right. exact Hbusy.
  - apply handleEscapeKey_busy. exact Hbusy.
  - apply handleOutsideClick_busy. exact Hbusy.
Qed.


End MobileNavigationFacts.

(** ** Mobile navigation: the remaining methods *)

Module MobileNavigationMore.
Import Js Dom JsFacts MobileNavigation MobileNavigationFacts.

#[local] Opaque px.

(** *** [getPageTitle] *)

Section PageTitle.
Variable pg : Page.

Lemma split_not_nil (sep : Ascii.ascii) (s : string) : split sep s ≠ [].
Proof.
  destruct s as [|a s]; cbn; [done|].
  destruct (Ascii.eqb a sep); [done|]. by destruct (split sep s).
Qed.

Lemma append_nonempty_l (s t : string) : s ≠ "" → s +:+ t ≠ "".
Proof. by destruct s. Qed.

Lemma append_nonempty_r (s t : string) : t ≠ "" → s +:+ t ≠ "".
Proof. destruct s; [done|]. by cbn. Qed.

Lemma join_two_nonempty (sep x y : string) (l : list string) :
  sep ≠ "" → join sep (x :: y :: l) ≠ "".
Proof.
  intros Hsep. cbn [join].
  apply append_nonempty_r, append_nonempty_l, Hsep.
Qed.

Lemma join_head_nonempty (sep x : string) (l : list string) :
  x ≠ "" → join sep (x :: l) ≠ "".
Proof.
  intros Hx. destruct l as [|y l]; cbn [join]; [done|].
  by apply append_nonempty_l.
Qed.

Lemma nonempty_true (s : string) : nonempty s = true ↔ s ≠ "".
Proof. by destruct s. Qed.

Lemma last_filter_nonempty (l : list string) (s : string) :
  last (List.filter nonempty l) = Some s → s ≠ "".
Proof.
  intros Hlast. apply nonempty_true.
  assert (Hin : In s (List.filter nonempty l)).
  { apply list_elem_of_In. by apply last_Some_elem_of. }
  by apply List.filter_In in Hin as [_ ?].
Qed.

Lemma capitalize_nonempty (word : string) :
  (∀ c, c ≠ "" → toUpperCase pg c ≠ "") → word ≠ "" → capitalize pg word ≠ "".
Proof.
  intros Hup Hw. destruct word as [|a rest]; [done|]. unfold capitalize.
  case_bool_decide; [done|].
  destruct (charBytes a) as [|n] eqn:E.
  { unfold charBytes in E. by repeat case_match. }
  cbn [splitAt]. destruct (splitAt n rest) as [l r]. by apply append_nonempty_l, Hup.
Qed.

(** The derived title of one path segment is never empty when upper-casing
    a character never yields the empty string. *)
Lemma segment_title_nonempty (part : string) :
  (∀ c, c ≠ "" → toUpperCase pg c ≠ "") →
  part ≠ "" → join " " (map (capitalize pg) (split "-"%char part)) ≠ "".
Proof.
  intros Hup Hpart. destruct part as [|a rest]; [done|]. cbn [split].
  destruct (Ascii.eqb a "-"%char).
  - pose proof (split_not_nil "-"%char rest) as Hne.
    destruct (split "-"%char rest) as [|y l]; [done|].
    cbn [map]. by apply join_two_nonempty.
  - destruct (split "-"%char rest) as [|p ps]; cbn [map];
      apply join_head_nonempty; by apply capitalize_nonempty.
Qed.

Lemma getPageTitle_nonempty (mapping : gmap string string) (path : option string) :
  (∀ c, c ≠ "" → toUpperCase pg c ≠ "") →
  (∀ key t, objectPrototype pg key = Some t → t ≠ "") →
  getPageTitle pg mapping path ≠ "".
Proof.
  intros Hup Hproto. unfold getPageTitle.
  destruct path as [[|a p]|]; [done| |done].
  destruct (property pg mapping (String a p)) as [[|b t]|]; [|done|].
  all: destruct (last _) as [part|] eqn:Hlast; [|done].
  all: apply segment_title_nonempty; [done|]; by eapply last_filter_nonempty.
Qed.

(** **** The title in the words of the path *)

(** Whether the byte [c] occurs in [s]. *)
Fixpoint mentions (c : Ascii.ascii) (s : string) : bool :=
  match s with
  | EmptyString => false
  | String a s' => Ascii.eqb a c || mentions c s'
  end.

(** [k] slashes. *)
Fixpoint slashes (k : nat) : string :=
  match k with
  | O => ""
  | S k' => String "/" (slashes k')
  end.

(** A path for which [this.pageMapping[path]] is missing or empty. *)
Definition unmapped (mapping : gmap string string) (path : string) : Prop :=
  mapping !! path = Some "" ∨ (mapping !! path = None ∧ objectPrototype pg path = None).

Lemma append_nil (t : string) : "" +:+ t = t.
Proof. reflexivity. Qed.

Lemma append_cons (a : Ascii.ascii) (s t : string) : String a s +:+ t = String a (s +:+ t).
Proof. reflexivity. Qed.

Lemma concat_cons (sep x y : string) (l : list string) :
  String.concat sep (x :: y :: l) = x +:+ sep +:+ String.concat sep (y :: l).
Proof. reflexivity. Qed.

Lemma string_app_assoc (a b c : string) : (a +:+ b) +:+ c = a +:+ (b +:+ c).
Proof. induction a as [|x a IH]; rewrite ?append_nil, ?append_cons; [done|]. by f_equal. Qed.

Lemma string_app_nil_r (a : string) : a +:+ "" = a.
Proof. induction a as [|x a IH]; rewrite ?append_nil, ?append_cons; [done|]. by f_equal. Qed.

Lemma split_app (sep : Ascii.ascii) (s t : string) :
  split sep (s +:+ String sep t) = (split sep s ++ split sep t)%list.
Proof.
  induction s as [|a s IH]; rewrite ?append_nil, ?append_cons; cbn [split].
  - by rewrite Ascii.eqb_refl.
  - destruct (Ascii.eqb a sep); [by rewrite IH|]. rewrite IH.
    pose proof (split_not_nil sep s) as Hne. by destruct (split sep s).
Qed.

Lemma split_without (sep : Ascii.ascii) (s : string) :
  mentions sep s = false → split sep s = [s].
Proof.
  induction s as [|a s IH]; cbn [mentions split]; [done|].
  intros [Ha Hs]%orb_false_elim. by rewrite Ha, IH.
Qed.

Lemma mentions_app (c : Ascii.ascii) (s t : string) :
  mentions c (s +:+ t) = mentions c s || mentions c t.
Proof.
  induction s as [|a s IH]; rewrite ?append_nil, ?append_cons; cbn [mentions]; [done|].
  by rewrite IH, orb_assoc.
Qed.

Lemma split_slashes (k : nat) : split "/"%char (slashes k) = repeat "" (S k).
Proof. induction k as [|k IH]; cbn [slashes split repeat]; [done|]. by rewrite IH. Qed.

Lemma split_segment (seg : string) (k : nat) :
  mentions "/"%char seg = false →
  split "/"%char (seg +:+ slashes k) = seg :: repeat "" k.
Proof.
  intros Hseg. destruct k as [|k]; cbn [slashes repeat].
  - by rewrite string_app_nil_r, split_without.
  - by rewrite split_app, split_without, split_slashes.
Qed.

Lemma filter_repeat_empty (k : nat) : List.filter nonempty (repeat "" k) = [].
Proof. induction k as [|k IH]; cbn; [done|exact IH]. Qed.

Lemma join_concat (sep : string) (l : list string) : join sep l = String.concat sep l.
Proof.
  induction l as [|x l IH]; [done|]. destruct l as [|y l]; [done|].
  rewrite concat_cons, <- IH. reflexivity.
Qed.

Lemma mentions_concat (c : Ascii.ascii) (words : list string) :
  c ≠ "-"%char → Forall (fun w => mentions c w = false) words →
  mentions c (String.concat "-" words) = false.
Proof.
  intros Hc. induction 1 as [|x l Hx Hl IH]; [done|].
  destruct l as [|y l]; [done|]. rewrite concat_cons.
  rewrite mentions_app, Hx, append_cons, append_nil. cbn [mentions orb].
  rewrite IH, orb_false_r.
  apply Ascii.eqb_neq. congruence.
Qed.

Lemma split_concat (words : list string) :
  words ≠ [] → Forall (fun w => mentions "-"%char w = false) words →
  split "-"%char (String.concat "-" words) = words.
Proof.
  intros Hne Hall. induction Hall as [|x l Hx Hl IH]; [done|].
  destruct l as [|y l]; [by apply split_without|].
  rewrite concat_cons, (append_cons "-" "" _), append_nil.
  rewrite split_app, split_without by done. by rewrite IH.
Qed.

(** The last non-empty segment of [pre ++ seg ++ slashes]. *)
Lemma last_segment (pre seg : string) (k : nat) :
  pre = "" ∨ (∃ pre', pre = pre' +:+ "/") →
  seg ≠ "" → mentions "/"%char seg = false →
  last (List.filter nonempty (split "/"%char (pre +:+ seg +:+ slashes k))) = Some seg.
Proof.
  intros Hpre Hseg Hfree.
  assert (List.filter nonempty (seg :: repeat "" k) = [seg]) as Hf.
  { cbn [List.filter]. apply nonempty_true in Hseg. by rewrite Hseg, filter_repeat_empty. }
  destruct Hpre as [->|[pre' ->]].
  - by rewrite append_nil, split_segment, Hf.
  - rewrite string_app_assoc, (append_cons "/" "" _), append_nil.
    rewrite split_app, split_segment by done.
    rewrite List.filter_app, Hf. apply last_snoc.
Qed.

Lemma getPageTitle_derived (mapping : gmap string string) (pre : string)
    (words : list string) (k : nat) :
  unmapped mapping (pre +:+ String.concat "-" words +:+ slashes k) →
  pre = "" ∨ (∃ pre', pre = pre' +:+ "/") →
  String.concat "-" words ≠ "" →
  Forall (fun w => mentions "/"%char w = false ∧ mentions "-"%char w = false) words →
  getPageTitle pg mapping (Some (pre +:+ String.concat "-" words +:+ slashes k))
  = String.concat " " (map (capitalize pg) words).
Proof.
  intros Hun Hpre Hseg Hall.
  assert (words ≠ []) as Hne by (by intros ->).
  assert (Forall (fun w => mentions "/"%char w = false) words) as Hslash.
  { eapply Forall_impl; [exact Hall|]. by intros w [? ?]. }
  assert (Forall (fun w => mentions "-"%char w = false) words) as Hhyphen.
  { eapply Forall_impl; [exact Hall|]. by intros w [? ?]. }
  pose proof (last_segment pre _ k Hpre Hseg (mentions_concat "/"%char words ltac:(done) Hslash))
    as Hlast.
  set (path := pre +:+ String.concat "-" words +:+ slashes k) in *.
  assert (path ≠ "") as Hpath.
  { unfold path. apply append_nonempty_r, append_nonempty_l, Hseg. }
  unfold getPageTitle. destruct path as [|a p] eqn:E; [done|].
  assert (property pg mapping (String a p) = None ∨ property pg mapping (String a p) = Some "")
    as Hprop.
  { unfold property. destruct Hun as [->|[-> ->]]; auto. }
  rewrite Hlast, split_concat, join_concat by done.
  by destruct Hprop as [->| ->].
Qed.

Lemma getPageTitle_slashes (mapping : gmap string string) (k : nat) :
  unmapped mapping (slashes k) → getPageTitle pg mapping (Some (slashes k)) = "Home".
Proof.
  intros Hun. unfold getPageTitle. destruct (slashes k) as [|a p] eqn:E; [done|].
  assert (property pg mapping (String a p) = None ∨ property pg mapping (String a p) = Some "")
    as Hprop.
  { unfold property. destruct Hun as [->|[-> ->]]; auto. }
  destruct Hprop as [->| ->]; by rewrite <- E, split_slashes, filter_repeat_empty.
Qed.

Lemma capitalize_ascii (a : Ascii.ascii) (rest : string) :
  (Ascii.N_of_ascii a < 128)%N →
  capitalize pg (String a rest) = toUpperCase pg (String a "") +:+ rest.
Proof.
  intros Ha. unfold capitalize, charBytes.
  replace (Ascii.N_of_ascii a <? 192)%N with true by (symmetry; apply N.ltb_lt; lia).
  rewrite bool_decide_eq_false_2 by done. done.
Qed.

(** X1: [getPageTitle] by the path it is given.  Without a path the title
    is 'Home'.  A path that is a key of the mapping with a title that is not
    empty gets that title, and a name every object inherits gets the text of
    what is inherited.  Any other path gets the words of its last segment
    that is not empty, split at the hyphens, each capitalised, with spaces
    between them, or 'Home' when it consists of slashes.  The title is never
    empty. *)
Theorem getPageTitle_gives_mapped_title_or_last_segment (mapping : gmap string string) :
  (∀ c, c ≠ "" → toUpperCase pg c ≠ "") →
  (∀ key t, objectPrototype pg key = Some t → t ≠ "") →
  (∀ path, getPageTitle pg mapping path ≠ "")
  ∧ getPageTitle pg mapping None = "Home"
  ∧ getPageTitle pg mapping (Some "") = "Home"
  ∧ (∀ path t, path ≠ "" → mapping !! path = Some t → t ≠ "" →
       getPageTitle pg mapping (Some path) = t)
  ∧ (∀ path t, path ≠ "" → mapping !! path = None → objectPrototype pg path = Some t →
       getPageTitle pg mapping (Some path) = t)
  ∧ (∀ k, unmapped mapping (slashes k) → getPageTitle pg mapping (Some (slashes k)) = "Home")
  ∧ (∀ pre words k,
       unmapped mapping (pre +:+ String.concat "-" words +:+ slashes k) →
       pre = "" ∨ (∃ pre', pre = pre' +:+ "/") →
       String.concat "-" words ≠ "" →
       Forall (fun w => mentions "/"%char w = false ∧ mentions "-"%char w = false) words →
       getPageTitle pg mapping (Some (pre +:+ String.concat "-" words +:+ slashes k))
       = String.concat " " (map (capitalize pg) words))
  ∧ (∀ a rest, (Ascii.N_of_ascii a < 128)%N →
       capitalize pg (String a rest) = toUpperCase pg (String a "") +:+ rest).
Proof.
  intros Hup Hproto. split_and!; try done.
  - intros path. by apply getPageTitle_nonempty.
  - intros path t Hpath Hm Ht. unfold getPageTitle, property.
    destruct path as [|a p]; [done|]. rewrite Hm. by destruct t.
  - intros path t Hpath Hm Hp. unfold getPageTitle, property.
    destruct path as [|a p]; [done|]. rewrite Hm, Hp.
    pose proof (Hproto _ _ Hp). by destruct t.
  - apply getPageTitle_slashes.
  - apply getPageTitle_derived.
  - apply capitalize_ascii.
Qed.

End PageTitle.

Lemma sample_upperCase_nonempty (c : string) : c ≠ "" → toUpperCase sample_page c ≠ "".
Proof. by destruct c. Qed.

Lemma sample_prototype_nonempty (key t : string) :
  objectPrototype sample_page key = Some t → t ≠ "".
Proof.
  cbn [objectPrototype sample_page]. case_bool_decide; [|done].
  destruct (String.eqb key "__proto__"); intros [= <-]; done.
Qed.

Lemma getPageTitle_gives_mapped_title_or_last_segment_witness :
  getPageTitle sample_page (pageMapping sample_ready) (Some "/blog/my-first-post/")
  = "My First Post"
  ∧ getPageTitle sample_page (pageMapping sample_ready) (Some "/about") = "About Me"
  ∧ getPageTitle sample_page (pageMapping sample_ready) (Some "constructor")
    = "function Object() { [native code] }".
Proof.
  destruct (getPageTitle_gives_mapped_title_or_last_segment sample_page
              (pageMapping sample_ready) sample_upperCase_nonempty sample_prototype_nonempty)
    as (_ & _ & _ & Hown & Hinherited & _ & Hderived & _).
  split_and!.
  - etransitivity;
      [exact (Hderived "/blog/" ["my"; "first"; "post"] 1%nat
                ltac:(right; split; vm_compute; reflexivity)
                ltac:(right; by exists "/blog")
                ltac:(vm_compute; discriminate)
                ltac:(repeat constructor))|].
    vm_compute. reflexivity.
  - apply Hown; [done | vm_compute; reflexivity | done].
  - apply Hinherited; [done | vm_compute; reflexivity | vm_compute; reflexivity].
Defined.

(** *** [init] and [cleanup]: the listener registrations *)

Section Lifecycle.
Variable pg : Page.
Variable cfg : Config.

Definition linkListener (link : node) : Listener :=
  mkListener (TNode link) "click" HandleNavLinkClick.

Definition addLinks (ls : list node) (acc : list Listener) : list Listener :=
  foldl (fun acc link => if isHTMLElement pg link then register (linkListener link) acc else acc)
        acc ls.

Definition removeLinks (ls : list node) (acc : list Listener) : list Listener :=
  foldl (fun acc link => if isHTMLElement pg link then unregister (linkListener link) acc else acc)
        acc ls.

Lemma set_listeners_twice (a b : list Listener) (w : World) :
  set_listeners a (set_listeners b w) = set_listeners a w.
Proof. by destruct w. Qed.

Lemma set_listeners_same (w : World) : set_listeners (listeners w) w = w.
Proof. by destruct w. Qed.

Lemma forEach_add (ls : list node) (w : World) :
  forEach ls (fun link =>
    when (isHTMLElement pg link)
      (addEventListener (TNode link) "click" HandleNavLinkClick)) w
  = (Normal tt, set_listeners (addLinks ls (listeners w)) w).
Proof.
  revert w. induction ls as [|link ls IH]; intros w.
  - cbn. by rewrite set_listeners_same.
  - cbn [forEach]. unfold bind at 1, when.
    destruct (isHTMLElement pg link) eqn:Hel.
    + unfold addEventListener at 1, modify at 1. rewrite IH.
      unfold addLinks. cbn [foldl listeners set_listeners]. rewrite Hel.
      by destruct w.
    + unfold ret at 1. rewrite IH. unfold addLinks. cbn [foldl]. by rewrite Hel.
Qed.

Lemma forEach_remove (ls : list node) (w : World) :
  forEach ls (fun link =>
    when (isHTMLElement pg link)
      (removeEventListener (TNode link) "click" HandleNavLinkClick)) w
  = (Normal tt, set_listeners (removeLinks ls (listeners w)) w).
Proof.
  revert w. induction ls as [|link ls IH]; intros w.
  - cbn. by rewrite set_listeners_same.
  - cbn [forEach]. unfold bind at 1, when.
    destruct (isHTMLElement pg link) eqn:Hel.
    + unfold removeEventListener at 1, modify at 1. rewrite IH.
      unfold removeLinks. cbn [foldl listeners set_listeners]. rewrite Hel.
      by destruct w.
    + unfold ret at 1. rewrite IH. unfold removeLinks. cbn [foldl]. by rewrite Hel.
Qed.

(** What [cleanup] leaves of the listener list. *)
Definition cleaned (w : World) : list Listener :=
  let l1 := match hamburger w with
            | Some h => unregister (mkListener (TNode h) "click" HandleHamburgerClick) (listeners w)
            | None => listeners w
            end in
  let l2 := unregister (mkListener TDocument "keydown" HandleEscapeKey)
              (unregister (mkListener TDocument "click" HandleOutsideClick) l1) in
  match navLinks w with
  | Some ls => removeLinks ls l2
  | None => l2
  end.

Lemma cleanup_spec (w : World) :
  cleanup pg w
  = (Normal tt,
     set_cleanupTimeout None
       (set_timers (match cleanupTimeout w with
                    | Some t => cancel t (timers w)
                    | None => timers w
                    end)
          (set_listeners (cleaned w) w))).
Proof.
  destruct w as [ns ls ts nt con clk ih hb mn nl pt ia lc ct pm].
  unfold cleanup, cleaned, try_catch.
  unfold bind at 1, gets at 1. cbn [hamburger].
  destruct hb as [h|], nl as [links|], ct as [t|].
  all: unfold bind, gets, removeEventListener, clearTimeout, modify, ret;
    cbn [listeners set_listeners navLinks cleanupTimeout timers set_timers set_cleanupTimeout hamburger];
    rewrite ?forEach_remove; reflexivity.
Qed.

Definition hamburgerListener (h : node) : Listener :=
  mkListener (TNode h) "click" HandleHamburgerClick.
Definition outsideListener : Listener := mkListener TDocument "click" HandleOutsideClick.
Definition escapeListener : Listener := mkListener TDocument "keydown" HandleEscapeKey.

(** The registrations of a successful [init], in its order. *)
Definition installed (h : node) (ls : list node) (acc : list Listener) : list Listener :=
  addLinks ls (register escapeListener (register outsideListener
                 (register (hamburgerListener h) acc))).

Lemma cleanup_normal (w : World) : fst (cleanup pg w) = Normal tt.
Proof. by rewrite cleanup_spec. Qed.

Lemma cleanup_listeners (w : World) : listeners (exec (cleanup pg) w) = cleaned w.
Proof. unfold exec. rewrite cleanup_spec. by destruct w. Qed.

Lemma cleanup_console (w : World) : console (exec (cleanup pg) w) = console w.
Proof. unfold exec. rewrite cleanup_spec. by destruct w. Qed.

Ltac init_cases Hc :=
  unfold init, try_catch; rewrite bind_apply, Hc;
  rewrite bind_apply;
  destruct (querySelector pg (hamburgerSelector cfg)) as [h|]; [|by cbn];
  rewrite bind_apply; unfold modify at 1; rewrite bind_apply;
  destruct (querySelector pg (menuSelector cfg)) as [m|]; [|by destruct h; cbn];
  rewrite bind_apply; unfold modify at 1; rewrite bind_apply;
  destruct (querySelectorAll pg (navLinksSelector cfg)) as [ls|];
    [|by destruct h as [h|], m as [m|]; cbn];
  rewrite bind_apply; unfold modify at 1; rewrite bind_apply;
  destruct (querySelector pg (pageTitleSelector cfg)) as [t|];
    [|by destruct h as [h|], m as [m|]; cbn];
  rewrite bind_apply; unfold modify at 1;
  destruct h as [h|], m as [m|]; try (by cbn);
  unfold addEventListener, log, modify; rewrite !bind_apply;
  rewrite forEach_add; by cbn.

(** [init] after its [cleanup]: the four queries, then the registrations. *)
Lemma init_after_cleanup (w w0 : World) :
  cleanup pg w = (Normal tt, w0) →
  let w' := exec (init pg cfg) w in
  match querySelector pg (hamburgerSelector cfg), querySelector pg (menuSelector cfg),
        querySelectorAll pg (navLinksSelector cfg), querySelector pg (pageTitleSelector cfg) with
  | Normal (Some h), Normal (Some m), Normal ls, Normal t =>
      listeners w' = installed h ls (listeners w0)
      ∧ hamburger w' = Some h ∧ menu w' = Some m ∧ navLinks w' = Some ls
      ∧ console w' = (console w0 ++ [(debug, "Mobile navigation initialized")])%list
  | Normal h, Normal m, Normal ls, Normal t =>
      listeners w' = listeners w0
      ∧ hamburger w' = h ∧ menu w' = m
      ∧ console w' = (console w0 ++ [(warn, "Mobile navigation elements not found")])%list
  | _, _, _, _ =>
      listeners w' = listeners w0
      ∧ console w' = (console w0 ++ [(error, "Failed to initialize mobile navigation:")])%list
  end.
Proof.
  intros Hc. unfold exec. destruct w0. init_cases Hc.
Qed.

(** [init] catches whatever a query throws. *)
Lemma init_normal (w : World) : fst (init pg cfg w) = Normal tt.
Proof.
  pose proof (cleanup_spec w) as Hc. init_cases Hc.
Qed.

Lemma elem_of_register (l x : Listener) (acc : list Listener) :
  l ∈ register x acc ↔ l = x ∨ l ∈ acc.
Proof.
  unfold register. case_bool_decide as Hin.
  - split; [by right|]. by intros [->|?].
  - rewrite elem_of_app, list_elem_of_singleton. tauto.
Qed.

Lemma elem_of_unregister (l x : Listener) (acc : list Listener) :
  l ∈ unregister x acc ↔ l ∈ acc ∧ l ≠ x.
Proof. unfold unregister. rewrite list_elem_of_filter. tauto. Qed.

Lemma elem_of_addLinks (l : Listener) (ls : list node) (acc : list Listener) :
  l ∈ addLinks ls acc
  ↔ l ∈ acc ∨ ∃ link, link ∈ ls ∧ isHTMLElement pg link = true ∧ l = linkListener link.
Proof.
  unfold addLinks. revert acc. induction ls as [|x ls IH]; intros acc; cbn [foldl].
  - split; [by left|]. intros [?|(link & Hin & _)]; [done|]. by apply elem_of_nil in Hin.
  - rewrite IH. split.
    + intros [Hl|(link & Hin & Hel & ->)].
      * destruct (isHTMLElement pg x) eqn:Hx; [|by left].
        apply elem_of_register in Hl as [->|?]; [|by left].
        right. exists x. split_and!; [apply elem_of_cons; by left|done|done].
      * right. exists link. split_and!; [apply elem_of_cons; by right|done|done].
    + intros [Hl|(link & Hin & Hel & ->)].
      * left. destruct (isHTMLElement pg x); [|done]. apply elem_of_register. by right.
      * apply elem_of_cons in Hin as [->|Hin].
        -- left. rewrite Hel. apply elem_of_register. by left.
        -- right. by exists link.
Qed.

Lemma elem_of_removeLinks (l : Listener) (ls : list node) (acc : list Listener) :
  l ∈ removeLinks ls acc
  ↔ l ∈ acc ∧ ∀ link, link ∈ ls → isHTMLElement pg link = true → l ≠ linkListener link.
Proof.
  unfold removeLinks. revert acc. induction ls as [|x ls IH]; intros acc; cbn [foldl].
  - split; [|by intros [? _]]. intros ?. split; [done|]. intros link Hin.
    by apply elem_of_nil in Hin.
  - rewrite IH. split.
    + intros [Hl Hls]. destruct (isHTMLElement pg x) eqn:Hx.
      * apply elem_of_unregister in Hl as [Hl Hne]. split; [done|].
        intros link Hin Hel. apply elem_of_cons in Hin as [->|Hin]; [done|by apply Hls].
      * split; [done|]. intros link Hin Hel.
        apply elem_of_cons in Hin as [->|Hin]; [congruence|by apply Hls].
    + intros [Hl Hls]. split.
      * destruct (isHTMLElement pg x) eqn:Hx; [|done].
        apply elem_of_unregister. split; [done|]. apply Hls; [apply elem_of_cons; by left|done].
      * intros link Hin. apply Hls. apply elem_of_cons. by right.
Qed.

Lemma elem_of_cleaned (l : Listener) (w : World) :
  l ∈ cleaned w
  ↔ l ∈ listeners w ∧ l ≠ outsideListener ∧ l ≠ escapeListener
    ∧ (∀ h, hamburger w = Some h → l ≠ hamburgerListener h)
    ∧ (∀ ls link, navLinks w = Some ls → link ∈ ls → isHTMLElement pg link = true →
         l ≠ linkListener link).
Proof.
  unfold cleaned.
  destruct (navLinks w) as [ls|], (hamburger w) as [h|];
    rewrite ?elem_of_removeLinks, !elem_of_unregister;
    fold outsideListener escapeListener; try fold (hamburgerListener h);
    naive_solver.
Qed.

(** Every listener in place after [init] was there before or belongs to the
    elements [init] found. *)
Lemma init_listeners (w : World) (l : Listener) :
  let w' := exec (init pg cfg) w in
  l ∈ listeners w' →
  l ∈ cleaned w
  ∨ l = outsideListener ∨ l = escapeListener
  ∨ (∃ h, hamburger w' = Some h ∧ l = hamburgerListener h)
  ∨ (∃ ls link, navLinks w' = Some ls ∧ link ∈ ls ∧ isHTMLElement pg link = true
                ∧ l = linkListener link).
Proof.
  intros w'. pose proof (init_after_cleanup w _ (cleanup_spec w)) as Hinit.
  cbv zeta in Hinit. fold w' in Hinit.
  match type of Hinit with context [listeners ?w0] =>
    replace (listeners w0) with (cleaned w) in Hinit by (by destruct w) end.
  destruct (querySelector pg (hamburgerSelector cfg)) as [[h|]|];
    destruct (querySelector pg (menuSelector cfg)) as [[m|]|];
    destruct (querySelectorAll pg (navLinksSelector cfg)) as [ls|];
    destruct (querySelector pg (pageTitleSelector cfg)) as [t|];
    try (destruct Hinit as [-> _]; by left).
  destruct Hinit as (-> & Hh & _ & Hls & _). unfold installed.
  rewrite elem_of_addLinks, !elem_of_register. naive_solver.
Qed.

(** X2: [cleanup] after [init]: none of the controller's listeners is left, and
    nothing is left that was not registered before [init]. *)
Theorem cleanup_removes_what_init_registered (w : World) :
  let w' := exec (cleanup pg) (exec (init pg cfg) w) in
  (outsideListener ∉ listeners w') ∧ (escapeListener ∉ listeners w')
  ∧ (∀ h, hamburger w' = Some h → hamburgerListener h ∉ listeners w')
  ∧ (∀ ls link, navLinks w' = Some ls → link ∈ ls → isHTMLElement pg link = true →
       linkListener link ∉ listeners w')
  ∧ (∀ l, l ∈ listeners w' → l ∈ listeners w)
  ∧ (listeners w = [] → listeners w' = []).
Proof.
  intros w'. set (w1 := exec (init pg cfg) w) in *.
  assert (Hl : listeners w' = cleaned w1) by apply cleanup_listeners.
  assert (Hh : hamburger w' = hamburger w1).
  { unfold w', exec. rewrite cleanup_spec. by destruct w1. }
  assert (Hn : navLinks w' = navLinks w1).
  { unfold w', exec. rewrite cleanup_spec. by destruct w1. }
  assert (Hsub : ∀ l, l ∈ listeners w' → l ∈ listeners w).
  { intros l. rewrite Hl, elem_of_cleaned. intros (Hin & Ho & He & Hhb & Hlk).
    apply init_listeners in Hin. fold w1 in Hin.
    destruct Hin as [Hin|[->|[->|[(h & Hw & ->)|(ls & link & Hw & Hin & Hel & ->)]]]];
      [| done | done | by destruct (Hhb h Hw) | by destruct (Hlk ls link Hw Hin Hel)].
    by apply elem_of_cleaned in Hin as [? _]. }
  rewrite Hl, Hh, Hn. split_and!.
  - rewrite elem_of_cleaned. naive_solver.
  - rewrite elem_of_cleaned. naive_solver.
  - intros h Hw. rewrite elem_of_cleaned. naive_solver.
  - intros ls link Hw Hin Hel. rewrite elem_of_cleaned. naive_solver.
  - intros l. rewrite <- Hl. apply Hsub.
  - intros Hnil. rewrite <- Hl. apply elem_of_nil_inv. intros l Hin.
    apply Hsub in Hin. rewrite Hnil in Hin. by apply elem_of_nil in Hin.
Qed.

(** X3: [init] on a page that lacks the hamburger or the menu: it returns
    normally with one warning and no registration; the listeners left are
    those [cleanup] leaves. *)
Theorem init_without_elements_registers_nothing (w : World) (h m : option node)
    (ls : list node) (t : option node) :
  querySelector pg (hamburgerSelector cfg) = Normal h →
  querySelector pg (menuSelector cfg) = Normal m →
  querySelectorAll pg (navLinksSelector cfg) = Normal ls →
  querySelector pg (pageTitleSelector cfg) = Normal t →
  h = None ∨ m = None →
  let w' := exec (init pg cfg) w in
  fst (init pg cfg w) = Normal tt
  ∧ listeners w' = cleaned w
  ∧ (listeners w = [] → listeners w' = [])
  ∧ console w' = (console w ++ [(warn, "Mobile navigation elements not found")])%list
  ∧ hamburger w' = h ∧ menu w' = m.
Proof.
  intros Hqh Hqm Hqls Hqt Hmissing w'.
  pose proof (init_after_cleanup w _ (cleanup_spec w)) as Hinit.
  cbv zeta in Hinit. fold w' in Hinit. rewrite Hqh, Hqm, Hqls, Hqt in Hinit.
  match type of Hinit with context [listeners ?w0] =>
    replace (listeners w0) with (cleaned w) in Hinit by (by destruct w);
    replace (console w0) with (console w) in Hinit by (by destruct w) end.
  assert (Hres : listeners w' = cleaned w
                 ∧ console w' = (console w ++ [(warn, "Mobile navigation elements not found")])%list
                 ∧ hamburger w' = h ∧ menu w' = m).
  { destruct Hmissing as [-> | ->]; [|destruct h]; naive_solver. }
  destruct Hres as (Hl & Hcon & Hh & Hm).
  split_and!; [apply init_normal|done| |done|done|done].
  intros Hnil. rewrite Hl. apply elem_of_nil_inv. intros l Hin.
  apply elem_of_cleaned in Hin as [Hin _]. rewrite Hnil in Hin. by apply elem_of_nil in Hin.
Qed.

(** X4: [init] returns normally on every page; when a selector is malformed and
    its query throws, the error is logged and nothing is registered. *)
Theorem init_never_throws (w : World) :
  fst (init pg cfg w) = Normal tt
  ∧ ((∃ e, querySelector pg (hamburgerSelector cfg) = Throw e)
     ∨ (∃ e, querySelector pg (menuSelector cfg) = Throw e)
     ∨ (∃ e, querySelectorAll pg (navLinksSelector cfg) = Throw e)
     ∨ (∃ e, querySelector pg (pageTitleSelector cfg) = Throw e) →
     listeners (exec (init pg cfg) w) = cleaned w
     ∧ console (exec (init pg cfg) w)
       = (console w ++ [(error, "Failed to initialize mobile navigation:")])%list).
Proof.
  split; [apply init_normal|]. intros Hthrow.
  pose proof (init_after_cleanup w _ (cleanup_spec w)) as Hinit.
  cbv zeta in Hinit.
  match type of Hinit with context [listeners ?w0] =>
    replace (listeners w0) with (cleaned w) in Hinit by (by destruct w);
    replace (console w0) with (console w) in Hinit by (by destruct w) end.
  destruct (querySelector pg (hamburgerSelector cfg)) as [[h|]|];
    destruct (querySelector pg (menuSelector cfg)) as [[m|]|];
    destruct (querySelectorAll pg (navLinksSelector cfg)) as [ls|];
    destruct (querySelector pg (pageTitleSelector cfg)) as [t|];
    try exact Hinit; naive_solver.
Qed.

End Lifecycle.

(** *** [forceCloseMenu] and the timer callbacks *)

Section Recovery.
Variable pg : Page.
Variable cfg : Config.

(** [forceCloseMenu] closes the menu from every state with both elements,
    clears the busy flag and cancels the timer held in [cleanupTimeout]. *)
Lemma forceCloseMenu_spec (w : World) (h m : node) :
  hamburger w = Some h → menu w = Some m →
  let w' := exec (forceCloseMenu pg) w in
  closed pg w' ∧ hasClass m "menu-open" w' = false
  ∧ isAnimating w' = false ∧ cleanupTimeout w' = None
  ∧ hamburger w' = Some h ∧ menu w' = Some m ∧ innerHeight w' = innerHeight w
  ∧ timers w' = match cleanupTimeout w with
                | Some t => cancel t (timers w)
                | None => timers w
                end.
Proof.
  destruct w as [ns ls ts nt con clk ih hb mn nl pt ia lc ct pm].
  cbn [hamburger menu]. intros -> ->.
  unfold forceCloseMenu, closed, view, hasClass, getAttribute, getStyle.
  destruct ct; cbn.
  all: rewrite !lookup_update.
  all: split_aliases h m (body pg).
  all: split_and!; try done; try (f_equal; solve_read); solve_read.
Qed.

(** X5: after [forceCloseMenu] the menu is closed and idle whatever state it
    was in, the timer held in [cleanupTimeout] is cancelled, and the next
    [toggleMenu] opens the menu: to the height of the viewport less 80
    pixels when the viewport is at least 80 pixels high, and with the height
    left at '0' when it is lower, the negative length being no height. *)
Theorem forceCloseMenu_closes_and_unblocks (w : World) (h m : node) :
  hamburger w = Some h → menu w = Some m →
  let w' := exec (forceCloseMenu pg) w in
  closed pg w' ∧ isAnimating w' = false ∧ cleanupTimeout w' = None
  ∧ timers w' = match cleanupTimeout w with
                | Some t => cancel t (timers w)
                | None => timers w
                end
  ∧ view pg (exec (toggleMenu pg cfg) w')
    = mkView (Some true) (Some "true")
        (Some (if (innerHeight w <? 80)%Z then "0"
               else pretty (innerHeight w - 80) +:+ "px"))
        (Some "hidden").
Proof.
  intros Hh Hm w'.
  destruct (forceCloseMenu_spec w h m Hh Hm)
    as (Hclosed & _ & Hidle & Hct & Hh' & Hm' & Hih & Hts).
  fold w' in Hclosed, Hidle, Hct, Hh', Hm', Hih, Hts.
  split_and!; [done..|].
  assert (Hact : hasClass h "is-active" w' = false).
  { apply (f_equal v_active) in Hclosed. unfold view in Hclosed. cbn in Hclosed.
    rewrite Hh' in Hclosed. cbn in Hclosed. congruence. }
  assert (Hzero : getStyle m "height" w' = Some "0").
  { apply (f_equal v_height) in Hclosed. unfold view in Hclosed. cbn in Hclosed.
    by rewrite Hm' in Hclosed. }
  destruct (toggleMenu_opens pg cfg w' h m Hh' Hm' Hidle Hact) as (Hview & _).
  rewrite Hview. unfold opened_height. rewrite Hih, Hzero, px_eq.
  destruct (Z.ltb_spec (innerHeight w - 80) 0), (Z.ltb_spec (innerHeight w) 80);
    done || lia.
Qed.

Lemma view_ext (w w' : World) :
  nodes w' = nodes w → hamburger w' = hamburger w → menu w' = menu w →
  view pg w' = view pg w.
Proof.
  intros Hn Hh Hm. unfold view, hasClass, getAttribute, getStyle.
  by rewrite Hn, Hh, Hm.
Qed.

(** [toggleMenu] and [startNavigationClose] change no element reference. *)
Lemma toggleMenu_refs (w : World) :
  let w' := exec (toggleMenu pg cfg) w in
  hamburger w' = hamburger w ∧ menu w' = menu w ∧ pageTitle w' = pageTitle w
  ∧ pageMapping w' = pageMapping w.
Proof.
  unfold toggleMenu. js_step.
  destruct (hamburger w) eqn:Hh, (menu w) eqn:Hm, (isAnimating w) eqn:Hb; cbn; try done.
  repeat (match goal with |- context [negb ?b] => destruct b end; cbn); done.
Qed.

Lemma find_fresh (ts : list Timer) (id : positive) (d : Z) (cb : Callback) :
  (∀ t, t ∈ ts → t_id t ≠ id) →
  List.find (fun t => bool_decide (t_id t = id)) (ts ++ [mkTimer id d cb])
  = Some (mkTimer id d cb)
  ∧ cancel id (ts ++ [mkTimer id d cb]) = ts.
Proof.
  intros Hfresh. unfold cancel. induction ts as [|t ts IH]; cbn [app List.find t_id].
  - rewrite bool_decide_eq_true_2 by done. split; [done|].
    rewrite filter_cons_False by (cbn; naive_solver). done.
  - assert (Ht : t_id t ≠ id) by (apply Hfresh, elem_of_cons; by left).
    rewrite bool_decide_eq_false_2 by done.
    rewrite filter_cons_True by done.
    destruct IH as [-> ->]; [|done].
    intros t' Hin. apply Hfresh, elem_of_cons. by right.
Qed.

Lemma fire_pending (w : World) (id : positive) (t : Timer) :
  List.find (fun t => bool_decide (t_id t = id)) (timers w) = Some t →
  fire pg id w = run_callback pg (t_callback t) (set_timers (cancel id (timers w)) w).
Proof.
  intros Hfind. unfold fire. rewrite bind_apply. unfold gets at 1. rewrite Hfind.
  rewrite bind_apply. reflexivity.
Qed.

(** X6: open, let the reset timer fire, toggle again: the menu is closed again.
    The timer ids in use are below [nextTimer], as in every browser. *)
Theorem toggleMenu_open_then_close (w : World) (h m : node) :
  hamburger w = Some h → menu w = Some m → isAnimating w = false →
  hasClass h "is-active" w = false →
  (∀ t, t ∈ timers w → t_id t ≠ nextTimer w) →
  let w1 := exec (toggleMenu pg cfg) w in
  let w2 := exec (fire pg (nextTimer w)) w1 in
  let w3 := exec (toggleMenu pg cfg) w2 in
  isAnimating w1 = true ∧ isAnimating w2 = false ∧ timers w2 = timers w
  ∧ view pg w2 = view pg w1 ∧ closed pg w3.
Proof.
  intros Hh Hm Hidle Hact Hfresh w1 w2 w3.
  destruct (toggleMenu_opens pg cfg w h m Hh Hm Hidle Hact) as (Hview & _ & Hbusy & Hts & _).
  destruct (toggleMenu_refs w) as (Hh1 & Hm1 & _).
  fold w1 in Hview, Hbusy, Hts, Hh1, Hm1.
  destruct (find_fresh (timers w) (nextTimer w)
              (Z.max (animationDuration cfg) (opacityDuration cfg)) ResetAnimating Hfresh)
    as [Hfind Hcancel].
  rewrite <- Hts in Hfind, Hcancel.
  assert (Hw2 : w2 = set_console (console w1 ++ [(debug, "Animation completed, isAnimating reset to false")])
                       (set_isAnimating false (set_timers (timers w) w1))).
  { unfold w2, exec. rewrite (fire_pending w1 _ _ Hfind), Hcancel. by destruct w1. }
  assert (Hv2 : view pg w2 = view pg w1) by (rewrite Hw2; by destruct w1).
  split_and!; [done | by rewrite Hw2; destruct w1 | by rewrite Hw2; destruct w1 | done |].
  apply (toggleMenu_closes pg cfg w2 h m).
  - rewrite Hw2, <- Hh, <- Hh1. by destruct w1.
  - rewrite Hw2, <- Hm, <- Hm1. by destruct w1.
  - rewrite Hw2. by destruct w1.
  - rewrite Hview in Hv2. apply (f_equal v_active) in Hv2. unfold view in Hv2.
    cbn in Hv2. replace (hamburger w2) with (Some h) in Hv2; [cbn in Hv2; congruence|].
    rewrite Hw2, <- Hh, <- Hh1. by destruct w1.
Qed.

Lemma find_after_fresh (ts l : list Timer) (id : positive) :
  (∀ t, t ∈ ts → t_id t ≠ id) →
  List.find (fun t => bool_decide (t_id t = id)) (ts ++ l)
  = List.find (fun t => bool_decide (t_id t = id)) l
  ∧ cancel id (ts ++ l) = (ts ++ cancel id l)%list.
Proof.
  intros Hfresh. unfold cancel. induction ts as [|t ts IH]; cbn [app List.find]; [done|].
  assert (Ht : t_id t ≠ id) by (apply Hfresh, elem_of_cons; by left).
  rewrite bool_decide_eq_false_2 by done.
  rewrite filter_cons_True by done.
  destruct IH as [-> ->]; [|done].
  intros t' Hin. apply Hfresh, elem_of_cons. by right.
Qed.

(** What a link activation on the open menu leaves behind. *)
Lemma handleNavLinkClick_spec (e : Event) (w : World) (h m : node) :
  hamburger w = Some h → menu w = Some m → hasClass h "is-active" w = true →
  let w' := exec (handleNavLinkClick pg e) w in
  let n := nextTimer w in
  closed pg w' ∧ hasClass m "navigating" w' = true ∧ hasClass m "menu-open" w' = false
  ∧ isAnimating w' = true
  ∧ timers w' = (timers w ++ [mkTimer n 200 NavigationCloseDone;
                              mkTimer (Pos.succ n) 200 (UpdateTitle (currentTarget e))])%list
  ∧ cleanupTimeout w' = Some (Pos.succ n)
  ∧ hamburger w' = Some h ∧ menu w' = Some m ∧ pageTitle w' = pageTitle w
  ∧ pageMapping w' = pageMapping w
  ∧ (∀ k, attributes (nodes w' !!! k) !! "href" = attributes (nodes w !!! k) !! "href")
  ∧ (∀ k, textContent (nodes w' !!! k) = textContent (nodes w !!! k)).
Proof.
  destruct w as [ns ls ts nt con clk ih hb mn nl pt ia lc ct pm].
  cbn [hamburger menu nextTimer]. intros -> -> Hact.
  unfold hasClass in Hact. cbn [nodes] in Hact.
  unfold handleNavLinkClick, startNavigationClose. js_step.
  cbn. rewrite Hact. cbn.
  unfold closed, view, hasClass, getAttribute, getStyle. cbn.
  split_and!; try done.
  1-3: rewrite !lookup_update; split_aliases h m (body pg);
       try (f_equal; solve_read); solve_read.
  - rewrite <- app_assoc. done.
  - intros k. rewrite !lookup_update.
    repeat case_decide; subst; solve_read.
  - intros k. rewrite !lookup_update.
    repeat case_decide; subst; solve_read.
Qed.

(** A write that keeps the 'is-active' class, the attributes and the inline
    style of an element keeps the view. *)
Lemma view_update_preserved (n : node) (f : Element → Element) (w : World) :
  (∀ e, classList_contains "is-active" (f e) = classList_contains "is-active" e) →
  (∀ e, attributes (f e) = attributes e) → (∀ e, style (f e) = style e) →
  view pg (set_nodes (update n f (nodes w)) w) = view pg w.
Proof.
  intros Hc Ha Hs. destruct w as [ns ls ts nt con clk ih hb mn nl pt ia lc ct pm].
  unfold view, hasClass, getAttribute, getStyle. cbn.
  f_equal.
  - destruct hb as [h|]; [|done]. cbn. rewrite lookup_update. by case_decide; subst; rewrite ?Hc.
  - destruct hb as [h|]; [|done]. cbn. rewrite lookup_update. by case_decide; subst; rewrite ?Ha.
  - destruct mn as [m|]; [|done]. cbn. rewrite lookup_update. by case_decide; subst; rewrite ?Hs.
  - rewrite lookup_update. by case_decide as Hk; [rewrite Hk, Hs|].
Qed.

Lemma contains_remove_other (c d : string) (e : Element) :
  c ≠ d → classList_contains c (classList_remove d e) = classList_contains c e.
Proof.
  intros Hne. unfold classList_contains, classList_remove. cbn.
  apply bool_decide_ext. set_solver.
Qed.

(** X7: a link activation on the open menu, followed by its two 200 ms timers:
    the menu is closed, the busy flag is reset, the 'navigating' class is
    gone, no timer of the click is left, and the title element shows
    [getPageTitle] of the link's [href] (unless that title is empty). *)
Theorem nav_link_click_then_timers (e : Event) (w : World) (h m t : node) :
  hamburger w = Some h → menu w = Some m → pageTitle w = Some t →
  hasClass h "is-active" w = true →
  (∀ x, x ∈ timers w → t_id x ≠ nextTimer w ∧ t_id x ≠ Pos.succ (nextTimer w)) →
  let w1 := exec (handleNavLinkClick pg e) w in
  let w2 := exec (fire pg (nextTimer w)) w1 in
  let w3 := exec (fire pg (Pos.succ (nextTimer w))) w2 in
  let title := getPageTitle pg (pageMapping w)
                 (attributes (nodes w !!! currentTarget e) !! "href") in
  closed pg w1 ∧ isAnimating w1 = true
  ∧ isAnimating w2 = false ∧ hasClass m "navigating" w2 = false
  ∧ closed pg w3 ∧ isAnimating w3 = false ∧ timers w3 = timers w
  ∧ textContent (nodes w3 !!! t)
    = if nonempty title then title else textContent (nodes w !!! t).
Proof.
  intros Hh Hm Ht Hact Hfresh w1 w2 w3 title.
  destruct (handleNavLinkClick_spec e w h m Hh Hm Hact)
    as (Hclosed & _ & _ & Hbusy & Hts & _ & Hh1 & Hm1 & Ht1 & Hpm1 & Hhref & Htext).
  cbv zeta in Hts. fold w1 in Hclosed, Hbusy, Hts, Hh1, Hm1, Ht1, Hpm1, Hhref, Htext.
  set (n := nextTimer w) in *.
  set (A := mkTimer n 200 NavigationCloseDone) in *.
  set (B := mkTimer (Pos.succ n) 200 (UpdateTitle (currentTarget e))) in *.
  (* first timer *)
  destruct (find_after_fresh (timers w) [A; B] n) as [Hfind1 Hcancel1];
    [intros x Hx; by apply Hfresh|].
  rewrite <- Hts in Hfind1, Hcancel1.
  assert (HfA : List.find (λ x, bool_decide (t_id x = n)) [A; B] = Some A).
  { cbn. by rewrite bool_decide_eq_true_2. }
  assert (HcA : cancel n [A; B] = [B]).
  { unfold cancel. rewrite filter_cons_False by (cbn; naive_solver).
    rewrite filter_cons_True; [done|]. cbn. lia. }
  rewrite HfA in Hfind1. rewrite HcA in Hcancel1.
  assert (Hw2 : w2 = set_nodes (update m (classList_remove "navigating") (nodes w1))
                       (set_isAnimating false (set_timers (timers w ++ [B]) w1))).
  { unfold w2, exec. rewrite (fire_pending w1 _ _ Hfind1), Hcancel1.
    cbn [t_callback A run_callback]. rewrite !bind_apply. unfold modify at 1.
    rewrite bind_apply. unfold gets at 1.
    replace (menu (set_isAnimating false (set_timers (timers w ++ [B]) w1))) with (Some m)
      by (rewrite <- Hm1; by destruct w1).
    by destruct w1. }
  assert (Hv2 : view pg w2 = view pg w1).
  { rewrite Hw2.
    transitivity (view pg (set_nodes (update m (classList_remove "navigating") (nodes w1)) w1));
      [by destruct w1|].
    apply view_update_preserved; [|done|done].
    intros el. by apply contains_remove_other. }
  (* second timer *)
  assert (Hts2 : timers w2 = (timers w ++ [B])%list) by (rewrite Hw2; by destruct w1).
  destruct (find_after_fresh (timers w) [B] (Pos.succ n)) as [Hfind2 Hcancel2];
    [intros x Hx; by apply Hfresh|].
  rewrite <- Hts2 in Hfind2, Hcancel2.
  assert (HfB : List.find (λ x, bool_decide (t_id x = Pos.succ n)) [B] = Some B).
  { cbn. by rewrite bool_decide_eq_true_2. }
  assert (HcB : cancel (Pos.succ n) [B] = []).
  { unfold cancel. by rewrite filter_cons_False by (cbn; naive_solver). }
  rewrite HfB in Hfind2. rewrite HcB, app_nil_r in Hcancel2.
  set (w2' := set_timers (timers w) w2).
  assert (Hlink : attributes (nodes w2' !!! currentTarget e) !! "href"
                  = attributes (nodes w !!! currentTarget e) !! "href").
  { rewrite <- Hhref. unfold w2'. rewrite Hw2. destruct w1. cbn.
    rewrite lookup_update. by case_decide; subst. }
  assert (Hw3 : w3 = if nonempty title
                     then set_nodes (update t (setTextContent title) (nodes w2')) w2'
                     else w2').
  { unfold w3, exec. rewrite (fire_pending w2 _ _ Hfind2), Hcancel2. fold w2'.
    cbn [t_callback B run_callback]. rewrite bind_apply. unfold element, gets at 1.
    rewrite bind_apply. unfold gets at 1. rewrite bind_apply. unfold gets at 1.
    replace (pageTitle w2') with (Some t)
      by (unfold w2'; rewrite Hw2, <- Ht, <- Ht1; by destruct w1).
    replace (pageMapping w2') with (pageMapping w)
      by (unfold w2'; rewrite Hw2, <- Hpm1; by destruct w1).
    rewrite Hlink. fold title. unfold when. by destruct (nonempty title). }
  assert (Hv2' : view pg w2' = view pg w1) by (rewrite <- Hv2; unfold w2'; by destruct w2).
  assert (Hv3 : view pg w3 = view pg w1).
  { rewrite Hw3. destruct (nonempty title); [|done].
    by rewrite (view_update_preserved t (setTextContent title)). }
  split_and!.
  - done.
  - done.
  - rewrite Hw2. by destruct w1.
  - rewrite Hw2. destruct w1. unfold hasClass. cbn. rewrite lookup_update, decide_True by done.
    unfold classList_contains, classList_remove. cbn. apply bool_decide_eq_false. set_solver.
  - unfold closed. by rewrite Hv3.
  - rewrite Hw3. unfold w2'. rewrite Hw2. destruct (nonempty title); by destruct w1.
  - rewrite Hw3. unfold w2'. destruct (nonempty title); by destruct w2.
  - rewrite Hw3. unfold w2'. rewrite Hw2. destruct (nonempty title).
    + destruct w1. cbn. by rewrite lookup_update, decide_True.
    + rewrite <- Htext. destruct w1. cbn. rewrite lookup_update. by case_decide; subst.
Qed.

End Recovery.

Lemma init_without_elements_registers_nothing_witness :
  listeners (exec (init sample_page_no_menu sample_config) (new ∅ 1000 768)) = []
  ∧ console (exec (init sample_page_no_menu sample_config) (new ∅ 1000 768))
    = [(warn, "Mobile navigation elements not found")].
Proof.
  destruct (init_without_elements_registers_nothing sample_page_no_menu sample_config
              (new ∅ 1000 768) (Some 1%positive) None [4%positive] None)
    as (_ & _ & Hnil & Hcon & _); [vm_compute; reflexivity ..| by right |].
  split; [apply Hnil; reflexivity | exact Hcon].
Defined.

Lemma forceCloseMenu_closes_and_unblocks_witness :
  isAnimating sample_reinit = true
  ∧ timers sample_reinit = []
  ∧ isAnimating (exec (forceCloseMenu sample_page) sample_reinit) = false
  ∧ view sample_page
      (exec (toggleMenu sample_page sample_config)
         (exec (forceCloseMenu sample_page) sample_reinit))
    = mkView (Some true) (Some "true") (Some "688px") (Some "hidden").
Proof.
  destruct (forceCloseMenu_closes_and_unblocks sample_page sample_config sample_reinit
              1%positive 2%positive) as (_ & Hidle & _ & _ & Hview);
    [vm_compute; reflexivity ..|].
  split_and!; [vm_compute; reflexivity | vm_compute; reflexivity | exact Hidle |].
  etransitivity; [exact Hview|]. vm_compute. reflexivity.
Defined.

Lemma toggleMenu_open_then_close_witness :
  closed sample_page
    (exec (toggleMenu sample_page sample_config)
       (exec (fire sample_page (nextTimer sample_ready))
          (exec (toggleMenu sample_page sample_config) sample_ready))).
Proof.
  destruct (toggleMenu_open_then_close sample_page sample_config sample_ready
              1%positive 2%positive) as (_ & _ & _ & _ & Hclosed);
    [vm_compute; reflexivity ..| |exact Hclosed].
  intros t Hin. replace (timers sample_ready) with (@nil Timer) in Hin
    by (vm_compute; reflexivity).
  by apply elem_of_nil in Hin.
Defined.

Lemma nav_link_click_then_timers_witness :
  textContent
    (nodes (exec (fire sample_page (Pos.succ (nextTimer sample_linked)))
              (exec (fire sample_page (nextTimer sample_linked))
                 (exec (handleNavLinkClick sample_page (click_on 4%positive)) sample_linked)))
     !!! 5%positive)
  = "My First Post".
Proof.
  destruct (nav_link_click_then_timers sample_page (click_on 4%positive) sample_linked
              1%positive 2%positive 5%positive) as (_ & _ & _ & _ & _ & _ & _ & Htitle);
    [vm_compute; reflexivity ..| |].
  - intros t Hin. replace (timers sample_linked) with (@nil Timer) in Hin
      by (vm_compute; reflexivity).
    by apply elem_of_nil in Hin.
  - etransitivity; [exact Htitle|]. vm_compute. reflexivity.
Defined.

End MobileNavigationMore.

(** ** Progressive loader *)

Module ProgressiveLoaderFacts.
Import Js Dom JsFacts ProgressiveLoader.

(** *** The sort of [processQueue] *)

Definition rank (t : LoadingTier) : Z := priorityOrder (priority t).

Definition by_rank (a b : LoadingTier) : Prop := (rank a ≤ rank b)%Z.

Lemma priorityOrder_inj (p q : Priority) : priorityOrder p = priorityOrder q → p = q.
Proof. by destruct p, q. Qed.

Lemma insert_tier_perm (t : LoadingTier) (l : list LoadingTier) :
  insert_tier t l ≡ₚ t :: l.
Proof.
  induction l as [|x l IH]; cbn; [done|].
  destruct (_ <=? _)%Z; [done|]. rewrite IH. apply Permutation_swap.
Qed.

Lemma insert_tier_sorted (t : LoadingTier) (l : list LoadingTier) :
  Sorted by_rank l → Sorted by_rank (insert_tier t l).
Proof.
  induction 1 as [|x l Hl IH Hx]; cbn; [by repeat constructor|].
  destruct (_ <=? _)%Z eqn:Hle.
  - constructor; [by constructor|]. constructor. unfold by_rank, rank. lia.
  - constructor; [done|].
    destruct l as [|y l]; cbn in *.
    + constructor. unfold by_rank, rank. lia.
    + destruct (_ <=? _)%Z; constructor; [unfold by_rank, rank; lia|by inversion Hx].
Qed.

Lemma insert_tier_filter (p : Priority) (t : LoadingTier) (l : list LoadingTier) :
  List.filter (fun x => bool_decide (priority x = p)) (insert_tier t l)
  = if bool_decide (priority t = p)
    then t :: List.filter (fun x => bool_decide (priority x = p)) l
    else List.filter (fun x => bool_decide (priority x = p)) l.
Proof.
  induction l as [|x l IH]; cbn [insert_tier List.filter]; [done|].
  destruct (_ <=? _)%Z eqn:Hle; cbn [List.filter]; [done|].
  rewrite IH. case_bool_decide as Ht; [|done].
  rewrite bool_decide_eq_false_2; [done|].
  intros Hx. apply Z.leb_gt in Hle. rewrite Ht, Hx in Hle. lia.
Qed.

Lemma sort_tiers_stable_sorted_aux (l : list LoadingTier) :
  Sorted by_rank (sort_tiers l)
  ∧ sort_tiers l ≡ₚ l
  ∧ ∀ p, List.filter (fun x => bool_decide (priority x = p)) (sort_tiers l)
         = List.filter (fun x => bool_decide (priority x = p)) l.
Proof.
  induction l as [|t l (Hs & Hp & Hf)]; cbn [sort_tiers foldr]; [by repeat constructor|].
  fold (sort_tiers l). split_and!.
  - by apply insert_tier_sorted.
  - by rewrite insert_tier_perm, Hp.
  - intros p. rewrite insert_tier_filter, Hf. cbn [List.filter]. by case_bool_decide.
Qed.


(** *** Scheduling *)

Section Loader.
Variable cfg : Config.
Variable idle : bool.   (* 'requestIdleCallback' in window *)

(** What the browser is handed for a tier that is not critical. *)
Definition entry (t : LoadingTier) : Scheduled :=
  match priority t with
  | high => mkScheduled (AfterMs 100) (RunLoadTier t)
  | medium =>
      if enableIdleCallback cfg && idle
      then mkScheduled (WhenIdle (timeout t)) (RunLoadTier t)
      else mkScheduled (AfterMs (fallbackDelay cfg)) (RunLoadTier t)
  | _ => mkScheduled (AfterMs 2000) (RunLoadTierWhenIdle t)
  end.

Lemma schedule_tier_spec (t : LoadingTier) (w : World) :
  schedule_tier cfg idle t w
  = (Normal tt, set_scheduled (scheduled w ++ [entry t]) w).
Proof.
  unfold schedule_tier, entry, loadTierWhenIdle, schedule, modify.
  destruct (priority t); try done. by destruct (enableIdleCallback cfg && idle).
Qed.

Lemma forEach_schedule (ts : list LoadingTier) (w : World) :
  forEach ts (schedule_tier cfg idle) w
  = (Normal tt, set_scheduled (scheduled w ++ map entry ts) w).
Proof.
  revert w. induction ts as [|t ts IH]; intros w; cbn [forEach map].
  - rewrite app_nil_r. by destruct w.
  - rewrite bind_apply, schedule_tier_spec, IH. destruct w; cbn.
    by rewrite <- app_assoc.
Qed.

Lemma continue_nil (r : ref) (w : World) :
  processQueue_continue cfg idle r [] w
  = (Normal tt,
     set_isProcessing false
       (set_scheduled
          (scheduled w ++ map entry (List.filter (fun t => negb (is_critical t)) (array r w)))
          w)).
Proof.
  unfold processQueue_continue. rewrite bind_gets, bind_apply, forEach_schedule.
  reflexivity.
Qed.

Lemma continue_cons (r : ref) (t : LoadingTier) (ts : list LoadingTier) (w : World) :
  processQueue_continue cfg idle r (t :: ts) w
  = (Normal tt,
     set_started (started w ++ [loadFunction t])
       (set_pending (pending w ++ [mkPending t (Some (mkPass r ts))]) w)).
Proof. reflexivity. Qed.

(** The queue and the loaded set after a [loadTier] call finished. *)
Definition settled_queue (t : LoadingTier) (ok : bool) (q : list LoadingTier)
    : list LoadingTier :=
  if ok then List.filter (fun x => bool_decide (name x ≠ name t)) q else q.

Definition settled_loaded (t : LoadingTier) (ok : bool) (s : list string) : list string :=
  if ok then set_add (name t) s else s.

Lemma queue_fresh (l : list LoadingTier) (w : World) :
  queue (set_loadingQueue (nextRef w)
           (set_nextRef (Pos.succ (nextRef w))
              (set_arrays (<[nextRef w := l]> (arrays w)) w))) = l.
Proof. destruct w. unfold queue. cbn. by rewrite lookup_insert_eq. Qed.

Definition after_load (t : LoadingTier) (ok : bool) (w : World) : World :=
  if ok then
    set_console (console w ++ [(debug, "Loaded tier")])
      (set_loadingQueue (nextRef w)
         (set_nextRef (Pos.succ (nextRef w))
            (set_arrays (<[nextRef w := settled_queue t true (queue w)]> (arrays w))
               (set_loadedTiers (set_add (name t) (loadedTiers w)) w))))
  else set_console (console w ++ [(warn, "Failed to load tier")]) w.

Lemma loadTier_settled_spec (t : LoadingTier) (ok : bool) (w : World) :
  loadTier_settled t ok w = (Normal tt, after_load t ok w).
Proof. destruct ok; [|done]. by destruct w. Qed.

Lemma after_load_facts (t : LoadingTier) (ok : bool) (w : World) :
  let w' := after_load t ok w in
  queue w' = settled_queue t ok (queue w)
  ∧ loadedTiers w' = settled_loaded t ok (loadedTiers w)
  ∧ scheduled w' = scheduled w ∧ pending w' = pending w
  ∧ started w' = started w ∧ isProcessing w' = isProcessing w
  ∧ (nextRef w ≤ nextRef w')%positive
  ∧ (∀ r, (r < nextRef w)%positive → array r w' = array r w).
Proof.
  destruct w as [ar nr lq ip lt sc pe st co].
  destruct ok; unfold after_load, settled_queue, settled_loaded, queue, array; cbn.
  - rewrite lookup_insert_eq. split_and!; try done; try lia.
    intros r Hr. rewrite lookup_insert_ne; [done|lia].
  - split_and!; try done; lia.
Qed.

Lemma settle_spec (i : nat) (ok : bool) (p : Pending) (w : World) :
  pending w !! i = Some p →
  settle cfg idle i ok w
  = match p_pass p with
    | Some pass => processQueue_continue cfg idle (sortedQueue pass) (rest pass)
    | None => ret tt
    end (after_load (p_tier p) ok (set_pending (delete i (pending w)) w)).
Proof.
  intros Hp. unfold settle. rewrite bind_gets, Hp, bind_modify, bind_apply.
  by rewrite loadTier_settled_spec.
Qed.

Lemma exec_bind {A B : Type} (m : M World A) (k : A → M World B) (w w1 : World) (a : A) :
  m w = (Normal a, w1) → exec (bind m k) w = exec (k a) w1.
Proof. intros H. unfold exec. by rewrite bind_apply, H. Qed.

(** *** One pass of [processQueue], with nothing else running *)

(** The load promises of the pass settle one after the other. *)
Fixpoint drive (outcomes : list bool) : M World unit :=
  match outcomes with
  | [] => ret tt
  | ok :: rest => bind (settle cfg idle 0 ok) (fun _ => drive rest)
  end.







(** [processQueue] up to its first [await]. *)
Definition sorted_world (w : World) : World :=
  set_arrays (<[loadingQueue w := sort_tiers (queue w)]> (arrays w)) (set_isProcessing true w).

Lemma sorted_world_facts (w : World) :
  queue (sorted_world w) = sort_tiers (queue w)
  ∧ array (loadingQueue w) (sorted_world w) = sort_tiers (queue w)
  ∧ loadedTiers (sorted_world w) = loadedTiers w
  ∧ pending (sorted_world w) = pending w ∧ started (sorted_world w) = started w
  ∧ scheduled (sorted_world w) = scheduled w ∧ nextRef (sorted_world w) = nextRef w
  ∧ loadingQueue (sorted_world w) = loadingQueue w.
Proof.
  destruct w as [ar nr lq ip lt sc pe st co]. unfold sorted_world, queue, array. cbn.
  by rewrite lookup_insert_eq.
Qed.

Lemma processQueue_blocked (w : World) :
  isProcessing w = true ∨ queue w = [] → processQueue cfg idle w = (Normal tt, w).
Proof.
  intros Hb. unfold processQueue. rewrite !bind_gets.
  destruct Hb as [-> | ->]; [done|]. by rewrite orb_true_r.
Qed.

Lemma processQueue_starts (w : World) :
  isProcessing w = false → queue w ≠ [] →
  processQueue cfg idle w
  = processQueue_continue cfg idle (loadingQueue w)
      (List.filter is_critical (sort_tiers (queue w))) (sorted_world w).
Proof.
  intros Hidle Hq. destruct w as [ar nr lq ip lt sc pe st co]. cbn in Hidle. subst ip.
  unfold processQueue. rewrite !bind_gets. cbn [isProcessing orb].
  rewrite bool_decide_eq_false_2 by (by destruct (queue _)).
  rewrite !bind_modify, !bind_gets. unfold sorted_world, array, queue. cbn.
  by rewrite lookup_insert_eq.
Qed.

Lemma filter_critical_sort (q : list LoadingTier) :
  List.filter is_critical (sort_tiers q) = List.filter is_critical q.
Proof. apply (proj2 (proj2 (sort_tiers_stable_sorted_aux q))). Qed.

(** While a critical load of the pass is pending, nothing is scheduled and
    the loader stays busy. *)
Lemma continue_drive_prefix (cs : list LoadingTier) :
  ∀ (outcomes : list bool) (w : World) (r : ref),
    (length outcomes < length cs)%nat → pending w = [] →
    let w' := exec (bind (processQueue_continue cfg idle r cs) (fun _ => drive outcomes)) w in
    scheduled w' = scheduled w ∧ isProcessing w' = isProcessing w
    ∧ pending w' = [mkPending (nth (length outcomes) cs (mkTier "" low 0 0))
                      (Some (mkPass r (drop (S (length outcomes)) cs)))]
    ∧ started w' = (started w ++ map loadFunction (take (S (length outcomes)) cs))%list.
Proof.
  induction cs as [|c cs IH]; intros outcomes w r Hlen Hpend w'; [cbn in Hlen; lia|].
  unfold w'. rewrite (exec_bind _ _ _ _ _ (continue_cons r c cs w)).
  destruct outcomes as [|ok outcomes].
  - unfold exec. cbn [drive ret snd length nth drop take map]. rewrite drop_0, take_0.
    destruct w. cbn in *. by rewrite Hpend.
  - cbn [drive]. set (w1 := set_started _ _).
    assert (Hp1 : pending w1 !! 0%nat = Some (mkPending c (Some (mkPass r cs)))).
    { unfold w1. destruct w. cbn in *. by rewrite Hpend. }
    unfold exec. rewrite bind_apply, (settle_spec _ _ _ _ Hp1).
    cbn [p_pass p_tier sortedQueue rest].
    set (w2 := after_load c ok _).
    destruct (after_load_facts c ok (set_pending (delete 0%nat (pending w1)) w1))
      as (_ & _ & Hsc & Hpe & Hst & Hip & _ & _).
    fold w2 in Hsc, Hpe, Hst, Hip.
    assert (Hpend2 : pending w2 = []).
    { rewrite Hpe. unfold w1. destruct w. cbn in *. by rewrite Hpend. }
    assert (Hlen2 : (length outcomes < length cs)%nat) by (cbn in Hlen; lia).
    specialize (IH outcomes w2 r Hlen2 Hpend2). cbv zeta in IH. unfold exec in IH.
    rewrite bind_apply in IH.
    destruct (processQueue_continue cfg idle r cs w2) as [[[]|err] w3] eqn:Hc.
    2:{ exfalso. destruct cs; [by rewrite continue_nil in Hc|by rewrite continue_cons in Hc]. }
    destruct IH as (Hsc' & Hip' & Hpe' & Hst').
    cbn [length nth drop take map].
    split_and!.
    + rewrite Hsc', Hsc. unfold w1. by destruct w.
    + rewrite Hip', Hip. unfold w1. by destruct w.
    + done.
    + rewrite Hst', Hst. unfold w1. destruct w. cbn. by rewrite <- app_assoc.
Qed.




(** X10: as long as a critical load of the pass is pending, no other tier has
    been handed to the browser and the loader is busy. *)
Theorem critical_pending_blocks_scheduling (w : World) (outcomes : list bool) :
  isProcessing w = false → pending w = [] → queue w ≠ [] →
  (length outcomes < length (List.filter is_critical (queue w)))%nat →
  let w' := exec (bind (processQueue cfg idle) (fun _ => drive outcomes)) w in
  scheduled w' = scheduled w ∧ isProcessing w' = true ∧ length (pending w') = 1%nat
  ∧ started w'
    = (started w
       ++ map loadFunction (take (S (length outcomes)) (List.filter is_critical (queue w))))%list.
Proof.
  intros Hidle Hpend Hq Hlen w'.
  destruct (sorted_world_facts w) as (_ & _ & _ & Hsp & Hss & Hssc & _ & _).
  assert (Hw' : w' = exec (bind (processQueue_continue cfg idle (loadingQueue w)
                                   (List.filter is_critical (queue w)))
                             (fun _ => drive outcomes)) (sorted_world w)).
  { unfold w', exec. rewrite !bind_apply, processQueue_starts by done.
    by rewrite filter_critical_sort. }
  rewrite Hw'.
  destruct (continue_drive_prefix _ outcomes (sorted_world w) (loadingQueue w) Hlen)
    as (H1 & H2 & H3 & H4); [by rewrite Hsp|].
  rewrite H1, H2, H3, H4, Hss, Hssc. split_and!; try done; by destruct w.
Qed.

(** *** [addTier] *)

Definition pushed (t : LoadingTier) (w : World) : World :=
  set_arrays (<[loadingQueue w := (queue w ++ [t])%list]> (arrays w)) w.

Lemma pushed_facts (t : LoadingTier) (w : World) :
  queue (pushed t w) = (queue w ++ [t])%list
  ∧ loadedTiers (pushed t w) = loadedTiers w ∧ isProcessing (pushed t w) = isProcessing w
  ∧ pending (pushed t w) = pending w ∧ started (pushed t w) = started w
  ∧ scheduled (pushed t w) = scheduled w ∧ nextRef (pushed t w) = nextRef w
  ∧ loadingQueue (pushed t w) = loadingQueue w ∧ console (pushed t w) = console w.
Proof.
  destruct w as [ar nr lq ip lt sc pe st co]. unfold pushed, queue. cbn.
  by rewrite lookup_insert_eq.
Qed.

Lemma addTier_loaded (t : LoadingTier) (w : World) :
  name t ∈ loadedTiers w → addTier cfg idle t w = (Normal tt, w).
Proof.
  intros Hin. unfold addTier. rewrite bind_gets. by rewrite bool_decide_eq_true_2.
Qed.

Lemma addTier_new (t : LoadingTier) (w : World) :
  name t ∉ loadedTiers w → addTier cfg idle t w = processQueue cfg idle (pushed t w).
Proof.
  intros Hin. unfold addTier. rewrite bind_gets. rewrite bool_decide_eq_false_2 by done.
  by rewrite bind_modify.
Qed.

(** A tier added while the loader awaits a critical load is only pushed. *)
Lemma addTier_busy (t : LoadingTier) (w : World) :
  name t ∉ loadedTiers w → isProcessing w = true →
  addTier cfg idle t w = (Normal tt, pushed t w).
Proof.
  intros Hin Hbusy. rewrite addTier_new by done. apply processQueue_blocked. left.
  by rewrite (proj1 (proj2 (proj2 (pushed_facts t w)))).
Qed.

(** X11: a critical tier is added to an idle, empty loader, and a second tier
    [x] while the first one loads.  When the load settles, [x] is handed to
    the browser if it is not critical.  If [x] is critical, its load function
    is not called and nothing is scheduled for it: it stays queued, with the
    loader idle again, until some later [addTier] starts a new pass. *)
Theorem tier_added_while_loading (c x : LoadingTier) (ok : bool) (w : World) :
  isProcessing w = false → pending w = [] → queue w = [] →
  (loadingQueue w < nextRef w)%positive →
  priority c = critical → name c ∉ loadedTiers w → name x ∉ loadedTiers w →
  let w' := exec (bind (addTier cfg idle c)
                    (fun _ => bind (addTier cfg idle x) (fun _ => settle cfg idle 0 ok))) w in
  started w' = (started w ++ [loadFunction c])%list
  ∧ scheduled w' = (scheduled w ++ if is_critical x then [] else [entry x])%list
  ∧ queue w' = settled_queue c ok [c; x]
  ∧ loadedTiers w' = settled_loaded c ok (loadedTiers w)
  ∧ isProcessing w' = false ∧ pending w' = [].
Proof.
  intros Hidle Hpend Hq Hwf Hc Hnc Hnx w'.
  (* first addTier: the pass starts and awaits [c] *)
  destruct (pushed_facts c w) as (Hq1 & Hl1 & Hi1 & Hp1 & Hs1 & Hsc1 & Hn1 & Hlq1 & _).
  rewrite Hq in Hq1. cbn in Hq1.
  set (w1 := sorted_world (pushed c w)).
  destruct (sorted_world_facts (pushed c w)) as (Hq2 & Ha2 & Hl2 & Hp2 & Hs2 & Hsc2 & Hn2 & Hlq2).
  fold w1 in Hq2, Ha2, Hl2, Hp2, Hs2, Hsc2, Hn2, Hlq2.
  rewrite Hq1 in Hq2, Ha2. cbn in Hq2, Ha2.
  assert (Hcrit : is_critical c = true) by (unfold is_critical; by rewrite bool_decide_eq_true_2).
  set (r := loadingQueue w) in *.
  set (w2 := set_started (started w1 ++ [loadFunction c])
               (set_pending (pending w1 ++ [mkPending c (Some (mkPass r []))]) w1)).
  assert (Hadd1 : addTier cfg idle c w = (Normal tt, w2)).
  { rewrite addTier_new by done. rewrite processQueue_starts; [|by rewrite Hi1|by rewrite Hq1].
    rewrite Hq1. cbn [sort_tiers foldr insert_tier List.filter]. rewrite Hcrit.
    rewrite Hlq1. fold w1. apply continue_cons. }
  (* second addTier: busy, so [x] is only pushed *)
  assert (Hw2 : queue w2 = [c] ∧ loadedTiers w2 = loadedTiers w ∧ isProcessing w2 = true
                ∧ pending w2 = [mkPending c (Some (mkPass r []))]
                ∧ started w2 = (started w ++ [loadFunction c])%list
                ∧ scheduled w2 = scheduled w ∧ nextRef w2 = nextRef w ∧ loadingQueue w2 = r).
  { unfold w2. split_and!.
    - rewrite <- Hq2. unfold queue. by destruct w1.
    - rewrite <- Hl1, <- Hl2. by destruct w1.
    - unfold w1, sorted_world. by destruct (pushed c w).
    - replace (pending w1) with (@nil Pending) by (by rewrite Hp2, Hp1, Hpend). by destruct w1.
    - rewrite <- Hs1, <- Hs2. by destruct w1.
    - rewrite <- Hsc1, <- Hsc2. by destruct w1.
    - rewrite <- Hn1, <- Hn2. by destruct w1.
    - rewrite <- Hlq1, <- Hlq2. by destruct w1. }
  destruct Hw2 as (Hq3 & Hl3 & Hi3 & Hp3 & Hs3 & Hsc3 & Hn3 & Hlq3).
  set (w3 := pushed x w2).
  assert (Hadd2 : addTier cfg idle x w2 = (Normal tt, w3)).
  { apply addTier_busy; [by rewrite Hl3|done]. }
  destruct (pushed_facts x w2) as (Hq4 & Hl4 & Hi4 & Hp4 & Hs4 & Hsc4 & Hn4 & Hlq4 & _).
  fold w3 in Hq4, Hl4, Hi4, Hp4, Hs4, Hsc4, Hn4, Hlq4.
  rewrite Hq3 in Hq4. cbn in Hq4.
  (* the load settles *)
  assert (Hp5 : pending w3 !! 0%nat = Some (mkPending c (Some (mkPass r [])))).
  { by rewrite Hp4, Hp3. }
  set (w4 := after_load c ok (set_pending (delete 0%nat (pending w3)) w3)).
  assert (Hset : settle cfg idle 0 ok w3 = processQueue_continue cfg idle r [] w4).
  { by rewrite (settle_spec _ _ _ _ Hp5). }
  destruct (after_load_facts c ok (set_pending (delete 0%nat (pending w3)) w3))
    as (Hq6 & Hl6 & Hsc6 & Hp6 & Hs6 & Hi6 & _ & Ha6).
  fold w4 in Hq6, Hl6, Hsc6, Hp6, Hs6, Hi6, Ha6.
  assert (Harr : array r w4 = [c; x]).
  { rewrite Ha6.
    - rewrite <- Hq4. unfold array, queue. rewrite Hlq4, Hlq3. by destruct w3.
    - replace (nextRef (set_pending (delete 0%nat (pending w3)) w3)) with (nextRef w)
        by (rewrite <- Hn3, <- Hn4; by destruct w3).
      exact Hwf. }
  assert (Hw' : w' = snd (processQueue_continue cfg idle r [] w4)).
  { unfold w'. rewrite (exec_bind _ _ _ _ _ Hadd1), (exec_bind _ _ _ _ _ Hadd2).
    unfold exec. by rewrite Hset. }
  rewrite Hw', continue_nil, Harr. cbn [snd List.filter]. rewrite Hcrit. cbn [negb].
  split_and!.
  - transitivity (started w4); [by destruct w4|]. rewrite Hs6, <- Hs3, <- Hs4. by destruct w3.
  - transitivity (scheduled w4 ++ map entry (if negb (is_critical x) then [x] else []))%list;
      [by destruct w4|].
    rewrite Hsc6. replace (scheduled (set_pending (delete 0%nat (pending w3)) w3))
      with (scheduled w) by (rewrite <- Hsc3, <- Hsc4; by destruct w3).
    by destruct (is_critical x).
  - transitivity (queue w4); [unfold queue; by destruct w4|]. rewrite Hq6.
    replace (queue (set_pending (delete 0%nat (pending w3)) w3)) with [c; x]
      by (rewrite <- Hq4; unfold queue; by destruct w3).
    done.
  - transitivity (loadedTiers w4); [by destruct w4|]. rewrite Hl6.
    replace (loadedTiers (set_pending (delete 0%nat (pending w3)) w3)) with (loadedTiers w)
      by (rewrite <- Hl3, <- Hl4; by destruct w3).
    done.
  - by destruct w4.
  - transitivity (pending w4); [by destruct w4|]. rewrite Hp6.
    transitivity (delete 0%nat (pending w3)); [by destruct w3|]. by rewrite Hp4, Hp3.
Qed.

(** *** What a settled load leaves *)

Lemma continue_frame (r : ref) (cs : list LoadingTier) (w : World) :
  ∃ w', processQueue_continue cfg idle r cs w = (Normal tt, w')
        ∧ queue w' = queue w ∧ loadedTiers w' = loadedTiers w ∧ console w' = console w.
Proof.
  destruct cs as [|c cs]; [rewrite continue_nil|rewrite continue_cons];
    eexists; (split; [reflexivity|]); unfold queue; by destruct w.
Qed.

Lemma settle_frame (i : nat) (ok : bool) (p : Pending) (w : World) :
  pending w !! i = Some p →
  ∃ w', settle cfg idle i ok w = (Normal tt, w')
        ∧ queue w' = settled_queue (p_tier p) ok (queue w)
        ∧ loadedTiers w' = settled_loaded (p_tier p) ok (loadedTiers w)
        ∧ console w' = (console w ++ [if ok then (debug, "Loaded tier")
                                      else (warn, "Failed to load tier")])%list.
Proof.
  intros Hp. rewrite (settle_spec _ _ _ _ Hp).
  set (w0 := set_pending (delete i (pending w)) w).
  destruct (after_load_facts (p_tier p) ok w0) as (Hq & Hl & _).
  assert (Hcon : console (after_load (p_tier p) ok w0)
                 = (console w ++ [if ok then (debug, "Loaded tier")
                                  else (warn, "Failed to load tier")])%list).
  { unfold w0, after_load. destruct ok; by destruct w. }
  assert (Hq0 : queue w0 = queue w) by (unfold w0, queue; by destruct w).
  assert (Hl0 : loadedTiers w0 = loadedTiers w) by (unfold w0; by destruct w).
  destruct (p_pass p) as [pass|].
  - destruct (continue_frame (sortedQueue pass) (rest pass) (after_load (p_tier p) ok w0))
      as (w' & -> & Hq' & Hl' & Hc').
    exists w'. by rewrite Hq', Hl', Hc', Hq, Hl, Hcon, Hq0, Hl0.
  - eexists. split; [reflexivity|]. by rewrite Hq, Hl, Hcon, Hq0, Hl0.
Qed.

Lemma elem_of_set_add (x y : string) (s : list string) :
  x ∈ set_add y s ↔ x = y ∨ x ∈ s.
Proof.
  unfold set_add. case_bool_decide.
  - split; [by right|]. by intros [->|?].
  - rewrite elem_of_app, list_elem_of_singleton. tauto.
Qed.

(** X12: when the load of a tier succeeds, its name is recorded, no tier of that
    name stays queued, and [addTier] ignores every later tier of that name.
    When it fails, the queue and the loaded set are as before (the tier stays
    queued) and a warning is logged. *)
Theorem settled_load_outcome (i : nat) (p : Pending) (w : World) :
  pending w !! i = Some p →
  let won := exec (settle cfg idle i true) w in
  let lost := exec (settle cfg idle i false) w in
  name (p_tier p) ∈ loadedTiers won
  ∧ (∀ x, x ∈ queue won → name x ≠ name (p_tier p))
  ∧ (∀ t, name t = name (p_tier p) → addTier cfg idle t won = (Normal tt, won))
  ∧ queue lost = queue w ∧ loadedTiers lost = loadedTiers w
  ∧ console lost = (console w ++ [(warn, "Failed to load tier")])%list.
Proof.
  intros Hp won lost.
  destruct (settle_frame i true p w Hp) as (w1 & Hs1 & Hq1 & Hl1 & _).
  destruct (settle_frame i false p w Hp) as (w2 & Hs2 & Hq2 & Hl2 & Hc2).
  assert (Hwon : won = w1) by (unfold won, exec; by rewrite Hs1).
  assert (Hlost : lost = w2) by (unfold lost, exec; by rewrite Hs2).
  rewrite Hwon, Hlost.
  assert (Hin : name (p_tier p) ∈ loadedTiers w1).
  { rewrite Hl1. apply elem_of_set_add. by left. }
  split_and!; try done.
  - intros x. rewrite Hq1. cbn [settled_queue]. rewrite list_elem_of_In. intros Hx.
    apply List.filter_In in Hx as [_ Hx]. by apply bool_decide_eq_true_1 in Hx.
  - intros t Ht. apply addTier_loaded. by rewrite Ht.
Qed.

(** *** An invariant of the loader *)

(** What can happen to a loader: a tier is added, a load promise settles,
    the browser runs a callback it holds, or [cleanup] is called. *)
Inductive step : World → World → Prop :=
| step_addTier (t : LoadingTier) (w : World) : step w (exec (addTier cfg idle t) w)
| step_settle (i : nat) (ok : bool) (w : World) : step w (exec (settle cfg idle i ok) w)
| step_run (i : nat) (w : World) : step w (exec (run_scheduled cfg idle i) w)
| step_cleanup (w : World) : step w (exec cleanup w).

Inductive reachable : World → Prop :=
| reachable_new : reachable new
| reachable_step (w w' : World) : reachable w → step w w' → reachable w'.

Definition Inv (w : World) : Prop :=
  NoDup (loadedTiers w) ∧ ∀ t, t ∈ queue w → name t ∉ loadedTiers w.

Lemma Inv_ext (w w' : World) :
  loadedTiers w' = loadedTiers w → (∀ t, t ∈ queue w' → t ∈ queue w) → Inv w → Inv w'.
Proof.
  intros Hl Hq [Hnd Hdis]. split; rewrite Hl; [done|]. intros t Ht. by apply Hdis, Hq.
Qed.

Lemma NoDup_set_add (x : string) (s : list string) : NoDup s → NoDup (set_add x s).
Proof.
  intros Hnd. unfold set_add. case_bool_decide as Hin; [done|].
  apply NoDup_app. split_and!; [done| |apply NoDup_singleton].
  intros y Hy Hy'. apply list_elem_of_singleton in Hy'. by subst.
Qed.

Lemma processQueue_Inv (w : World) : Inv w → Inv (exec (processQueue cfg idle) w).
Proof.
  intros HI. destruct (isProcessing w) eqn:Hb.
  { unfold exec. rewrite processQueue_blocked by (by left). done. }
  destruct (decide (queue w = [])) as [Hq|Hq].
  { unfold exec. rewrite processQueue_blocked by (by right). done. }
  unfold exec. rewrite processQueue_starts by done.
  destruct (continue_frame (loadingQueue w) (List.filter is_critical (sort_tiers (queue w)))
              (sorted_world w)) as (w' & -> & Hq' & Hl' & _).
  destruct (sorted_world_facts w) as (Hsq & _ & Hsl & _).
  cbn [snd]. apply (Inv_ext w); [by rewrite Hl', Hsl| |done].
  intros t. rewrite Hq', Hsq.
  by rewrite (proj1 (proj2 (sort_tiers_stable_sorted_aux (queue w)))).
Qed.

Lemma step_Inv (w w' : World) : step w w' → Inv w → Inv w'.
Proof.
  intros Hstep HI. destruct Hstep as [t w|i ok w|i w|w].
  - destruct (decide (name t ∈ loadedTiers w)) as [Hin|Hin].
    + unfold exec. by rewrite addTier_loaded.
    + unfold exec. rewrite addTier_new by done. apply processQueue_Inv.
      destruct (pushed_facts t w) as (Hq & Hl & _). destruct HI as [Hnd Hdis].
      split; rewrite Hl; [done|]. intros x. rewrite Hq, elem_of_app, list_elem_of_singleton.
      intros [Hx| ->]; [by apply Hdis|done].
  - destruct (pending w !! i) as [p|] eqn:Hp.
    + destruct (settle_frame i ok p w Hp) as (w' & Hs & Hq & Hl & _).
      unfold exec. rewrite Hs. cbn [snd]. destruct HI as [Hnd Hdis].
      destruct ok; cbn [settled_queue settled_loaded] in Hq, Hl.
      * split; rewrite Hl; [by apply NoDup_set_add|].
        intros x. rewrite Hq, list_elem_of_In. intros Hx.
        apply List.filter_In in Hx as [Hx Hne]. apply bool_decide_eq_true_1 in Hne.
        rewrite elem_of_set_add. intros [?|Hin]; [done|].
        by apply (Hdis x); [apply list_elem_of_In|].
      * apply (Inv_ext w); [done| |done]. intros x. by rewrite Hq.
    + unfold exec, settle. by rewrite bind_gets, Hp.
  - unfold exec, run_scheduled. rewrite bind_gets.
    destruct (scheduled w !! i) as [s|]; [|done]. rewrite bind_modify.
    apply (Inv_ext w); [| |done].
    + destruct (s_task s); unfold loadTier, loadTierWhenIdle, schedule, modify;
        try destruct (enableIdleCallback cfg && idle); by destruct w.
    + intros x. unfold queue.
      destruct (s_task s); unfold loadTier, loadTierWhenIdle, schedule, modify;
        try destruct (enableIdleCallback cfg && idle); by destruct w.
  - split.
    + destruct w. cbn. apply NoDup_nil_2.
    + intros t. destruct w as [ar nr lq ip lt sc pe st co]. unfold queue. cbn.
      rewrite lookup_insert_eq. cbn. by intros ?%elem_of_nil.
Qed.

(** X13: however tiers are added, loads settle, callbacks run and [cleanup] is
    called: in [getStatus()] no name is listed twice as loaded, and no name
    is both loaded and queued. *)
Theorem status_loaded_and_queued_disjoint (w : World) :
  reachable w →
  let s := getStatus w in
  NoDup (st_loaded s) ∧ (∀ n, n ∈ st_loaded s → n ∉ st_queued s)
  ∧ st_total s = (length (st_loaded s) + length (st_queued s))%nat.
Proof.
  intros Hr. assert (HI : Inv w).
  { induction Hr as [|w w' _ IH Hstep]; [|by eapply step_Inv].
    split; [apply NoDup_nil_2|]. intros t. unfold queue, new. cbn.
    rewrite lookup_singleton_eq. cbn. by intros ?%elem_of_nil. }
  destruct HI as [Hnd Hdis]. unfold getStatus. cbn. split_and!; [done| |by rewrite length_map].
  intros n Hn Hq. apply list_elem_of_fmap in Hq as (t & -> & Ht). by apply (Hdis t).
Qed.

Lemma filter_noncritical_all (l : list LoadingTier) :
  (∀ t, t ∈ l → priority t ≠ critical) →
  List.filter (fun t => negb (is_critical t)) l = l
  ∧ List.filter is_critical l = [].
Proof.
  induction l as [|x l IH]; intros Hall; cbn; [done|].
  assert (Hx : is_critical x = false).
  { unfold is_critical. apply bool_decide_eq_false_2, Hall, elem_of_cons. by left. }
  rewrite Hx. cbn. destruct IH as [-> ->]; [|done].
  intros t Ht. apply Hall, elem_of_cons. by right.
Qed.

Lemma processQueue_no_critical (w : World) :
  isProcessing w = false → queue w ≠ [] → (∀ t, t ∈ queue w → priority t ≠ critical) →
  processQueue cfg idle w
  = (Normal tt,
     set_isProcessing false
       (set_scheduled (scheduled (sorted_world w) ++ map entry (sort_tiers (queue w)))
          (sorted_world w))).
Proof.
  intros Hidle Hq Hall. rewrite processQueue_starts by done.
  assert (Hsorted : ∀ t, t ∈ sort_tiers (queue w) → priority t ≠ critical).
  { intros t. rewrite (proj1 (proj2 (sort_tiers_stable_sorted_aux (queue w)))). apply Hall. }
  destruct (filter_noncritical_all _ Hsorted) as [Hn Hc].
  rewrite Hc, continue_nil.
  destruct (sorted_world_facts w) as (_ & -> & _). by rewrite Hn.
Qed.

(** X14: a tier that is not critical stays queued after it was handed to the
    browser, so the pass started by the next [addTier] hands it over again:
    after two such tiers were added to an idle, empty loader, the first is
    scheduled twice. *)
Theorem queued_tier_is_scheduled_again (m1 m2 : LoadingTier) (w : World) :
  isProcessing w = false → queue w = [] →
  priority m1 ≠ critical → priority m2 ≠ critical →
  name m1 ∉ loadedTiers w → name m2 ∉ loadedTiers w →
  let w' := exec (bind (addTier cfg idle m1) (fun _ => addTier cfg idle m2)) w in
  scheduled w' = (scheduled w ++ [entry m1] ++ map entry (sort_tiers [m1; m2]))%list
  ∧ queue w' = sort_tiers [m1; m2] ∧ started w' = started w ∧ isProcessing w' = false.
Proof.
  intros Hidle Hq Hm1 Hm2 Hn1 Hn2 w'.
  destruct (pushed_facts m1 w) as (Hq1 & Hl1 & Hi1 & _ & Hs1 & Hsc1 & _).
  rewrite Hq in Hq1. cbn in Hq1.
  destruct (sorted_world_facts (pushed m1 w)) as (Hq2 & _ & Hl2 & _ & Hs2 & Hsc2 & _).
  rewrite Hq1 in Hq2. cbn in Hq2.
  set (w1 := set_isProcessing false
               (set_scheduled (scheduled (sorted_world (pushed m1 w)) ++ map entry [m1])
                  (sorted_world (pushed m1 w)))).
  assert (Hadd1 : addTier cfg idle m1 w = (Normal tt, w1)).
  { rewrite addTier_new by done. rewrite processQueue_no_critical.
    - by rewrite Hq1.
    - by rewrite Hi1.
    - by rewrite Hq1.
    - intros t. rewrite Hq1, list_elem_of_singleton. by intros ->. }
  assert (Hw1 : queue w1 = [m1] ∧ loadedTiers w1 = loadedTiers w ∧ isProcessing w1 = false
                ∧ started w1 = started w
                ∧ scheduled w1 = (scheduled w ++ [entry m1])%list).
  { unfold w1. split_and!.
    - rewrite <- Hq2. unfold queue. by destruct (sorted_world (pushed m1 w)).
    - rewrite <- Hl1, <- Hl2. by destruct (sorted_world (pushed m1 w)).
    - by destruct (sorted_world (pushed m1 w)).
    - rewrite <- Hs1, <- Hs2. by destruct (sorted_world (pushed m1 w)).
    - rewrite <- Hsc1, <- Hsc2. by destruct (sorted_world (pushed m1 w)). }
  destruct Hw1 as (Hq3 & Hl3 & Hi3 & Hs3 & Hsc3).
  destruct (pushed_facts m2 w1) as (Hq4 & Hl4 & Hi4 & _ & Hs4 & Hsc4 & _).
  rewrite Hq3 in Hq4. cbn in Hq4.
  destruct (sorted_world_facts (pushed m2 w1)) as (Hq5 & _ & _ & _ & Hs5 & Hsc5 & _).
  rewrite Hq4 in Hq5.
  assert (Hadd2 : addTier cfg idle m2 w1
                  = (Normal tt,
                     set_isProcessing false
                       (set_scheduled (scheduled (sorted_world (pushed m2 w1))
                                       ++ map entry (sort_tiers [m1; m2]))
                          (sorted_world (pushed m2 w1))))).
  { rewrite addTier_new by (by rewrite Hl3). rewrite processQueue_no_critical.
    - by rewrite Hq4.
    - by rewrite Hi4.
    - by rewrite Hq4.
    - intros t. rewrite Hq4, elem_of_cons, list_elem_of_singleton. by intros [-> | ->]. }
  unfold w'. rewrite (exec_bind _ _ _ _ _ Hadd1). unfold exec. rewrite Hadd2. cbn [snd].
  split_and!.
  - transitivity (scheduled (sorted_world (pushed m2 w1)) ++ map entry (sort_tiers [m1; m2]))%list;
      [by destruct (sorted_world (pushed m2 w1))|].
    rewrite Hsc5, Hsc4, Hsc3. by rewrite <- app_assoc.
  - rewrite <- Hq5. unfold queue. by destruct (sorted_world (pushed m2 w1)).
  - rewrite <- Hs3, <- Hs4, <- Hs5. by destruct (sorted_world (pushed m2 w1)).
  - by destruct (sorted_world (pushed m2 w1)).
Qed.

End Loader.


Lemma critical_pending_blocks_scheduling_witness :
  scheduled (exec (bind (processQueue initProgressiveLoader_config true)
                     (fun _ => drive initProgressiveLoader_config true [])) sample_queued)
  = [].
Proof.
  destruct (critical_pending_blocks_scheduling initProgressiveLoader_config true
              sample_queued []) as (Hsched & _); [done | done | done | vm_compute; lia |].
  exact Hsched.
Defined.

Lemma tier_added_while_loading_witness :
  let w' := exec (bind (addTier initProgressiveLoader_config true sample_video)
                    (fun _ => bind (addTier initProgressiveLoader_config true
                                      (createLoadingTiers_critical "fonts" 7))
                                (fun _ => settle initProgressiveLoader_config true 0 true)))
              new in
  started w' = [0%nat] ∧ scheduled w' = [] ∧ isProcessing w' = false
  ∧ queue w' = [createLoadingTiers_critical "fonts" 7].
Proof.
  destruct (tier_added_while_loading initProgressiveLoader_config true sample_video
              (createLoadingTiers_critical "fonts" 7) true new)
    as (Hst & Hsc & Hq & _ & Hidle & _);
    [done | done | done | done | done | by intros ?%elem_of_nil | by intros ?%elem_of_nil |].
  split_and!; [exact Hst | exact Hsc | exact Hidle | exact Hq].
Defined.

Lemma settled_load_outcome_witness :
  "video-background" ∈ loadedTiers (exec (settle initProgressiveLoader_config true 0 true)
                                      sample_loading)
  ∧ queue (exec (settle initProgressiveLoader_config true 0 false) sample_loading)
    = queue sample_loading.
Proof.
  destruct (settled_load_outcome initProgressiveLoader_config true 0
              (mkPending sample_video (Some (mkPass 1%positive []))) sample_loading)
    as (Hin & _ & _ & Hq & _); [done|].
  split; [exact Hin | exact Hq].
Defined.

Lemma queued_tier_is_scheduled_again_witness :
  length (scheduled (exec (bind (addTier initProgressiveLoader_config true sample_images)
                             (fun _ => addTier initProgressiveLoader_config true sample_nav))
                       new)) = 3%nat.
Proof.
  destruct (queued_tier_is_scheduled_again initProgressiveLoader_config true
              sample_images sample_nav new) as (Hsc & _);
    [done | done | done | done | by intros ?%elem_of_nil | by intros ?%elem_of_nil |].
  rewrite Hsc. reflexivity.
Defined.

Lemma status_loaded_and_queued_disjoint_witness :
  let s := getStatus (exec (settle initProgressiveLoader_config true 0 true)
                        (exec (addTier initProgressiveLoader_config true sample_video) new)) in
  NoDup (st_loaded s) ∧ (∀ n, n ∈ st_loaded s → n ∉ st_queued s)
  ∧ st_total s = (length (st_loaded s) + length (st_queued s))%nat.
Proof.
  apply (status_loaded_and_queued_disjoint initProgressiveLoader_config true).
  exact (reachable_step _ _ _ _
           (reachable_step _ _ _ _ (reachable_new _ _)
              (step_addTier _ _ sample_video new))
           (step_settle _ _ 0%nat true _)).
Defined.

End ProgressiveLoaderFacts.

(** ** Image preloader *)

Module ImagePreloaderFacts.
Import Js Dom JsFacts ImagePreloader.

(** *** The single operations *)

Definition filled (target : option node) (src : string) (w : World) : World :=
  match target with
  | Some t => if truthy (srcOf t w) then w
              else set_nodes (update t (setAttribute "src" src) (nodes w)) w
  | None => w
  end.

Lemma fillTarget_spec (target : option node) (src : string) (w : World) :
  fillTarget target src w = (Normal tt, filled target src w).
Proof.
  unfold fillTarget, filled. destruct target as [t|]; [|done].
  rewrite bind_gets. by destruct (truthy (srcOf t w)).
Qed.

Definition settled (q : nat) (s : Settled) (w : World) : World :=
  match promises w !! q with
  | Some _ => w
  | None => set_promises (<[q := s]> (promises w)) w
  end.

Lemma settlePromise_spec (q : nat) (s : Settled) (w : World) :
  settlePromise q s w = (Normal tt, settled q s w).
Proof. reflexivity. Qed.

Lemma forEach_settle (qs : list nat) (s : Settled) (w : World) :
  forEach qs (fun q => settlePromise q s) w
  = (Normal tt, foldl (fun w q => settled q s w) w qs).
Proof.
  revert w. induction qs as [|q qs IH]; intros w; cbn [forEach foldl]; [done|].
  by rewrite bind_apply, settlePromise_spec, IH.
Qed.

(** The world with a new image being fetched for [src]. *)
Definition fetching (src : string) (target : option node) (promise : nat) (w : World) : World :=
  set_preloadedImages (<[src := nextImage w]> (preloadedImages w))
    (set_nextImage (S (nextImage w))
       (set_preloads (<[nextImage w := mkPreload src false true Fetching target promise []]>
                        (preloads w)) w)).

Definition joined (id : nat) (p : Preload) (promise : nat) (w : World) : World :=
  set_preloads (<[id := mkPreload (p_src p) (p_loaded p) (p_loading p) (p_status p)
                          (p_target p) (p_promise p) (p_waiters p ++ [promise])%list]>
                  (preloads w)) w.

Definition promised (w : World) : World := set_nextPromise (S (nextPromise w)) w.

(** [preloadImage] by the state of the cache entry for [src]. *)
Definition preloadImage_result (src : string) (target : option node) (w : World) : World :=
  let q := nextPromise w in
  match cached src w with
  | Some (id, p) =>
      if p_loaded p then settled q (Fulfilled id) (filled target src (promised w))
      else if p_loading p then joined id p q (promised w)
      else fetching src target q (promised w)
  | None => fetching src target q (promised w)
  end.

Lemma preloadImage_spec (src : string) (target : option node) (w : World) :
  preloadImage src target w = (Normal (nextPromise w), preloadImage_result src target w).
Proof.
  unfold preloadImage, preloadImage_result. rewrite bind_apply. unfold newPromise.
  fold (promised w). rewrite bind_gets.
  replace (cached src (promised w)) with (cached src w) by (by destruct w).
  destruct (cached src w) as [[id p]|].
  - destruct (p_loaded p) eqn:Hl.
    + rewrite bind_apply, fillTarget_spec, bind_apply, settlePromise_spec. reflexivity.
    + destruct (p_loading p) eqn:Hg.
      * rewrite bind_modify. unfold joined. by rewrite Hl, Hg.
      * rewrite bind_gets, bind_modify. unfold fetching. by destruct w.
  - rewrite bind_gets, bind_modify. unfold fetching. by destruct w.
Qed.

Definition loaded_image (id : nat) (p : Preload) (w : World) : World :=
  foldl (fun w q => settled q (Fulfilled id) w)
    (settled (p_promise p) (Fulfilled id)
       (filled (p_target p) (p_src p)
          (set_preloads (<[id := mkPreload (p_src p) true false Loaded
                                   (p_target p) (p_promise p) (p_waiters p)]> (preloads w)) w)))
    (p_waiters p).

Lemma image_load_spec (id : nat) (w : World) :
  image_load id w
  = (Normal tt,
     match preloads w !! id with
     | Some p => if bool_decide (p_status p = Fetching) then loaded_image id p w else w
     | None => w
     end).
Proof.
  unfold image_load. rewrite bind_gets. destruct (preloads w !! id) as [p|]; [|done].
  case_bool_decide; [|done].
  by rewrite bind_modify, bind_apply, fillTarget_spec, bind_apply, settlePromise_spec,
    forEach_settle.
Qed.

Definition failed_image (id : nat) (p : Preload) (w : World) : World :=
  foldl (fun w q => settled q Rejected w)
    (settled (p_promise p) Rejected
       (set_console (console w ++ [(warn, "Failed to preload image")])
          (set_preloadedImages (delete (p_src p) (preloadedImages w))
             (set_preloads (<[id := mkPreload (p_src p) (p_loaded p) false Failed
                                      (p_target p) (p_promise p) (p_waiters p)]> (preloads w))
                w))))
    (p_waiters p).

Lemma image_error_spec (id : nat) (w : World) :
  image_error id w
  = (Normal tt,
     match preloads w !! id with
     | Some p => if bool_decide (p_status p = Fetching) then failed_image id p w else w
     | None => w
     end).
Proof.
  unfold image_error. rewrite bind_gets. destruct (preloads w !! id) as [p|]; [|done].
  case_bool_decide; [|done].
  rewrite !bind_modify. unfold log. rewrite bind_modify, bind_apply, settlePromise_spec,
    forEach_settle. unfold failed_image. by destruct w.
Qed.


(** *** What the operations leave alone *)

(** The part of the world the cache lives in. *)
Definition same_cache (w w' : World) : Prop :=
  preloads w' = preloads w ∧ nextImage w' = nextImage w
  ∧ preloadedImages w' = preloadedImages w ∧ nextPromise w' = nextPromise w.

Lemma filled_cache (target : option node) (src : string) (w : World) :
  same_cache w (filled target src w) ∧ promises (filled target src w) = promises w.
Proof.
  unfold filled, same_cache. destruct target as [t|]; [|done].
  by destruct (truthy (srcOf t w)).
Qed.

Lemma settled_cache (q : nat) (s : Settled) (w : World) :
  same_cache w (settled q s w) ∧ nodes (settled q s w) = nodes w.
Proof. unfold settled, same_cache. by destruct (promises w !! q). Qed.

Lemma settled_promises (q : nat) (s : Settled) (w : World) (q' : nat) :
  promises (settled q s w) !! q'
  = match promises w !! q' with
    | Some s' => Some s'
    | None => if bool_decide (q' = q) then Some s else None
    end.
Proof.
  unfold settled. destruct (promises w !! q) as [s0|] eqn:Hq.
  - case_bool_decide; subst; [by rewrite Hq|by destruct (promises w !! q')].
  - cbn. case_bool_decide; subst.
    + by rewrite lookup_insert_eq, Hq.
    + rewrite lookup_insert_ne by done. by destruct (promises w !! q').
Qed.

Lemma settled_all_cache (qs : list nat) (s : Settled) (w : World) :
  same_cache w (foldl (fun w q => settled q s w) w qs)
  ∧ nodes (foldl (fun w q => settled q s w) w qs) = nodes w.
Proof.
  revert w. induction qs as [|q qs IH]; intros w; cbn [foldl]; [done|].
  destruct (IH (settled q s w)) as [(H1 & H2 & H3 & H4) H5].
  destruct (settled_cache q s w) as [(H1' & H2' & H3' & H4') H5'].
  unfold same_cache. split_and!; congruence.
Qed.

Lemma settled_all_promises (qs : list nat) (s : Settled) (w : World) (q' : nat) :
  promises (foldl (fun w q => settled q s w) w qs) !! q'
  = match promises w !! q' with
    | Some s' => Some s'
    | None => if bool_decide (q' ∈ qs) then Some s else None
    end.
Proof.
  revert w. induction qs as [|q qs IH]; intros w; cbn [foldl].
  - destruct (promises w !! q'); [done|].
    case_bool_decide as H; [by apply elem_of_nil in H|done].
  - rewrite IH, settled_promises. destruct (promises w !! q'); [done|].
    clear IH. repeat case_bool_decide; try done; exfalso;
      rewrite ?elem_of_cons in *; naive_solver.
Qed.

(** *** The invariant of the cache *)

(** The flags of a [preloadData] object follow the state of its image. *)
Definition flags_ok (p : Preload) : Prop :=
  match p_status p with
  | Fetching => p_loaded p = false ∧ p_loading p = true
  | Loaded => p_loaded p = true ∧ p_loading p = false
  | Failed => p_loaded p = false ∧ p_loading p = false
  end.

Record Inv (w : World) : Prop := mkInv {
  inv_image : ∀ id p, preloads w !! id = Some p → (id < nextImage w)%nat;
  inv_flags : ∀ id p, preloads w !! id = Some p → flags_ok p;
  inv_promise : ∀ id p, preloads w !! id = Some p →
    (p_promise p < nextPromise w)%nat
    ∧ Forall (fun q => (q < nextPromise w)%nat) (p_waiters p);
  inv_entry : ∀ src id, preloadedImages w !! src = Some id →
    ∃ p, preloads w !! id = Some p ∧ p_src p = src ∧ p_status p ≠ Failed;
  inv_settled : ∀ q s, promises w !! q = Some s → (q < nextPromise w)%nat
}.

(** Every image still being fetched is the one the Map holds for its
    source. *)
Definition Single (w : World) : Prop :=
  ∀ id p, preloads w !! id = Some p → p_status p = Fetching →
    preloadedImages w !! p_src p = Some id.

Lemma Inv_new (ns : gmap node Element) : Inv (new ns).
Proof. split; cbn; intros; simplify_map_eq. Qed.

Lemma Single_new (ns : gmap node Element) : Single (new ns).
Proof. intros id p H. cbn in H. simplify_map_eq. Qed.

Lemma Inv_same_cache (w w' : World) :
  same_cache w w' → promises w' = promises w → Inv w → Inv w'.
Proof.
  intros (Hp & Hi & Hm & Hq) Hs [H1 H2 H3 H4 H5].
  split; rewrite ?Hp, ?Hi, ?Hm, ?Hq, ?Hs; done.
Qed.

Lemma Single_ext (w w' : World) :
  preloads w' = preloads w → preloadedImages w' = preloadedImages w → Single w → Single w'.
Proof. intros Hp Hm H. unfold Single. by rewrite Hp, Hm. Qed.

Lemma same_cache_trans (w1 w2 w3 : World) :
  same_cache w1 w2 → same_cache w2 w3 → same_cache w1 w3.
Proof. unfold same_cache. intros (? & ? & ? & ?) (? & ? & ? & ?). split_and!; congruence. Qed.

Lemma settled_filled_cache (q : nat) (s : Settled) (qs : list nat) (target : option node)
    (src : string) (w : World) :
  same_cache w (foldl (fun w q => settled q s w) (settled q s (filled target src w)) qs).
Proof.
  eapply same_cache_trans; [apply filled_cache|].
  eapply same_cache_trans; [apply settled_cache|]. apply settled_all_cache.
Qed.

Lemma Inv_settled (q : nat) (s : Settled) (w : World) :
  (q < nextPromise w)%nat → Inv w → Inv (settled q s w).
Proof.
  intros Hq [H1 H2 H3 H4 H5].
  destruct (settled_cache q s w) as [(Hp & Hi & Hm & Hn) _].
  split; rewrite ?Hp, ?Hi, ?Hm, ?Hn; try done.
  intros q' s'. rewrite settled_promises. destruct (promises w !! q') as [s0|] eqn:E.
  - intros _. by eapply H5.
  - case_bool_decide; [by subst|done].
Qed.

Lemma Inv_settled_all (qs : list nat) (s : Settled) (w : World) :
  Forall (fun q => (q < nextPromise w)%nat) qs → Inv w →
  Inv (foldl (fun w q => settled q s w) w qs).
Proof.
  revert w. induction qs as [|q qs IH]; intros w Hqs Hw; cbn [foldl]; [done|].
  inversion Hqs as [|? ? Hq Hqs']; subst.
  destruct (settled_cache q s w) as [(Hp & Hi & Hm & Hn) _].
  apply IH; [by rewrite Hn|by apply Inv_settled].
Qed.

Lemma Inv_promised (w : World) : Inv w → Inv (promised w).
Proof.
  intros [H1 H2 H3 H4 H5]. split; cbn; try done.
  - intros id p Hp. destruct (H3 id p Hp) as [Ha Hb]. split; [lia|].
    eapply Forall_impl; [exact Hb|]. cbn. lia.
  - intros q s Hq. specialize (H5 q s Hq). lia.
Qed.

Lemma cached_Some (src : string) (w : World) (id : nat) (p : Preload) :
  cached src w = Some (id, p) ↔ preloadedImages w !! src = Some id ∧ preloads w !! id = Some p.
Proof.
  unfold cached. destruct (preloadedImages w !! src) as [i|]; [|naive_solver].
  destruct (preloads w !! i) eqn:E; naive_solver.
Qed.

Lemma cached_None (src : string) (w : World) :
  Inv w → cached src w = None → preloadedImages w !! src = None.
Proof.
  intros Hw. unfold cached. destruct (preloadedImages w !! src) as [i|] eqn:E; [|done].
  destruct (inv_entry w Hw src i E) as (p & -> & _). done.
Qed.

(** With the invariant, an entry of the Map is loaded or being loaded. *)
Lemma cached_flags (src : string) (w : World) (id : nat) (p : Preload) :
  Inv w → cached src w = Some (id, p) →
  p_src p = src
  ∧ (p_status p = Loaded ∧ p_loaded p = true ∧ p_loading p = false
     ∨ p_status p = Fetching ∧ p_loaded p = false ∧ p_loading p = true).
Proof.
  intros Hw [Hm Hp]%cached_Some.
  destruct (inv_entry w Hw src id Hm) as (p' & Hp' & Hsrc & Hst).
  assert (p' = p) as -> by congruence.
  pose proof (inv_flags w Hw id p Hp) as Hf. unfold flags_ok in Hf.
  destruct (p_status p); naive_solver.
Qed.

Lemma Inv_fetching (src : string) (target : option node) (w : World) :
  Inv w → Inv (fetching src target (nextPromise w) (promised w)).
Proof.
  intros Hw. pose proof (Inv_promised w Hw) as [H1 H2 H3 H4 H5]. cbn in *.
  split; cbn.
  - intros id p. destruct (decide (id = nextImage w)) as [->|Hne]; [lia|].
    rewrite lookup_insert_ne by done. intros Hp. specialize (H1 id p Hp). lia.
  - intros id p. destruct (decide (id = nextImage w)) as [->|Hne].
    + rewrite lookup_insert_eq. by intros [= <-].
    + rewrite lookup_insert_ne by done. apply H2.
  - intros id p. destruct (decide (id = nextImage w)) as [->|Hne].
    + rewrite lookup_insert_eq. intros [= <-]. cbn. split; [lia|constructor].
    + rewrite lookup_insert_ne by done. apply H3.
  - intros s id. destruct (decide (s = src)) as [->|Hne].
    + rewrite lookup_insert_eq. intros [= <-]. rewrite lookup_insert_eq. eexists. done.
    + rewrite lookup_insert_ne by done. intros Hs.
      destruct (H4 s id Hs) as (p & Hp & Hsrc & Hst). exists p.
      rewrite lookup_insert_ne; [done|]. specialize (H1 id p Hp). lia.
  - done.
Qed.

Lemma Inv_joined (src : string) (id : nat) (p : Preload) (w : World) :
  Inv w → cached src w = Some (id, p) → Inv (joined id p (nextPromise w) (promised w)).
Proof.
  intros Hw [Hm Hp]%cached_Some. pose proof (Inv_promised w Hw) as [H1 H2 H3 H4 H5].
  cbn in *. split; cbn.
  - intros i p'. destruct (decide (i = id)) as [->|Hne].
    + intros _. by eapply H1.
    + rewrite lookup_insert_ne by done. apply H1.
  - intros i p'. destruct (decide (i = id)) as [->|Hne].
    + rewrite lookup_insert_eq. intros [= <-]. exact (H2 id p Hp).
    + rewrite lookup_insert_ne by done. apply H2.
  - intros i p'. destruct (decide (i = id)) as [->|Hne].
    + rewrite lookup_insert_eq. intros [= <-]. cbn. destruct (H3 id p Hp) as [Ha Hb].
      split; [done|]. apply Forall_app. split; [done|]. repeat constructor.
    + rewrite lookup_insert_ne by done. apply H3.
  - intros s i Hs. destruct (H4 s i Hs) as (p' & Hp' & Hsrc & Hst).
    destruct (decide (i = id)) as [->|Hne].
    + rewrite lookup_insert_eq. eexists. split; [done|]. cbn.
      assert (p' = p) as -> by congruence. done.
    + rewrite lookup_insert_ne by done. by exists p'.
  - done.
Qed.

Lemma preloadImage_Inv (src : string) (target : option node) (w : World) :
  Inv w → Inv (preloadImage_result src target w).
Proof.
  intros Hw. unfold preloadImage_result.
  destruct (cached src w) as [[id p]|] eqn:Hc; [|by apply Inv_fetching].
  destruct (cached_flags src w id p Hw Hc) as [_ [(_ & -> & _)|(_ & -> & ->)]].
  - apply Inv_settled.
    + destruct (filled_cache target src (promised w)) as [(_ & _ & _ & ->) _]. cbn. lia.
    + destruct (filled_cache target src (promised w)) as [Hc' Hs'].
      eapply Inv_same_cache; [exact Hc'|exact Hs'|]. by apply Inv_promised.
  - by eapply Inv_joined.
Qed.

Lemma preloadImage_Single (src : string) (target : option node) (w : World) :
  Inv w → Single w → Single (preloadImage_result src target w).
Proof.
  intros Hw Hs. unfold preloadImage_result.
  destruct (cached src w) as [[id p]|] eqn:Hc.
  - destruct (cached_flags src w id p Hw Hc) as [Hsrc [(Hst & -> & _)|(Hst & -> & ->)]].
    + destruct (settled_filled_cache (nextPromise w) (Fulfilled id) [] target src (promised w))
        as (E1 & _ & E2 & _).
      eapply Single_ext; [exact E1|exact E2|exact Hs].
    + intros i p'. cbn. destruct (decide (i = id)) as [->|Hne].
      * rewrite lookup_insert_eq. intros [= <-]. cbn. intros _.
        apply cached_Some in Hc as [Hm _]. by rewrite Hsrc.
      * rewrite lookup_insert_ne by done. apply Hs.
  - apply cached_None in Hc; [|done].
    intros i p'. cbn. destruct (decide (i = nextImage w)) as [->|Hne].
    + rewrite lookup_insert_eq. intros [= <-] _. cbn. by rewrite lookup_insert_eq.
    + rewrite lookup_insert_ne by done. intros Hp Hst.
      specialize (Hs i p' Hp Hst).
      destruct (decide (p_src p' = src)) as [E|E]; [congruence|].
      by rewrite lookup_insert_ne.
Qed.

Lemma image_load_Inv (id : nat) (p : Preload) (w : World) :
  Inv w → preloads w !! id = Some p → Inv (loaded_image id p w).
Proof.
  intros Hw Hp. unfold loaded_image.
  set (w1 := set_preloads _ w).
  assert (Inv w1) as H1.
  { destruct Hw as [H1 H2 H3 H4 H5]. split; cbn.
    - intros i p'. destruct (decide (i = id)) as [->|Hne].
      + intros _. by eapply H1.
      + rewrite lookup_insert_ne by done. apply H1.
    - intros i p'. destruct (decide (i = id)) as [->|Hne].
      + rewrite lookup_insert_eq. by intros [= <-].
      + rewrite lookup_insert_ne by done. apply H2.
    - intros i p'. destruct (decide (i = id)) as [->|Hne].
      + rewrite lookup_insert_eq. intros [= <-]. exact (H3 id p Hp).
      + rewrite lookup_insert_ne by done. apply H3.
    - intros s i Hs. destruct (H4 s i Hs) as (p' & Hp' & Hsrc & Hst).
      destruct (decide (i = id)) as [->|Hne].
      + rewrite lookup_insert_eq. eexists. split; [done|]. cbn.
        assert (p' = p) as -> by congruence. done.
      + rewrite lookup_insert_ne by done. by exists p'.
    - done. }
  destruct (inv_promise w Hw id p Hp) as [Ha Hb].
  destruct (filled_cache (p_target p) (p_src p) w1) as [Hc Hs].
  pose proof (Inv_same_cache _ _ Hc Hs H1) as H2.
  destruct Hc as (_ & _ & _ & Hn).
  apply Inv_settled_all.
  - destruct (settled_cache (p_promise p) (Fulfilled id) (filled (p_target p) (p_src p) w1))
      as [(_ & _ & _ & ->) _]. by rewrite Hn.
  - apply Inv_settled; [by rewrite Hn|done].
Qed.

Lemma image_load_Single (id : nat) (p : Preload) (w : World) :
  Single w → Single (loaded_image id p w).
Proof.
  intros Hs. unfold loaded_image. set (w1 := set_preloads _ w).
  destruct (settled_filled_cache (p_promise p) (Fulfilled id) (p_waiters p) (p_target p)
              (p_src p) w1) as (E1 & _ & E2 & _).
  eapply (Single_ext w1); [exact E1|exact E2|].
  intros i p'. cbn. destruct (decide (i = id)) as [->|Hne].
  + rewrite lookup_insert_eq. by intros [= <-].
  + rewrite lookup_insert_ne by done. apply Hs.
Qed.

Lemma image_error_Inv (id : nat) (p : Preload) (w : World) :
  Inv w → preloads w !! id = Some p → p_status p = Fetching → Inv (failed_image id p w).
Proof.
  intros Hw Hp Hst. unfold failed_image.
  set (w1 := set_console _ _).
  assert (Inv w1) as H1.
  { pose proof (inv_flags w Hw id p Hp) as Hf. unfold flags_ok in Hf. rewrite Hst in Hf.
    destruct Hf as [Hl Hg].
    destruct Hw as [H1 H2 H3 H4 H5]. split; cbn.
    - intros i p'. destruct (decide (i = id)) as [->|Hne].
      + intros _. by eapply H1.
      + rewrite lookup_insert_ne by done. apply H1.
    - intros i p'. destruct (decide (i = id)) as [->|Hne].
      + rewrite lookup_insert_eq. intros [= <-]. by unfold flags_ok.
      + rewrite lookup_insert_ne by done. apply H2.
    - intros i p'. destruct (decide (i = id)) as [->|Hne].
      + rewrite lookup_insert_eq. intros [= <-]. exact (H3 id p Hp).
      + rewrite lookup_insert_ne by done. apply H3.
    - intros s i. destruct (decide (s = p_src p)) as [->|Hs].
      + by rewrite lookup_delete_eq.
      + rewrite lookup_delete_ne by done. intros Hm.
        destruct (H4 s i Hm) as (p' & Hp' & Hsrc & Hst').
        destruct (decide (i = id)) as [->|Hne]; [congruence|].
        rewrite lookup_insert_ne by done. by exists p'.
    - done. }
  destruct (inv_promise w Hw id p Hp) as [Ha Hb].
  apply Inv_settled_all.
  - by destruct (settled_cache (p_promise p) Rejected w1) as [(_ & _ & _ & ->) _].
  - by apply Inv_settled.
Qed.

Lemma image_error_Single (id : nat) (p : Preload) (w : World) :
  Single w → preloads w !! id = Some p → p_status p = Fetching →
  Single (failed_image id p w).
Proof.
  intros Hs Hp Hst. unfold failed_image. set (w1 := set_console _ _).
  assert (same_cache w1 (foldl (fun w q => settled q Rejected w)
                           (settled (p_promise p) Rejected w1) (p_waiters p)))
    as (E1 & _ & E2 & _).
  { eapply same_cache_trans; [apply settled_cache|apply settled_all_cache]. }
  eapply (Single_ext w1); [exact E1|exact E2|].
  intros i p'. cbn. destruct (decide (i = id)) as [->|Hne].
  + rewrite lookup_insert_eq. by intros [= <-].
  + rewrite lookup_insert_ne by done. intros Hp' Hst'.
    pose proof (Hs i p' Hp' Hst') as Hm. pose proof (Hs id p Hp Hst) as Hm0.
    destruct (decide (p_src p' = p_src p)) as [E|E]; [congruence|].
    by rewrite lookup_delete_ne.
Qed.


(** *** The invariant through the methods *)

(** [Good true]: the invariant of a run in which the cache is never cleared;
    [Good false]: of any run. *)
Definition Good (b : bool) (w : World) : Prop := Inv w ∧ (b = true → Single w).

Lemma Good_ext (b : bool) (w w' : World) :
  same_cache w w' → promises w' = promises w → Good b w → Good b w'.
Proof.
  intros Hc Hs [Hi Hu]. split; [by eapply Inv_same_cache|].
  intros Hb. destruct Hc as (E1 & _ & E2 & _). eapply Single_ext; [exact E1|exact E2|auto].
Qed.

Lemma Good_new (b : bool) (ns : gmap node Element) : Good b (new ns).
Proof. split; [apply Inv_new|intros _; apply Single_new]. Qed.

Section Methods.
Variable pg : Page.
Variable cfg : Config.
Variable b : bool.

Lemma preloadImage_Good (src : string) (target : option node) :
  preserves (Good b) (preloadImage src target).
Proof.
  intros w [Hi Hu]. rewrite preloadImage_spec. cbn [snd].
  split; [by apply preloadImage_Inv|]. intros Hb. apply preloadImage_Single; auto.
Qed.

Lemma image_load_Good (id : nat) : preserves (Good b) (image_load id).
Proof.
  intros w [Hi Hu]. rewrite image_load_spec. cbn [snd].
  destruct (preloads w !! id) as [p|] eqn:Hp; [|done].
  case_bool_decide; [|done].
  split; [by apply image_load_Inv|]. intros Hb. apply image_load_Single; auto.
Qed.

Lemma image_error_Good (id : nat) : preserves (Good b) (image_error id).
Proof.
  intros w [Hi Hu]. rewrite image_error_spec. cbn [snd].
  destruct (preloads w !! id) as [p|] eqn:Hp; [|done].
  case_bool_decide; [|done].
  split; [by apply image_error_Inv|]. intros Hb. apply image_error_Single; auto.
Qed.

(** A change outside the cache. *)
Lemma aside_Good (f : World → World) :
  (∀ w, same_cache w (f w) ∧ promises (f w) = promises w) →
  preserves (Good b) (modify f).
Proof.
  intros Hf. apply preserves_modify. intros w Hw. destruct (Hf w) as [Hc Hs].
  by eapply Good_ext.
Qed.

Ltac aside :=
  apply aside_Good; intros [? ? ? ? ? ? o ? ? ? ? ?]; try destruct o; done.

Ltac pres :=
  repeat match goal with
  | |- ∀ _, preserves _ _ => intros ?
  | |- preserves _ (preloadImage _ _) => apply preloadImage_Good
  | |- preserves _ (ret _) => apply preserves_ret
  | |- preserves _ (throw _) => apply preserves_throw
  | |- preserves _ (gets _) => apply preserves_gets
  | |- preserves _ (fun w => (_, w)) => apply preserves_query
  | |- preserves _ (bind _ _) => apply preserves_bind
  | |- preserves _ (try_catch _ _) => apply preserves_try_catch
  | |- preserves _ (when _ _) => apply preserves_when
  | |- preserves _ (forEach _ _) => apply preserves_forEach
  | |- preserves _ (if _ then _ else _) => apply preserves_if
  | |- preserves _ (match ?x with _ => _ end) => destruct x
  | |- preserves _ (modify _) => aside
  end.

Lemma log_Good (l : Level) (msg : string) : preserves (Good b) (log l msg).
Proof. unfold log. aside. Qed.

Lemma preloadImagesInElement_Good (element : node) :
  preserves (Good b) (preloadImagesInElement pg cfg element).
Proof.
  unfold preloadImagesInElement. pres.
Qed.

Lemma observerCallback_Good (entries : list (node * bool)) :
  preserves (Good b) (observerCallback pg cfg entries).
Proof. unfold observerCallback. pres. apply preloadImagesInElement_Good. Qed.

Lemma run_handler_Good (h : Handler) : preserves (Good b) (run_handler pg cfg h).
Proof.
  destruct h as [t|imgs]; cbn [run_handler]; [apply preloadImagesInElement_Good|].
  pres.
Qed.

Lemma mouseenter_Good (n : node) : preserves (Good b) (mouseenter pg cfg n).
Proof. unfold mouseenter. pres; [apply run_handler_Good|apply log_Good]. Qed.

Lemma observeElements_Good : preserves (Good b) (observeElements pg cfg).
Proof. unfold observeElements. pres. Qed.

Lemma setupLegacyHoverPreloading_Good :
  preserves (Good b) (setupLegacyHoverPreloading pg cfg).
Proof. unfold setupLegacyHoverPreloading, addListener. pres. Qed.

Lemma initializeImagePreloader_Good :
  preserves (Good b) (initializeImagePreloader pg cfg).
Proof.
  unfold initializeImagePreloader, setupIntersectionObserver, setupHoverPreloading,
    addListener.
  pres; try apply log_Good; try apply setupLegacyHoverPreloading_Good;
    try apply observeElements_Good.
Qed.

Lemma init_Good : preserves (Good b) (init pg).
Proof. unfold init. pres. Qed.

Lemma observeNewElements_Good : preserves (Good b) (observeNewElements pg cfg).
Proof. unfold observeNewElements. pres. apply observeElements_Good. Qed.

Lemma preloadImages_Good (sources : list string) :
  preserves (Good b) (preloadImages sources).
Proof. induction sources as [|src rest IH]; cbn [preloadImages]; pres. apply IH. Qed.

End Methods.

Lemma clearCache_Good : preserves (Good false) clearCache.
Proof.
  apply preserves_modify. intros w [[H1 H2 H3 H4 H5] _]. split; [|done].
  split; cbn; done.
Qed.

Lemma destroy_Good : preserves (Good false) destroy.
Proof.
  unfold destroy.
  repeat (apply preserves_bind; [|intros ?]); try apply clearCache_Good;
    apply aside_Good; intros [? ? ? ? ? ? o ? ? ? ? ?]; done.
Qed.

(** *** Runs of the preloader *)

(** One thing that happens to a preloader on page [pg]: a call of a public
    method, a scheduled initialisation, an event of the browser.  In a run
    with [b = true] the cache is never cleared. *)
Inductive step (pg : Page) (cfg : Config) (b : bool) (w : World) : World → Prop :=
| step_init : step pg cfg b w (exec (init pg) w)
| step_initialize : step pg cfg b w (exec (initializeImagePreloader pg cfg) w)
| step_intersect (entries : list (node * bool)) :
    step pg cfg b w (exec (observerCallback pg cfg entries) w)
| step_mouseenter (n : node) : step pg cfg b w (exec (mouseenter pg cfg n) w)
| step_load (id : nat) : step pg cfg b w (exec (image_load id) w)
| step_error (id : nat) : step pg cfg b w (exec (image_error id) w)
| step_observeNew : step pg cfg b w (exec (observeNewElements pg cfg) w)
| step_preloadImages (sources : list string) :
    step pg cfg b w (exec (preloadImages sources) w)
| step_clearCache : b = false → step pg cfg b w (exec clearCache w)
| step_destroy : b = false → step pg cfg b w (exec destroy w).

Inductive reachable (pg : Page) (cfg : Config) (b : bool) : World → Prop :=
| reachable_new (ns : gmap node Element) : reachable pg cfg b (new ns)
| reachable_step (w w' : World) :
    reachable pg cfg b w → step pg cfg b w w' → reachable pg cfg b w'.

Lemma step_Good (pg : Page) (cfg : Config) (b : bool) (w w' : World) :
  step pg cfg b w w' → Good b w → Good b w'.
Proof.
  intros [] Hw; unfold exec.
  - by apply init_Good.
  - by apply initializeImagePreloader_Good.
  - by apply observerCallback_Good.
  - by apply mouseenter_Good.
  - by apply image_load_Good.
  - by apply image_error_Good.
  - by apply observeNewElements_Good.
  - by apply preloadImages_Good.
  - subst. by apply clearCache_Good.
  - subst. by apply destroy_Good.
Qed.

Lemma reachable_Good (pg : Page) (cfg : Config) (b : bool) (w : World) :
  reachable pg cfg b w → Good b w.
Proof. induction 1; [apply Good_new|by eapply step_Good]. Qed.


(** *** Statistics *)

Lemma stats_partition (f : string * nat → option Preload) (l : list (string * nat)) :
  Forall (fun kv => ∃ p, f kv = Some p
                         ∧ (p_loaded p = true ∨ p_loaded p = false ∧ p_loading p = true)) l →
  length l
  = (length (List.filter p_loaded (omap f l))
     + length (List.filter (fun p => negb (p_loaded p) && p_loading p) (omap f l)))%nat.
Proof.
  induction 1 as [|kv l (p & Hp & Hf) _ IH]; [done|].
  cbn [omap list_omap]. rewrite Hp. cbn [List.filter length].
  destruct Hf as [->|[-> ->]]; cbn [negb andb length]; lia.
Qed.

Lemma Inv_stats (w : World) :
  Inv w → total (getStats w) = (loaded (getStats w) + loading (getStats w))%nat.
Proof.
  intros Hw. unfold getStats, entries. cbn [total loaded loading].
  rewrite <- length_map_to_list. apply stats_partition.
  apply Forall_forall. intros [src id] Hin%elem_of_map_to_list. cbn [snd].
  assert (cached src w ≠ None) as Hc.
  { intros Hn%cached_None; [congruence|done]. }
  destruct (cached src w) as [[i p]|] eqn:E; [|done].
  pose proof E as [Hm Hp]%cached_Some. assert (i = id) as -> by congruence.
  exists p. split; [done|].
  destruct (cached_flags src w id p Hw E) as [_ [(_ & -> & _)|(_ & -> & ->)]]; auto.
Qed.

(** X15: every entry of the Map is counted as loaded or as loading, whatever
    was called before and whichever events came in. *)
Theorem getStats_total_is_loaded_plus_loading (pg : Page) (cfg : Config) (w : World) :
  reachable pg cfg false w →
  total (getStats w) = (loaded (getStats w) + loading (getStats w))%nat.
Proof. intros [Hw _]%reachable_Good. by apply Inv_stats. Qed.

(** X16: as long as the cache is not cleared, no two images are being fetched
    for the same source. *)
Theorem one_fetch_per_source (pg : Page) (cfg : Config) (w : World)
    (i j : nat) (p q : Preload) :
  reachable pg cfg true w →
  preloads w !! i = Some p → preloads w !! j = Some q →
  p_status p = Fetching → p_status q = Fetching →
  p_src p = p_src q → i = j.
Proof.
  intros [_ Hs]%reachable_Good Hp Hq Hfp Hfq Hsrc. specialize (Hs eq_refl).
  pose proof (Hs i p Hp Hfp) as H1. pose proof (Hs j q Hq Hfq) as H2. congruence.
Qed.

(** X17: [clearCache()] while an image is being fetched: the next call for the
    same source starts a second image, and when the first one fails, its
    handler deletes the entry of the second.  The second image then loads
    without the Map knowing it. *)
Theorem stale_error_evicts_newer_entry (pg : Page) (cfg : Config) (w : World)
    (src : string) (id : nat) (p : Preload) :
  reachable pg cfg false w →
  cached src w = Some (id, p) → p_status p = Fetching →
  let w1 := exec (preloadImages [src]) (exec clearCache w) in
  let w2 := exec (image_error id) w1 in
  let w3 := exec (image_load (nextImage w)) w2 in
  cached src w1 = Some (nextImage w, mkPreload src false true Fetching None (nextPromise w) [])
  ∧ has src w2 = false
  ∧ (∃ p', preloads w3 !! nextImage w = Some p' ∧ p_src p' = src ∧ p_loaded p' = true)
  ∧ isImagePreloaded src w3 = false.
Proof.
  intros [Hw _]%reachable_Good Hc Hst.
  destruct (cached_flags src w id p Hw Hc) as [Hsrc _].
  apply cached_Some in Hc as [Hm Hp].
  pose proof (inv_image w Hw id p Hp) as Hlt.
  intros w1 w2 w3.
  set (p1 := mkPreload src false true Fetching None (nextPromise w) []).
  set (w0 := set_preloadedImages ∅ w).
  assert (w1 = fetching src None (nextPromise w) (promised w0)) as Hw1.
  { unfold w1, exec at 2. cbn [clearCache modify snd]. fold w0.
    unfold exec. cbn [preloadImages]. rewrite bind_apply, preloadImage_spec.
    unfold preloadImage_result. by replace (cached src w0) with (@None (nat * Preload)). }
  assert (preloads w1 !! id = Some p) as Hp1.
  { rewrite Hw1. cbn. rewrite lookup_insert_ne by lia. done. }
  assert (cached src w1 = Some (nextImage w, p1)) as Hc1.
  { apply cached_Some. rewrite Hw1. cbn. by rewrite !lookup_insert_eq. }
  assert (same_cache (set_preloadedImages (delete src (preloadedImages w1))
            (set_preloads (<[id := mkPreload (p_src p) (p_loaded p) false Failed
                                     (p_target p) (p_promise p) (p_waiters p)]> (preloads w1))
               w1)) w2) as (E1 & E2 & E3 & E4).
  { unfold w2, exec. rewrite image_error_spec, Hp1, bool_decide_eq_true_2 by done.
    cbn [snd]. unfold failed_image. rewrite Hsrc.
    eapply same_cache_trans; [|apply settled_all_cache].
    eapply same_cache_trans; [|apply settled_cache]. done. }
  cbn in E1, E2, E3, E4.
  assert (preloads w2 !! nextImage w = Some p1) as Hp2.
  { rewrite E1, lookup_insert_ne by lia. by apply cached_Some in Hc1 as [_ ?]. }
  assert (preloadedImages w2 !! src = None) as Hm2.
  { by rewrite E3, lookup_delete_eq. }
  assert (same_cache (set_preloads (<[nextImage w := mkPreload src true false Loaded None
                                                      (nextPromise w) []]> (preloads w2)) w2)
            w3) as (F1 & F2 & F3 & F4).
  { unfold w3, exec. rewrite image_load_spec, Hp2. cbn [snd p1 p_status].
    rewrite bool_decide_eq_true_2 by done. unfold loaded_image.
    apply (settled_filled_cache _ _ _ _ _ (set_preloads _ w2)). }
  cbn in F1, F3.
  split_and!.
  - done.
  - unfold has. rewrite Hm2. by apply bool_decide_eq_false_2, is_Some_None.
  - eexists. rewrite F1, lookup_insert_eq. done.
  - unfold isImagePreloaded, cached. by rewrite F3, Hm2.
Qed.


Lemma sample_fetching_reachable (b : bool) :
  reachable sample_page sample_config b sample_fetching.
Proof.
  exact (reachable_step _ _ _ _ _ (reachable_new _ _ _ sample_nodes)
           (step_preloadImages _ _ _ _ ["a.png"])).
Defined.

Lemma sample_loaded_reachable (b : bool) :
  reachable sample_page sample_config b sample_loaded.
Proof.
  exact (reachable_step _ _ _ _ _ (sample_fetching_reachable b) (step_load _ _ _ _ 0%nat)).
Defined.

Lemma getStats_total_is_loaded_plus_loading_witness :
  total (getStats sample_loaded)
  = (loaded (getStats sample_loaded) + loading (getStats sample_loaded))%nat.
Proof.
  apply (getStats_total_is_loaded_plus_loading sample_page sample_config).
  exact (sample_loaded_reachable false).
Defined.

Lemma one_fetch_per_source_witness :
  preloads sample_fetching !! 0%nat
  = Some (mkPreload "a.png" false true Fetching None 0 [])
  ∧ 0%nat = 0%nat.
Proof.
  assert (preloads sample_fetching !! 0%nat
          = Some (mkPreload "a.png" false true Fetching None 0 [])) as H
    by (vm_compute; reflexivity).
  split; [exact H|].
  exact (one_fetch_per_source sample_page sample_config sample_fetching 0 0 _ _
           (sample_fetching_reachable true) H H eq_refl eq_refl eq_refl).
Defined.

Lemma stale_error_evicts_newer_entry_witness :
  let w1 := exec (preloadImages ["a.png"]) (exec clearCache sample_fetching) in
  let w2 := exec (image_error 0) w1 in
  let w3 := exec (image_load 1) w2 in
  cached "a.png" w1 = Some (1%nat, mkPreload "a.png" false true Fetching None 1 [])
  ∧ has "a.png" w2 = false
  ∧ (∃ p', preloads w3 !! 1%nat = Some p' ∧ p_src p' = "a.png" ∧ p_loaded p' = true)
  ∧ isImagePreloaded "a.png" w3 = false.
Proof.
  assert (cached "a.png" sample_fetching
          = Some (0%nat, mkPreload "a.png" false true Fetching None 0 [])) as H
    by (vm_compute; reflexivity).
  exact (stale_error_evicts_newer_entry sample_page sample_config sample_fetching "a.png" 0 _
           (sample_fetching_reachable false) H eq_refl).
Defined.


(** *** The [src] of the elements of the page *)

Section Src.
Variable pg : Page.
Variable cfg : Config.
Variable n : node.
Variable s : string.
Hypothesis Hs : truthy s = true.

Definition keeps (w : World) : Prop := srcOf n w = s.

Lemma keeps_ext (w w' : World) : nodes w' = nodes w → keeps w → keeps w'.
Proof. unfold keeps, srcOf. by intros ->. Qed.

Lemma filled_keeps (target : option node) (src : string) (w : World) :
  keeps w → keeps (filled target src w).
Proof.
  unfold keeps, filled. intros Hn. destruct target as [t|]; [|done].
  destruct (truthy (srcOf t w)) eqn:E; [done|].
  unfold srcOf. cbn. rewrite MobileNavigationFacts.lookup_update.
  case_decide as Ht; [|done]. subst t. rewrite Hn in E. congruence.
Qed.

Lemma aside_keeps (f : World → World) :
  (∀ w, nodes (f w) = nodes w) → preserves keeps (modify f).
Proof. intros Hf. apply preserves_modify. intros w. apply keeps_ext, Hf. Qed.

Lemma preloadImage_keeps (src : string) (target : option node) :
  preserves keeps (preloadImage src target).
Proof.
  intros w Hw. rewrite preloadImage_spec. cbn [snd]. unfold preloadImage_result.
  destruct (cached src w) as [[id p]|]; [|exact Hw].
  destruct (p_loaded p); [|by destruct (p_loading p)].
  eapply keeps_ext; [apply settled_cache|]. by apply filled_keeps.
Qed.

Lemma image_load_keeps (id : nat) : preserves keeps (image_load id).
Proof.
  intros w Hw. rewrite image_load_spec. cbn [snd].
  destruct (preloads w !! id) as [p|]; [|done]. case_bool_decide; [|done].
  unfold loaded_image. eapply keeps_ext; [apply settled_all_cache|].
  eapply keeps_ext; [apply settled_cache|]. by apply filled_keeps.
Qed.

Lemma image_error_keeps (id : nat) : preserves keeps (image_error id).
Proof.
  intros w Hw. rewrite image_error_spec. cbn [snd].
  destruct (preloads w !! id) as [p|]; [|done]. case_bool_decide; [|done].
  unfold failed_image. eapply keeps_ext; [apply settled_all_cache|].
  eapply keeps_ext; [apply settled_cache|]. exact Hw.
Qed.

Ltac keeps_leaf :=
  first [ apply preloadImage_keeps
        | apply aside_keeps; intros [? ? ? ? ? ? o ? ? ? ? ?]; try destruct o; done ].

Lemma preloadImagesInElement_keeps (element : node) :
  preserves keeps (preloadImagesInElement pg cfg element).
Proof. unfold preloadImagesInElement. pres_by keeps_leaf. Qed.

Lemma run_handler_keeps (h : Handler) : preserves keeps (run_handler pg cfg h).
Proof.
  destruct h as [t|imgs]; cbn [run_handler]; [apply preloadImagesInElement_keeps|].
  pres_by keeps_leaf.
Qed.

Lemma observeElements_keeps : preserves keeps (observeElements pg cfg).
Proof. unfold observeElements. pres_by keeps_leaf. Qed.

Lemma setupLegacyHoverPreloading_keeps : preserves keeps (setupLegacyHoverPreloading pg cfg).
Proof. unfold setupLegacyHoverPreloading, addListener. pres_by keeps_leaf. Qed.

Lemma init_keeps : preserves keeps (init pg).
Proof. unfold init. pres_by keeps_leaf. Qed.

Lemma initializeImagePreloader_keeps : preserves keeps (initializeImagePreloader pg cfg).
Proof.
  unfold initializeImagePreloader, setupIntersectionObserver, setupHoverPreloading,
    addListener, log.
  pres_by ltac:(first [ apply setupLegacyHoverPreloading_keeps
                      | apply observeElements_keeps | keeps_leaf ]).
Qed.

Lemma observerCallback_keeps (entries : list (node * bool)) :
  preserves keeps (observerCallback pg cfg entries).
Proof.
  unfold observerCallback.
  pres_by ltac:(first [apply preloadImagesInElement_keeps | keeps_leaf]).
Qed.

Lemma mouseenter_keeps (m : node) : preserves keeps (mouseenter pg cfg m).
Proof.
  unfold mouseenter, log. pres_by ltac:(first [apply run_handler_keeps | keeps_leaf]).
Qed.

Lemma observeNewElements_keeps : preserves keeps (observeNewElements pg cfg).
Proof.
  unfold observeNewElements. pres_by ltac:(first [apply observeElements_keeps | keeps_leaf]).
Qed.

Lemma preloadImages_keeps (sources : list string) : preserves keeps (preloadImages sources).
Proof.
  induction sources as [|src rest IH]; cbn [preloadImages].
  - pres_by keeps_leaf.
  - pres_by ltac:(first [apply IH | keeps_leaf]).
Qed.

Lemma destroy_keeps : preserves keeps destroy.
Proof. unfold destroy, clearCache. pres_by keeps_leaf. Qed.

Lemma step_keeps (b : bool) (w w' : World) : step pg cfg b w w' → keeps w → keeps w'.
Proof.
  intros [] Hw; unfold exec.
  - by apply init_keeps.
  - by apply initializeImagePreloader_keeps.
  - by apply observerCallback_keeps.
  - by apply mouseenter_keeps.
  - by apply image_load_keeps.
  - by apply image_error_keeps.
  - by apply observeNewElements_keeps.
  - by apply preloadImages_keeps.
  - exact Hw.
  - by apply destroy_keeps.
Qed.

End Src.

(** X18: whatever is called and whichever event comes in, an element that has
    a [src] keeps it: the preloader only fills in a [src] that is empty. *)
Theorem src_is_never_overwritten (pg : Page) (cfg : Config) (b : bool) (w w' : World)
    (n : node) :
  step pg cfg b w w' → truthy (srcOf n w) = true → srcOf n w' = srcOf n w.
Proof. intros Hstep Hn. by eapply (step_keeps pg cfg n (srcOf n w) Hn b w w'). Qed.


Lemma src_is_never_overwritten_witness :
  srcOf 2%positive (exec (image_load 0)
             (exec (observerCallback sample_page sample_config [(1%positive, true)])
                (new sample_nodes_src)))
  = srcOf 2%positive (exec (observerCallback sample_page sample_config [(1%positive, true)])
               (new sample_nodes_src)).
Proof.
  apply (src_is_never_overwritten sample_page sample_config false _ _ 2%positive).
  - apply step_load.
  - vm_compute. reflexivity.
Defined.

(** *** From the intersection to the loaded image *)

Lemma has_false_cached (src : string) (w : World) : has src w = false → cached src w = None.
Proof.
  unfold has, cached. intros H%bool_decide_eq_false.
  destruct (preloadedImages w !! src) eqn:E; [|done]. destruct H. by eexists.
Qed.

Lemma preloadImagesInElement_one (pg : Page) (cfg : Config) (w : World)
    (element img : node) (src : string) :
  descendantsWith pg element (preloadAttribute cfg) = Normal [img] →
  attributes (nodes w !!! img) !! preloadAttribute cfg = Some src →
  truthy src = true → has src w = false →
  preloadImagesInElement pg cfg element w
  = (Normal tt, fetching src (Some img) (nextPromise w) (promised w)).
Proof.
  intros Hd Ha Ht Hh. unfold preloadImagesInElement.
  rewrite bind_apply, Hd. cbn [forEach]. rewrite bind_apply, bind_gets, Ha, bind_gets, Hh, Ht.
  cbn [negb andb]. rewrite bind_apply, preloadImage_spec. unfold preloadImage_result.
  by rewrite (has_false_cached src w Hh).
Qed.

(** X19: a trigger comes into view around one image whose source is not in the
    Map: the image is fetched, the trigger is no longer observed, and once
    the [load] event came in, the element has its [src] and the source
    counts as preloaded.  Before the event the element is not touched. *)
Theorem intersecting_trigger_fills_src_on_load (pg : Page) (cfg : Config) (w : World)
    (trigger img : node) (src : string) :
  descendantsWith pg trigger (preloadAttribute cfg) = Normal [img] →
  attributes (nodes w !!! img) !! preloadAttribute cfg = Some src →
  truthy src = true → has src w = false → srcOf img w = "" →
  let w1 := exec (observerCallback pg cfg [(trigger, true)]) w in
  let w2 := exec (image_load (nextImage w)) w1 in
  nodes w1 = nodes w
  ∧ (∀ obs, observer w1 = Some obs → trigger ∉ obs)
  ∧ isImagePreloaded src w1 = false
  ∧ srcOf img w2 = src
  ∧ isImagePreloaded src w2 = true.
Proof.
  intros Hd Ha Ht Hh Hsrc w1 w2.
  set (p := mkPreload src false true Fetching (Some img) (nextPromise w) []).
  set (wf := fetching src (Some img) (nextPromise w) (promised w)).
  assert (w1 = match observer w with
               | Some obs => set_observer
                   (Some (List.filter (fun n => negb (Pos.eqb n trigger)) obs)) wf
               | None => wf
               end) as Hw1.
  { unfold w1, exec, observerCallback. cbn [forEach fst snd].
    rewrite !bind_apply, (preloadImagesInElement_one pg cfg w trigger img src) by done.
    cbn [modify snd]. fold wf. replace (observer wf) with (observer w) by (by destruct w).
    by destruct (observer w). }
  assert (nodes w1 = nodes w ∧ preloads w1 = preloads wf
          ∧ preloadedImages w1 = preloadedImages wf) as (Hn1 & Hp1 & Hm1).
  { rewrite Hw1. by destruct (observer w). }
  assert (preloads w1 !! nextImage w = Some p) as Hp.
  { rewrite Hp1. cbn. by rewrite lookup_insert_eq. }
  assert (preloadedImages w1 !! src = Some (nextImage w)) as Hm.
  { rewrite Hm1. cbn. by rewrite lookup_insert_eq. }
  set (wl := set_preloads (<[nextImage w := mkPreload src true false Loaded (Some img)
                                             (nextPromise w) []]> (preloads w1)) w1).
  assert (w2 = settled (nextPromise w) (Fulfilled (nextImage w)) (filled (Some img) src wl))
    as Hw2.
  { unfold w2, exec. rewrite image_load_spec, Hp. cbn [p p_status snd].
    by rewrite bool_decide_eq_true_2 by done. }
  assert (srcOf img wl = "") as Hsl.
  { unfold srcOf. replace (nodes wl) with (nodes w) by (by rewrite <- Hn1). exact Hsrc. }
  split_and!.
  - exact Hn1.
  - intros obs. rewrite Hw1. destruct (observer w) as [o|] eqn:Ho; cbn.
    + intros [= <-]. rewrite list_elem_of_In, filter_In, Pos.eqb_refl. by intros [_ ?].
    + subst wf. cbn. by rewrite Ho.
  - unfold isImagePreloaded, cached. by rewrite Hm, Hp.
  - rewrite Hw2. unfold srcOf.
    destruct (settled_cache (nextPromise w) (Fulfilled (nextImage w)) (filled (Some img) src wl))
      as [_ ->].
    unfold filled. rewrite Hsl. cbn [truthy nodes set_nodes].
    rewrite MobileNavigationFacts.lookup_update, decide_True by done.
    cbn. by rewrite lookup_insert_eq.
  - rewrite Hw2. unfold isImagePreloaded, cached.
    destruct (settled_filled_cache (nextPromise w) (Fulfilled (nextImage w)) [] (Some img) src wl)
      as (E1 & _ & E3 & _).
    cbn [foldl] in E1, E3. rewrite E3, E1. cbn [wl preloads preloadedImages set_preloads].
    by rewrite Hm, lookup_insert_eq.
Qed.

Lemma intersecting_trigger_fills_src_on_load_witness :
  let w := exec (initializeImagePreloader sample_page sample_config) (new sample_nodes) in
  let w1 := exec (observerCallback sample_page sample_config [(1%positive, true)]) w in
  let w2 := exec (image_load (nextImage w)) w1 in
  nodes w1 = nodes w
  ∧ (∀ obs, observer w1 = Some obs → 1%positive ∉ obs)
  ∧ isImagePreloaded "a.png" w1 = false
  ∧ srcOf 2%positive w2 = "a.png"
  ∧ isImagePreloaded "a.png" w2 = true.
Proof.
  apply (intersecting_trigger_fills_src_on_load sample_page sample_config
           (exec (initializeImagePreloader sample_page sample_config) (new sample_nodes))
           1%positive 2%positive "a.png"); vm_compute; reflexivity.
Defined.


(** *** [preloadImages] *)

Lemma has_true (src : string) (w : World) : has src w = true ↔ src ∈ dom (preloadedImages w).
Proof. unfold has. by rewrite bool_decide_eq_true, elem_of_dom. Qed.

Lemma preloadImage_result_cache (src : string) (target : option node) (w : World) :
  Inv w →
  let w' := preloadImage_result src target w in
  if has src w
  then preloadedImages w' = preloadedImages w ∧ nextImage w' = nextImage w
  else preloadedImages w' = <[src := nextImage w]> (preloadedImages w)
       ∧ nextImage w' = S (nextImage w).
Proof.
  intros Hw. cbn zeta. unfold preloadImage_result.
  destruct (cached src w) as [[id p]|] eqn:Hc.
  - assert (has src w = true) as ->.
    { apply cached_Some in Hc as [Hm _]. unfold has. apply bool_decide_eq_true_2. by eexists. }
    destruct (cached_flags src w id p Hw Hc) as [_ [(_ & -> & _)|(_ & -> & ->)]]; [|done].
    destruct (settled_filled_cache (nextPromise w) (Fulfilled id) [] target src (promised w))
      as (_ & E2 & E3 & _).
    cbn [foldl] in E2, E3. by rewrite E2, E3.
  - apply cached_None in Hc; [|done].
    assert (has src w = false) as ->; [|done].
    unfold has. apply bool_decide_eq_false_2. rewrite Hc. by intros [? ?].
Qed.

Lemma preloadImages_cons (src : string) (rest : list string) (w : World) :
  exec (preloadImages (src :: rest)) w
  = exec (preloadImages rest) (preloadImage_result src None w).
Proof.
  unfold exec. cbn [preloadImages]. rewrite bind_apply, preloadImage_spec, bind_apply.
  by destruct (preloadImages rest (preloadImage_result src None w)) as [[ps|e] w'].
Qed.

Lemma preloadImages_cache (sources : list string) (w : World) :
  Inv w →
  let w' := exec (preloadImages sources) w in
  dom (preloadedImages w') = dom (preloadedImages w) ∪ list_to_set sources
  ∧ nextImage w'
    = (nextImage w + size (list_to_set sources ∖ dom (preloadedImages w) : gset string))%nat.
Proof.
  revert w. induction sources as [|src rest IH]; intros w Hw; cbn zeta.
  - cbn. split; [set_solver|].
    replace (∅ ∖ dom (preloadedImages w) : gset string) with (∅ : gset string) by set_solver.
    rewrite size_empty. lia.
  - rewrite preloadImages_cons.
    set (w1 := preloadImage_result src None w).
    assert (Inv w1) as Hw1 by (by apply preloadImage_Inv).
    destruct (IH w1 Hw1) as [Hd Hn].
    pose proof (preloadImage_result_cache src None w Hw) as Hc; cbn zeta in Hc.
    fold w1 in Hc. rewrite Hd, Hn. cbn [list_to_set].
    destruct (has src w) eqn:Hh; destruct Hc as [Hm Hi]; rewrite Hm, Hi.
    + apply has_true in Hh. split; [set_solver|].
      replace (({[src]} ∪ list_to_set rest) ∖ dom (preloadedImages w) : gset string)
        with (list_to_set rest ∖ dom (preloadedImages w) : gset string) by set_solver.
      done.
    + assert (src ∉ dom (preloadedImages w)) as Hnot by (intros ?%has_true; congruence).
      rewrite dom_insert_L. split; [set_solver|].
      replace (({[src]} ∪ list_to_set rest) ∖ dom (preloadedImages w) : gset string)
        with ({[src]} ∪ list_to_set rest ∖ ({[src]} ∪ dom (preloadedImages w)) : gset string)
        by (apply set_eq; intros x; destruct (decide (x = src)); set_solver).
      rewrite (size_union (C := gset string) {[src]}
                 (list_to_set rest ∖ ({[src]} ∪ dom (preloadedImages w)))) by set_solver.
      rewrite size_singleton. lia.
Qed.

(** X20: [preloadImages] leaves the Map with its old sources and the given
    ones, and has started exactly one image for each distinct source that was
    not in the Map: none for a source that is loaded or being fetched, none
    for a repetition. *)
Theorem preloadImages_one_image_per_new_source (pg : Page) (cfg : Config) (b : bool)
    (w : World) (sources : list string) :
  reachable pg cfg b w →
  let w' := exec (preloadImages sources) w in
  dom (preloadedImages w') = dom (preloadedImages w) ∪ list_to_set sources
  ∧ nextImage w'
    = (nextImage w + size (list_to_set sources ∖ dom (preloadedImages w) : gset string))%nat.
Proof. intros [Hw _]%reachable_Good. by apply preloadImages_cache. Qed.

Lemma preloadImages_one_image_per_new_source_witness :
  let w' := exec (preloadImages ["a.png"; "b.png"; "b.png"]) sample_fetching in
  dom (preloadedImages w')
  = dom (preloadedImages sample_fetching) ∪ list_to_set ["a.png"; "b.png"; "b.png"]
  ∧ nextImage w'
    = (nextImage sample_fetching
       + size (list_to_set ["a.png"; "b.png"; "b.png"] ∖ dom (preloadedImages sample_fetching)
               : gset string))%nat.
Proof.
  exact (preloadImages_one_image_per_new_source sample_page sample_config true
           sample_fetching ["a.png"; "b.png"; "b.png"] (sample_fetching_reachable true)).
Defined.


(** A settled promise stays as it is. *)
Lemma preloadImage_settled (src : string) (target : option node) (q : nat) (v : Settled) :
  preserves (fun w => promises w !! q = Some v) (preloadImage src target).
Proof.
  intros w Hq. rewrite preloadImage_spec. cbn [snd]. unfold preloadImage_result.
  destruct (cached src w) as [[id p]|]; [|exact Hq].
  destruct (p_loaded p); [|by destruct (p_loading p)].
  rewrite settled_promises.
  destruct (filled_cache target src (promised w)) as [_ ->]. cbn. by rewrite Hq.
Qed.

Lemma preloadImages_settled (sources : list string) (q : nat) (v : Settled) :
  preserves (fun w => promises w !! q = Some v) (preloadImages sources).
Proof.
  induction sources as [|src rest IH]; cbn [preloadImages].
  - apply preserves_ret.
  - apply preserves_bind; [apply preloadImage_settled|]. intros a.
    apply preserves_bind; [apply IH|]. intros ps. apply preserves_ret.
Qed.

Lemma all_fulfilled_not_rejected (ps : list nat) (table : gmap nat Settled) (ids : list nat) :
  all_fulfilled ps table = Some ids →
  ¬ Exists (fun p => table !! p = Some Rejected) ps.
Proof.
  revert ids. induction ps as [|p ps IH]; intros ids; cbn [all_fulfilled].
  - intros _ H. inversion H.
  - destruct (table !! p) as [[i|]|] eqn:E; try done.
    destruct (all_fulfilled ps table) as [ids'|] eqn:E'; [|done]. intros _ H.
    inversion H as [? ? Hp|? ? Hp]; subst; [congruence|]. by eapply IH.
Qed.

Lemma preloadImages_loaded (sources : list string) (w : World) :
  Inv w → Forall (fun src => isImagePreloaded src w = true) sources →
  ∃ ps w', preloadImages sources w = (Normal ps, w')
    ∧ all_fulfilled ps (promises w')
      = Some (omap (fun src => preloadedImages w !! src) sources)
    ∧ length ps = length sources
    ∧ preloads w' = preloads w ∧ preloadedImages w' = preloadedImages w
    ∧ nextImage w' = nextImage w ∧ nodes w' = nodes w.
Proof.
  revert w. induction sources as [|src rest IH]; intros w Hw Hall.
  - exists [], w. done.
  - inversion Hall as [|? ? Hsrc Hrest]; subst.
    unfold isImagePreloaded in Hsrc.
    destruct (cached src w) as [[id p]|] eqn:Hc; [|done].
    pose proof (preloadImage_Inv src None w Hw) as Hw1.
    pose proof (preloadImage_spec src None w) as Hspec.
    unfold preloadImage_result in Hspec, Hw1. rewrite Hc, Hsrc in Hspec, Hw1.
    cbn [filled] in Hspec, Hw1.
    set (w1 := settled (nextPromise w) (Fulfilled id) (promised w)) in *.
    destruct (settled_cache (nextPromise w) (Fulfilled id) (promised w))
      as [(E1 & E2 & E3 & E4) E5]. fold w1 in E1, E2, E3, E4, E5.
    cbn in E1, E2, E3, E4, E5.
    assert (promises w1 !! nextPromise w = Some (Fulfilled id)) as Hq.
    { unfold w1. rewrite settled_promises. cbn.
      destruct (promises w !! nextPromise w) as [v|] eqn:E.
      - apply (inv_settled w Hw) in E. lia.
      - by rewrite bool_decide_eq_true_2. }
    destruct (IH w1 Hw1) as (ps & w' & Hrun & Hful & Hlen & F1 & F2 & F3 & F4).
    { eapply Forall_impl; [exact Hrest|]. intros s'. unfold isImagePreloaded, cached.
      by rewrite E1, E3. }
    exists (nextPromise w :: ps), w'. split_and!.
    + cbn [preloadImages]. by rewrite bind_apply, Hspec, bind_apply, Hrun.
    + cbn [all_fulfilled omap list_omap].
      pose proof (preloadImages_settled rest (nextPromise w) (Fulfilled id) w1 Hq) as Hq'.
      rewrite Hrun in Hq'. cbn [snd] in Hq'. rewrite Hq', Hful.
      apply cached_Some in Hc as [-> _]. by rewrite E3.
    + cbn. by rewrite Hlen.
    + congruence.
    + congruence.
    + congruence.
    + congruence.
Qed.

(** X21: [preloadImages] on sources that are all loaded fetches nothing and
    leaves the page alone; its promise is fulfilled at once with the cached
    images, in the order of the sources. *)
Theorem preloadImages_of_loaded_sources (pg : Page) (cfg : Config) (b : bool)
    (w : World) (sources : list string) :
  reachable pg cfg b w →
  Forall (fun src => isImagePreloaded src w = true) sources →
  ∃ ps w', preloadImages sources w = (Normal ps, w')
    ∧ preloadImages_result ps w'
      = Some (omap (fun src => preloadedImages w !! src) sources)
    ∧ length ps = length sources
    ∧ nextImage w' = nextImage w ∧ nodes w' = nodes w.
Proof.
  intros [Hw _]%reachable_Good Hall.
  destruct (preloadImages_loaded sources w Hw Hall)
    as (ps & w' & Hrun & Hful & Hlen & _ & _ & E & F).
  exists ps, w'. split_and!; try done.
  unfold preloadImages_result. rewrite bool_decide_eq_false_2; [done|].
  by eapply all_fulfilled_not_rejected.
Qed.


Lemma preloadImages_of_loaded_sources_witness :
  ∃ ps w', preloadImages ["a.png"; "a.png"] sample_loaded = (Normal ps, w')
    ∧ preloadImages_result ps w'
      = Some (omap (fun src => preloadedImages sample_loaded !! src) ["a.png"; "a.png"])
    ∧ length ps = length ["a.png"; "a.png"]
    ∧ nextImage w' = nextImage sample_loaded ∧ nodes w' = nodes sample_loaded.
Proof.
  apply (preloadImages_of_loaded_sources sample_page sample_config false).
  - exact (sample_loaded_reachable false).
  - apply Forall_cons. split; [vm_compute; reflexivity|].
    apply Forall_cons. split; [vm_compute; reflexivity|]. apply Forall_nil. exact I.
Defined.

(** *** A failed load *)

(** X22: a source that is not in the Map is requested through [preloadImages]
    and its image fails: the promise, pending until then, gives the empty
    list; the source is out of the Map again, and the next request for it
    starts a new image. *)
Theorem failed_preload_gives_empty_list_and_allows_retry (pg : Page) (cfg : Config)
    (b : bool) (w : World) (src : string) :
  reachable pg cfg b w → has src w = false →
  let w1 := exec (preloadImages [src]) w in
  let w2 := exec (image_error (nextImage w)) w1 in
  let w3 := exec (preloadImages [src]) w2 in
  fst (preloadImages [src] w) = Normal [nextPromise w]
  ∧ preloadImages_result [nextPromise w] w1 = None
  ∧ preloadImages_result [nextPromise w] w2 = Some []
  ∧ has src w2 = false
  ∧ nextImage w3 = S (S (nextImage w))
  ∧ cached src w3
    = Some (S (nextImage w), mkPreload src false true Fetching None (nextPromise w2) []).
Proof.
  intros Hr Hh w1 w2 w3. pose proof (reachable_Good _ _ _ _ Hr) as [Hw _].
  pose proof (has_false_cached src w Hh) as Hc.
  set (p := mkPreload src false true Fetching None (nextPromise w) []).
  assert (preloadImages [src] w
          = (Normal [nextPromise w], fetching src None (nextPromise w) (promised w))) as Hrun.
  { cbn [preloadImages]. rewrite bind_apply, preloadImage_spec. unfold preloadImage_result.
    by rewrite Hc. }
  assert (w1 = fetching src None (nextPromise w) (promised w)) as Hw1.
  { unfold w1, exec. by rewrite Hrun. }
  assert (promises w !! nextPromise w = None) as Hq.
  { destruct (promises w !! nextPromise w) as [v|] eqn:E; [|done].
    apply (inv_settled w Hw) in E. lia. }
  assert (preloads w1 !! nextImage w = Some p) as Hp.
  { rewrite Hw1. cbn. by rewrite lookup_insert_eq. }
  assert (promises w1 = promises w ∧ nextImage w1 = S (nextImage w)) as [Hs1 Hn1].
  { by rewrite Hw1. }
  set (wc := set_console (console w1 ++ [(warn, "Failed to preload image")])
               (set_preloadedImages (delete src (preloadedImages w1))
                  (set_preloads (<[nextImage w := mkPreload src false false Failed None
                                                    (nextPromise w) []]> (preloads w1)) w1))).
  assert (w2 = settled (nextPromise w) Rejected wc) as Hw2.
  { unfold w2, exec. rewrite image_error_spec, Hp. cbn [p p_status snd].
    by rewrite bool_decide_eq_true_2 by done. }
  destruct (settled_cache (nextPromise w) Rejected wc) as [(E1 & E2 & E3 & E4) _].
  rewrite <- Hw2 in E1, E2, E3, E4.
  assert (promises w2 !! nextPromise w = Some Rejected) as Hq2.
  { rewrite Hw2, settled_promises. replace (promises wc) with (promises w) by done.
    by rewrite Hq, bool_decide_eq_true_2. }
  assert (has src w2 = false) as Hh2.
  { unfold has. rewrite E3. cbn. rewrite lookup_delete_eq.
    apply bool_decide_eq_false_2. by intros [? ?]. }
  assert (Inv w2) as Hi2.
  { apply (image_error_Good false (nextImage w) w1).
    apply (preloadImages_Good false [src] w). by split. }
  pose proof (preloadImages_cons src [] w2) as Hw3. fold w3 in Hw3. cbn in Hw3.
  pose proof (preloadImage_result_cache src None w2 Hi2) as Hcache. cbn zeta in Hcache.
  rewrite Hh2, <- Hw3 in Hcache. destruct Hcache as [Hm3 Hn3].
  split_and!.
  - by rewrite Hrun.
  - unfold preloadImages_result. cbn [all_fulfilled].
    rewrite Hs1, Hq. rewrite bool_decide_eq_false_2; [done|].
    intros H. inversion H as [? ? Hx|? ? Hx]; subst.
    + congruence.
    + inversion Hx.
  - unfold preloadImages_result. rewrite bool_decide_eq_true_2; [done|]. by left.
  - exact Hh2.
  - rewrite Hn3, E2. exact (f_equal S Hn1).
  - assert (nextImage w2 = S (nextImage w)) as Hn2 by (by rewrite E2).
    apply cached_Some. rewrite Hm3, Hn2, lookup_insert_eq. split; [done|].
    rewrite Hw3. unfold preloadImage_result. rewrite (has_false_cached src w2 Hh2).
    cbn. by rewrite Hn2, lookup_insert_eq.
Qed.

Lemma failed_preload_gives_empty_list_and_allows_retry_witness :
  let w := sample_loaded in
  let w1 := exec (preloadImages ["b.png"]) w in
  let w2 := exec (image_error (nextImage w)) w1 in
  let w3 := exec (preloadImages ["b.png"]) w2 in
  fst (preloadImages ["b.png"] w) = Normal [nextPromise w]
  ∧ preloadImages_result [nextPromise w] w1 = None
  ∧ preloadImages_result [nextPromise w] w2 = Some []
  ∧ has "b.png" w2 = false
  ∧ nextImage w3 = S (S (nextImage w))
  ∧ cached "b.png" w3
    = Some (S (nextImage w), mkPreload "b.png" false true Fetching None (nextPromise w2) []).
Proof.
  apply (failed_preload_gives_empty_list_and_allows_retry sample_page sample_config false).
  - exact (sample_loaded_reachable false).
  - vm_compute. reflexivity.
Defined.


(** *** Initialisation, the fallback and [destroy] *)

Lemma set_listeners_nil (w : World) : set_listeners (listeners w ++ []) w = w.
Proof. destruct w. cbn. by rewrite app_nil_r. Qed.

Lemma set_listeners_app (w : World) (la lb : list Listener) :
  set_listeners (listeners (set_listeners (listeners w ++ la) w) ++ lb)
    (set_listeners (listeners w ++ la) w)
  = set_listeners (listeners w ++ la ++ lb) w.
Proof. destruct w. cbn. by rewrite app_assoc. Qed.

(** The listeners of the fallback: one on every trigger that has images to
    preload, holding those images; [imgs] gives the images under a trigger. *)
Definition legacy_listeners (imgs : node → list node) (triggers : list node) : list Listener :=
  map (fun t => mkListener t (LegacyHover (imgs t)) false)
      (List.filter (fun t => negb (bool_decide (imgs t = []))) triggers).

(** The message of the fallback. *)
Definition fallback_warning : LogEntry :=
  (warn, "IntersectionObserver not supported, falling back to hover preloading").

Section Fallback.
Variable pg : Page.
Variable cfg : Config.
Variable imgs : node → list node.

Lemma legacy_forEach (l : list node) (w : World) :
  (∀ t, t ∈ l → descendantsWith pg t (preloadAttribute cfg) = Normal (imgs t)) →
  forEach l (fun trigger =>
    bind (fun w => (descendantsWith pg trigger (preloadAttribute cfg), w)) (fun found =>
      if bool_decide (length found = 0%nat) then ret tt
      else addListener (mkListener trigger (LegacyHover found) false))) w
  = (Normal tt, set_listeners (listeners w ++ legacy_listeners imgs l) w).
Proof.
  revert w. induction l as [|t l IH]; intros w Hdesc; cbn [forEach].
  - by rewrite set_listeners_nil.
  - rewrite bind_apply, bind_apply, (Hdesc t) by apply list_elem_of_here.
    unfold legacy_listeners. cbn [List.filter].
    destruct (imgs t) as [|i rest] eqn:Himgs; cbn [length].
    + rewrite bool_decide_eq_true_2 by done. cbn [negb]. unfold ret at 1.
      apply IH. intros t' Hin. apply Hdesc. by apply list_elem_of_further.
    + rewrite !bool_decide_eq_false_2 by done. cbn [negb map].
      unfold addListener at 1. cbn [modify]. rewrite IH.
      * fold (legacy_listeners imgs l). rewrite Himgs. by rewrite (set_listeners_app w [_]).
      * intros t' Hin. apply Hdesc. by apply list_elem_of_further.
Qed.

Lemma setupLegacyHoverPreloading_spec (triggers : list node) (w : World) :
  elementsOfClass pg (triggerClass cfg) = Normal triggers →
  (∀ t, t ∈ triggers → descendantsWith pg t (preloadAttribute cfg) = Normal (imgs t)) →
  setupLegacyHoverPreloading pg cfg w
  = (Normal tt, set_listeners (listeners w ++ legacy_listeners imgs triggers) w).
Proof.
  intros Htriggers Hdesc. unfold setupLegacyHoverPreloading.
  rewrite bind_apply, Htriggers. by apply legacy_forEach.
Qed.

Lemma fallback_run (triggers : list node) (w : World) :
  hasIntersectionObserver pg = false →
  elementsOfClass pg (triggerClass cfg) = Normal triggers →
  (∀ t, t ∈ triggers → descendantsWith pg t (preloadAttribute cfg) = Normal (imgs t)) →
  isInitialized w = false →
  let w' := exec (initializeImagePreloader pg cfg) w in
  isInitialized w' = false
  ∧ listeners w' = (listeners w ++ legacy_listeners imgs triggers)%list
  ∧ console w' = (console w ++ [fallback_warning])%list.
Proof.
  intros Hio Htriggers Hdesc Hw. unfold exec, initializeImagePreloader.
  rewrite bind_gets, Hw, Hio. cbn [negb]. unfold log. rewrite bind_modify.
  rewrite (setupLegacyHoverPreloading_spec triggers) by done.
  cbn [snd]. by destruct w.
Qed.

End Fallback.

(** X23: without [IntersectionObserver] every run of the initialisation logs
    the warning and adds a [mouseenter] listener to each trigger that has
    images to preload, holding those images, and the preloader never counts
    as initialised: a second run adds the same listeners once more. *)
Theorem fallback_adds_the_listeners_on_every_run (pg : Page) (cfg : Config)
    (triggers : list node) (imgs : node → list node) (w : World) :
  hasIntersectionObserver pg = false →
  elementsOfClass pg (triggerClass cfg) = Normal triggers →
  (∀ t, t ∈ triggers → descendantsWith pg t (preloadAttribute cfg) = Normal (imgs t)) →
  isInitialized w = false →
  let w1 := exec (initializeImagePreloader pg cfg) w in
  let w2 := exec (initializeImagePreloader pg cfg) w1 in
  isInitialized w1 = false ∧ isInitialized w2 = false
  ∧ listeners w1
    = (listeners w
       ++ map (fun t => mkListener t (LegacyHover (imgs t)) false)
            (List.filter (fun t => negb (bool_decide (imgs t = []))) triggers))%list
  ∧ listeners w2 = (listeners w1 ++ legacy_listeners imgs triggers)%list
  ∧ listeners w2
    = (listeners w ++ legacy_listeners imgs triggers ++ legacy_listeners imgs triggers)%list
  ∧ console w2 = (console w ++ [fallback_warning; fallback_warning])%list.
Proof.
  intros Hio Htriggers Hdesc Hw. cbn zeta.
  destruct (fallback_run pg cfg imgs triggers w Hio Htriggers Hdesc Hw) as (H1 & H2 & H3).
  destruct (fallback_run pg cfg imgs triggers _ Hio Htriggers Hdesc H1) as (H4 & H5 & H6).
  split_and!; try done.
  - by rewrite H5, H2, app_assoc.
  - by rewrite H6, H3, <- app_assoc.
Qed.

Lemma fallback_adds_the_listeners_on_every_run_witness :
  let w1 := exec (initializeImagePreloader sample_page_legacy sample_config)
              (new sample_nodes) in
  let w2 := exec (initializeImagePreloader sample_page_legacy sample_config) w1 in
  isInitialized w2 = false
  ∧ listeners w1 = [mkListener 1%positive (LegacyHover [2%positive]) false]
  ∧ listeners w2 = [mkListener 1%positive (LegacyHover [2%positive]) false;
                    mkListener 1%positive (LegacyHover [2%positive]) false].
Proof.
  destruct (fallback_adds_the_listeners_on_every_run sample_page_legacy sample_config
              [1%positive] (fun t => if bool_decide (t = 1%positive) then [2%positive] else [])
              (new sample_nodes))
    as (_ & Hinit & Hone & _ & Htwo & _).
  - reflexivity.
  - vm_compute. reflexivity.
  - intros t Hin. apply list_elem_of_singleton in Hin. subst t. vm_compute. reflexivity.
  - reflexivity.
  - cbn zeta. split_and!; [exact Hinit | etransitivity; [exact Hone|] | etransitivity; [exact Htwo|]];
      vm_compute; reflexivity.
Defined.

Section Initialise.
Variable pg : Page.
Variable cfg : Config.
Variable triggers : list node.
Hypothesis Hio : hasIntersectionObserver pg = true.
Hypothesis Hopts : observerOptionsRejected pg = false.
Hypothesis Htriggers : elementsOfClass pg (triggerClass cfg) = Normal triggers.
Hypothesis Hhover : enableHoverPreload cfg = true.

Definition hover_listeners : list Listener :=
  map (fun t => mkListener t (HoverPreload t) true) triggers.


Lemma observeElements_spec (w : World) :
  ∃ w', observeElements pg cfg w = (Normal tt, w')
        ∧ listeners w' = listeners w ∧ isInitialized w' = isInitialized w.
Proof.
  unfold observeElements. rewrite bind_gets. destruct (observer w) as [obs|]; [|by exists w].
  rewrite bind_apply, Htriggers. clear obs. revert w. generalize triggers. intros l.
  induction l as [|t ts IH]; intros w; cbn [forEach]; [by exists w|].
  rewrite bind_apply, bind_gets. case_bool_decide.
  - apply IH.
  - rewrite !bind_modify. cbn [modify].
    match goal with |- ∃ w', forEach _ _ ?w1 = _ ∧ _ => destruct (IH w1) as (w' & Hr & Hl & Hi) end.
    exists w'. split; [exact Hr|]. rewrite Hl, Hi. by destruct w as [? ? ? ? ? ? [o|] ? ? ? ? ?].
Qed.

Lemma setupHoverPreloading_spec (w : World) :
  setupHoverPreloading pg cfg w
  = (Normal tt, set_listeners (listeners w ++ hover_listeners) w).
Proof.
  unfold setupHoverPreloading, hover_listeners. rewrite bind_apply, Htriggers.
  revert w. generalize triggers. intros l.
  induction l as [|t ts IH]; intros w; cbn [forEach map].
  - by rewrite set_listeners_nil.
  - rewrite bind_apply. unfold addListener at 1. cbn [modify]. rewrite IH.
    by rewrite (set_listeners_app w [_]).
Qed.

Lemma initializeImagePreloader_first (w : World) :
  isInitialized w = false →
  ∃ w', initializeImagePreloader pg cfg w = (Normal tt, w')
        ∧ isInitialized w' = true
        ∧ listeners w' = (listeners w ++ hover_listeners)%list.
Proof.
  intros Hw. unfold initializeImagePreloader. rewrite bind_gets, Hw, Hio. cbn [negb].
  unfold try_catch, setupIntersectionObserver. rewrite Hopts, bind_modify.
  destruct (observeElements_spec (set_observer (Some []) w)) as (wo & Hrun & Hl & Hi).
  rewrite bind_apply, Hrun, Hhover. cbn [when]. rewrite bind_apply, setupHoverPreloading_spec.
  cbn [modify]. eexists. split; [reflexivity|]. cbn. by rewrite Hl.
Qed.

Lemma initializeImagePreloader_again (w : World) :
  isInitialized w = true → initializeImagePreloader pg cfg w = (Normal tt, w).
Proof. intros Hw. unfold initializeImagePreloader. by rewrite bind_gets, Hw. Qed.

End Initialise.

(** X24: after a first initialisation a second one changes nothing, but
    [destroy()] leaves the hover listeners on the triggers, so that
    initialising again after it puts a second listener on every trigger. *)
Theorem destroy_keeps_the_hover_listeners (pg : Page) (cfg : Config) (w : World)
    (triggers : list node) :
  hasIntersectionObserver pg = true → observerOptionsRejected pg = false →
  elementsOfClass pg (triggerClass cfg) = Normal triggers →
  enableHoverPreload cfg = true → isInitialized w = false →
  let w1 := exec (initializeImagePreloader pg cfg) w in
  let w2 := exec destroy w1 in
  let w3 := exec (initializeImagePreloader pg cfg) w2 in
  exec (initializeImagePreloader pg cfg) w1 = w1
  ∧ listeners w2 = (listeners w ++ hover_listeners triggers)%list
  ∧ isInitialized w2 = false ∧ observer w2 = None
  ∧ listeners w3 = (listeners w ++ hover_listeners triggers ++ hover_listeners triggers)%list.
Proof.
  intros Hio Hopts Htr Hhover Hw w1 w2 w3.
  destruct (initializeImagePreloader_first pg cfg triggers Hio Hopts Htr Hhover w Hw)
    as (w' & Hrun & Hi & Hl).
  assert (w1 = w') as Hw1 by (unfold w1, exec; by rewrite Hrun).
  assert (listeners w2 = listeners w1 ∧ isInitialized w2 = false ∧ observer w2 = None)
    as (Hl2 & Hi2 & Ho2) by (unfold w2; by destruct w1).
  destruct (initializeImagePreloader_first pg cfg triggers Hio Hopts Htr Hhover w2 Hi2)
    as (w'' & Hrun3 & Hi3 & Hl3).
  assert (w3 = w'') as Hw3 by (unfold w3, exec; by rewrite Hrun3).
  split_and!; try done.
  - unfold exec. rewrite (initializeImagePreloader_again pg cfg w1); [done|]. by rewrite Hw1.
  - by rewrite Hl2, Hw1.
  - by rewrite Hw3, Hl3, Hl2, Hw1, Hl, app_assoc.
Qed.

Lemma destroy_keeps_the_hover_listeners_witness :
  let w := new sample_nodes in
  let w1 := exec (initializeImagePreloader sample_page sample_config) w in
  let w2 := exec destroy w1 in
  let w3 := exec (initializeImagePreloader sample_page sample_config) w2 in
  exec (initializeImagePreloader sample_page sample_config) w1 = w1
  ∧ listeners w2 = (listeners w ++ hover_listeners [1%positive])%list
  ∧ isInitialized w2 = false ∧ observer w2 = None
  ∧ listeners w3
    = (listeners w ++ hover_listeners [1%positive] ++ hover_listeners [1%positive])%list.
Proof.
  apply (destroy_keeps_the_hover_listeners sample_page sample_config (new sample_nodes)
           [1%positive]); vm_compute; reflexivity.
Defined.

End ImagePreloaderFacts.

(** ** Video background *)

Module VideoBackgroundFacts.
Import Js Dom JsFacts VideoBackgroundManager.

(** *** [restoreVideoState] *)

Section Restore.
Variable pg : Page.
Variable w0 : World.
Variable n : node.

(** The stored time, when [restoreVideoState] can read it and takes it for
    a seek from the time [t0]. *)
Definition seeks (t0 : float) (time : float) : Prop :=
  ∃ s, storage w0 !! "videoTime" = Some s ∧ truthy s = true
       ∧ hasSessionStorage pg = true ∧ getItemThrows pg = false
       ∧ time = parseFloat pg s ∧ is_finite time = true
       ∧ ltb 0x1.999999999999ap-4 (abs (sub t0 time)) = true.

(** What [restoreVideoState] keeps of the state [w0] it starts from. *)
Definition restored (w : World) : Prop :=
  storage w = storage w0 ∧ video w = video w0
  ∧ paused (media w !!! n) = paused (media w0 !!! n)
  ∧ (currentTime (media w !!! n) = currentTime (media w0 !!! n)
     ∨ seeks (currentTime (media w0 !!! n)) (currentTime (media w !!! n))).

Lemma restored_aside (f : World → World) :
  (∀ w, storage (f w) = storage w ∧ video (f w) = video w ∧ media (f w) = media w) →
  preserves restored (modify f).
Proof.
  intros Hf. apply preserves_modify. intros w (Hs & Hv & Hp & Ht).
  destruct (Hf w) as (E1 & E2 & E3). unfold restored. by rewrite E1, E2, E3.
Qed.

Ltac restored_leaf :=
  apply restored_aside; intros [? ? ? ? ? ? ? ? ? ? ? ? ? ? ? ?]; done.

Lemma wasVideoReady_restored : preserves restored (wasVideoReady pg).
Proof. unfold wasVideoReady, getItem. pres_by restored_leaf. Qed.

Lemma ensureVideoPlayback_restored : preserves restored (ensureVideoPlayback pg).
Proof. unfold ensureVideoPlayback, play. pres_by restored_leaf. Qed.

Lemma seek_restored :
  video w0 = Some n →
  preserves restored
    (bind (getItem pg "videoTime") (fun storedTime =>
       match storedTime with
       | Some s =>
           if truthy s then
             let time := parseFloat pg s in
             bind (gets (fun w => media w !!! n)) (fun m =>
               if negb (is_nan time)
                  && ltb 0x1.999999999999ap-4 (abs (sub (currentTime m) time))
               then setCurrentTime n time
               else ret tt)
           else ret tt
       | None => ret tt
       end)).
Proof.
  intros Hv w Hw. pose proof Hw as (Hs & Hvw & Hp & Ht).
  unfold getItem. destruct (hasSessionStorage pg) eqn:Hhs; cbn [negb]; [|exact Hw].
  destruct (getItemThrows pg) eqn:Hgt; [exact Hw|].
  rewrite bind_gets. destruct (storage w !! "videoTime") as [s|] eqn:Hst; [|exact Hw].
  destruct (truthy s) eqn:Htr; [|exact Hw]. cbn zeta. rewrite bind_gets.
  destruct (negb (is_nan (parseFloat pg s))
            && ltb 0x1.999999999999ap-4
                 (abs (sub (currentTime (media w !!! n)) (parseFloat pg s)))) eqn:Hc;
    [|exact Hw].
  apply andb_prop in Hc as [Hnan Hfar]. unfold setCurrentTime.
  destruct (is_finite (parseFloat pg s)) eqn:Hfin; [|exact Hw].
  cbn [modify snd]. unfold restored. cbn [storage video media set_media].
  rewrite lookup_total_insert_eq. cbn [paused currentTime].
  split_and!; [done..|].
  destruct Ht as [Ht|Ht].
  - right. exists s. rewrite <- Hs, <- Ht. done.
  - right. destruct Ht as (s' & Hs' & Htr' & _ & _ & Heq & Hfin' & Hfar').
    rewrite <- Hs, Hst in Hs'. injection Hs' as <-. exists s. rewrite <- Hs.
    split_and!; try done. by rewrite <- Heq.
Qed.

Lemma restoreVideoState_restored :
  video w0 = Some n → preserves restored (restoreVideoState pg).
Proof.
  intros Hv w Hw. pose proof Hw as (_ & Hvw & _). unfold restoreVideoState.
  rewrite bind_gets, Hvw, Hv. clear Hvw. revert w Hw.
  match goal with |- ∀ w, restored w → restored (snd (?m w)) =>
    change (preserves restored m) end.
  apply preserves_try_catch; [|intros e; unfold log; restored_leaf].
  apply preserves_bind; [apply wasVideoReady_restored|]. intros ready.
  apply preserves_bind; [apply preserves_gets|]. intros p.
  apply preserves_bind.
  { destruct p as [p|]; [|apply preserves_ret]. destruct ready; [|apply preserves_ret].
    unfold onNode. pres_by restored_leaf. }
  intros []. apply preserves_bind.
  { apply preserves_when. by apply seek_restored. }
  intros []. apply preserves_bind; [apply preserves_gets|]. intros m.
  apply preserves_if; [apply ensureVideoPlayback_restored|apply preserves_ret].
Qed.

End Restore.


Lemma restoreVideoState_normal (pg : Page) (w : World) :
  fst (restoreVideoState pg w) = Normal tt.
Proof.
  unfold restoreVideoState. rewrite bind_gets. destruct (video w) as [n|]; [|done].
  by apply try_catch_log_normal.
Qed.

(** X25: [restoreVideoState] returns normally in every browser and leaves
    the storage as it is.  It leaves the playback position alone, or sets it
    to the number read from 'videoTime', and then that number is finite and
    more than 0.1 away from the position it replaces; a position that is a
    number is never replaced by NaN. *)
Theorem restoreVideoState_seeks_only_to_a_stored_finite_time (pg : Page) (w : World)
    (n : node) :
  video w = Some n →
  let w' := exec (restoreVideoState pg) w in
  let t0 := currentTime (media w !!! n) in
  let t1 := currentTime (media w' !!! n) in
  fst (restoreVideoState pg w) = Normal tt
  ∧ storage w' = storage w
  ∧ paused (media w' !!! n) = paused (media w !!! n)
  ∧ (t1 = t0
     ∨ ∃ s, storage w !! "videoTime" = Some s ∧ t1 = parseFloat pg s
            ∧ is_nan t1 = false ∧ is_infinity t1 = false
            ∧ ltb 0x1.999999999999ap-4 (abs (sub t0 t1)) = true)
  ∧ (is_nan t0 = false → is_nan t1 = false).
Proof.
  intros Hv w' t0 t1.
  assert (restored pg w n w) as Hw by (unfold restored; auto).
  apply (restoreVideoState_restored pg w n Hv) in Hw. fold (exec (restoreVideoState pg) w) in Hw.
  fold w' in Hw. destruct Hw as (Hs & _ & Hp & Ht). fold t0 t1 in Ht.
  assert (∀ x, is_finite x = true → is_nan x = false ∧ is_infinity x = false) as Hfin.
  { intros x. unfold is_finite. destruct (is_nan x), (is_infinity x); done. }
  split_and!; [apply restoreVideoState_normal | done | done | |].
  - destruct Ht as [Ht|(s & Hst & _ & _ & _ & Heq & Hf & Hfar)]; [by left|right].
    exists s. destruct (Hfin _ Hf). done.
  - intros Hnan. destruct Ht as [->|(s & _ & _ & _ & _ & _ & Hf & _)]; [done|].
    by destruct (Hfin _ Hf).
Qed.

Lemma restoreVideoState_seeks_only_to_a_stored_finite_time_witness :
  let w := set_video (Some 1%positive) sample_later_visit in
  let w' := exec (restoreVideoState sample_page) w in
  let t0 := currentTime (media w !!! 1%positive) in
  let t1 := currentTime (media w' !!! 1%positive) in
  fst (restoreVideoState sample_page w) = Normal tt
  ∧ storage w' = storage w
  ∧ paused (media w' !!! 1%positive) = paused (media w !!! 1%positive)
  ∧ (t1 = t0
     ∨ ∃ s, storage w !! "videoTime" = Some s ∧ t1 = parseFloat sample_page s
            ∧ is_nan t1 = false ∧ is_infinity t1 = false
            ∧ ltb 0x1.999999999999ap-4 (abs (sub t0 t1)) = true)
  ∧ (is_nan t0 = false → is_nan t1 = false).
Proof.
  apply (restoreVideoState_seeks_only_to_a_stored_finite_time sample_page
           (set_video (Some 1%positive) sample_later_visit) 1%positive).
  reflexivity.
Defined.


(** *** Registrations *)

Lemma same_registration_eval (a b : Listener) :
  same_registration a b
  = bool_decide (l_type a = l_type b)
    && (bool_decide (l_target a = l_target b) && bool_decide (l_handler a = l_handler b)).
Proof.
  unfold same_registration. repeat case_bool_decide; cbn; try done; naive_solver.
Qed.

Lemma listens_eval (t : EventTarget) (type : string) (l : Listener) :
  listens t type l = bool_decide (l_type l = type) && bool_decide (l_target l = t).
Proof. unfold listens. repeat case_bool_decide; cbn; try done; naive_solver.
Qed.

(** *** [hidePlaceholderPermanently] *)

Definition hidden (p : node) (w : World) : World :=
  set_nodes (update p (setStyle "display" "none")
               (update p (setStyle "opacity" "0") (nodes w))) w.

Definition flagged (pg : Page) (w : World) : World :=
  if hasSessionStorage pg then
    if setItemThrows pg
    then set_console (console w ++ [(warn, "Failed to store video ready state:")]) w
    else set_storage (<["videoReady" := "true"]> (storage w)) w
  else w.

Lemma hidePlaceholderPermanently_spec (pg : Page) (w : World) (p : node) :
  placeholder w = Some p →
  hidePlaceholderPermanently pg w = (Normal tt, flagged pg (hidden p w)).
Proof.
  intros Hp. unfold hidePlaceholderPermanently, flagged, hidden, onNode, when, try_catch, setItem.
  rewrite bind_gets, Hp, !bind_modify.
  destruct (hasSessionStorage pg); [|done]. cbn [negb].
  destruct (setItemThrows pg); by destruct w.
Qed.

Lemma hidden_style (pg : Page) (w : World) (p : node) :
  let w' := flagged pg (hidden p w) in
  style (nodes w' !!! p) !! "opacity" = Some "0"
  ∧ style (nodes w' !!! p) !! "display" = Some "none".
Proof.
  cbn zeta. replace (nodes (flagged pg (hidden p w))) with (nodes (hidden p w)).
  - unfold hidden. cbn [nodes set_nodes].
    rewrite !MobileNavigationFacts.lookup_update, !decide_True by done. cbn.
    rewrite lookup_insert_ne by done. by rewrite !lookup_insert_eq.
  - unfold flagged. destruct (hasSessionStorage pg); [|done]. by destruct (setItemThrows pg).
Qed.

Lemma flagged_storage (pg : Page) (w : World) :
  hasSessionStorage pg = true → setItemThrows pg = false →
  storage (flagged pg w) !! "videoReady" = Some "true".
Proof. intros Hs Ht. unfold flagged. rewrite Hs, Ht. cbn. by rewrite lookup_insert_eq. Qed.


(** *** Running the methods *)

Lemma bind_fresh {B : Type} (k : nat → M World B) (w : World) :
  bind fresh k w = k (nextClosure w) (set_nextClosure (S (nextClosure w)) w).
Proof. reflexivity. Qed.

Lemma bind_schedule {B : Type} (when : When) (cb : Callback) (k : positive → M World B)
    (w : World) :
  bind (schedule when cb) k w
  = k (nextTask w)
      (set_nextTask (Pos.succ (nextTask w))
         (set_tasks (tasks w ++ [mkTask (nextTask w) when cb]) w)).
Proof. reflexivity. Qed.

Lemma bind_throw {A B : Type} (e : string) (k : A → M World B) (w : World) :
  bind (throw e) k w = (Throw e, w).
Proof. reflexivity. Qed.

(** A registration for an event for which the target has no listener. *)
Lemma register_new (l : Listener) (ls : list Listener) :
  Forall (fun l' => l_type l' ≠ l_type l) ls → register l ls = (ls ++ [l])%list.
Proof.
  intros Hall. unfold register.
  replace (existsb (same_registration l) ls) with false; [done|].
  symmetry. apply not_true_is_false. intros (l' & Hin & Hsame)%existsb_exists.
  rewrite Forall_forall in Hall. apply list_elem_of_In, Hall in Hin.
  rewrite same_registration_eval in Hsame. apply andb_prop in Hsame as [Hty _].
  apply bool_decide_eq_true in Hty. congruence.
Qed.

Ltac run_fields :=
  cbn [nodes media storage video placeholder isInitialized isVideoLoading cleanupFunctions
       listeners tasks nextTask transitions nextClosure plays playCalls console
       set_nodes set_media set_storage set_video set_placeholder set_isInitialized
       set_isVideoLoading set_cleanupFunctions set_listeners set_tasks set_nextTask
       set_transitions set_nextClosure set_plays set_playCalls set_console fst snd
       app negb andb orb].

Ltac types_differ :=
  repeat (constructor; [cbn; discriminate|]); constructor.

Ltac run :=
  repeat first
    [ rewrite register_new by types_differ
    | rewrite bind_assoc | rewrite bind_modify | rewrite bind_gets | rewrite bind_ret
    | rewrite bind_fresh
    | rewrite bind_schedule | rewrite bind_throw | progress run_fields ].

(** *** [initializeVideoBackground] *)

Section Initialise.
Variable pg : Page.
Variable cfg : Config.
Variable v p : node.
Hypothesis Hv : getElementById pg (videoId cfg) = Some v.
Hypothesis Hp : getElementById pg (placeholderId cfg) = Some p.

(** The registrations of one initialisation on a first visit, for the
    closures numbered from [c]. *)
Definition video_listeners (c : nat) : list Listener :=
  [mkListener (TNode v) "canplaythrough" (OnCanPlayThrough c) false;
   mkListener (TNode v) "loadeddata" (OnLoadedData c) false;
   mkListener (TNode v) "canplay" (OnCanPlay c) false].

Definition swap_listeners (c : nat) : list Listener :=
  [mkListener TDocument "astro:before-swap" (BeforeSwapHandler c) false;
   mkListener TDocument "astro:after-swap" (AfterSwapHandler c) false].

(** A manager that has nothing registered: a new one, or one after
    [destroy]. *)
Definition bare (w : World) : Prop :=
  isInitialized w = false ∧ listeners w = [] ∧ tasks w = [] ∧ cleanupFunctions w = [].

Lemma initialize_first_visit (w : World) :
  bare w → hasSessionStorage pg = true → getItemThrows pg = false →
  storage w !! "videoReady" ≠ Some "true" →
  let c := nextClosure w in
  ∃ w', initializeVideoBackground pg cfg w = (Normal tt, w')
  ∧ listeners w' = (video_listeners c ++ swap_listeners (S c))%list
  ∧ tasks w' = [mkTask (nextTask w) (AfterMs (fallbackTimeout cfg)) (HidePlaceholder c)]
  ∧ cleanupFunctions w'
    = [RemoveVideoListener "canplaythrough" (OnCanPlayThrough c);
       RemoveVideoListener "loadeddata" (OnLoadedData c);
       RemoveVideoListener "canplay" (OnCanPlay c);
       ClearFallbackTimeout (nextTask w); RemoveSwapListeners (S c)]
  ∧ isInitialized w' = true ∧ video w' = Some v ∧ placeholder w' = Some p
  ∧ style (nodes w' !!! p) !! "opacity" = Some "1"
  ∧ storage w' = storage w ∧ media w' = media w
  ∧ playCalls w' = (if paused (media w !!! v) then S (playCalls w) else playCalls w)
  ∧ plays w' = (if paused (media w !!! v) && playReturnsPromise pg
                then plays w ++ [FromEnsure] else plays w)%list
  ∧ transitions w' !!! S c = mkTransition false None.
Proof.
  intros (Hi & Hl & Ht & Hc) Hs Hg Hflag c. subst c.
  destruct w as [ns ms st vi pl ini ivl cf ls ts nt tr nc pls pc con]. cbn in Hi, Hl, Ht, Hc, Hflag.
  subst ini ls ts cf. run_fields.
  unfold initializeVideoBackground, setupVideoLoading, setupViewTransitions,
    ensureVideoPlayback, play, getItem, try_catch.
  rewrite Hs, Hg, Hv, Hp.
  unfold addEventListener, onNode, setTimeout, set_transition.
  run. rewrite !bool_decide_eq_true_2 by (by eexists). run.
  rewrite (bool_decide_eq_false_2 _ Hflag). run.
  destruct (paused (ms !!! v)) eqn:Hpa; destruct (playReturnsPromise pg) eqn:Hpr; run.
  all: eexists; split; [reflexivity|]; run_fields.
  all: split_and!; try reflexivity; try apply lookup_total_insert_eq.
  all: rewrite MobileNavigationFacts.lookup_update, decide_True by done; cbn;
    by rewrite lookup_insert_eq.
Qed.

(** The same on a later page of the tab, where 'videoReady' is stored. *)
Lemma initialize_later_visit (w : World) :
  bare w → hasSessionStorage pg = true → getItemThrows pg = false →
  storage w !! "videoReady" = Some "true" →
  let c := nextClosure w in
  ∃ w', initializeVideoBackground pg cfg w = (Normal tt, w')
  ∧ listeners w' = swap_listeners c
  ∧ tasks w' = []
  ∧ cleanupFunctions w' = [RemoveSwapListeners c]
  ∧ isInitialized w' = true ∧ video w' = Some v ∧ placeholder w' = Some p
  ∧ style (nodes w' !!! p) !! "opacity" = Some "0"
  ∧ style (nodes w' !!! p) !! "display" = Some "none"
  ∧ storage w' !! "videoReady" = Some "true"
  ∧ media w' = media w ∧ playCalls w' = playCalls w ∧ plays w' = plays w
  ∧ transitions w' !!! c = mkTransition false None.
Proof.
  intros (Hi & Hl & Ht & Hc) Hs Hg Hflag c. subst c.
  destruct w as [ns ms st vi pl ini ivl cf ls ts nt tr nc pls pc con]. cbn in Hi, Hl, Ht, Hc, Hflag.
  subst ini ls ts cf. run_fields.
  unfold initializeVideoBackground, setupVideoLoading, setupViewTransitions, getItem, try_catch.
  rewrite Hs, Hg, Hv, Hp.
  unfold addEventListener, set_transition.
  run. rewrite !bool_decide_eq_true_2 by (by eexists). run.
  rewrite (bool_decide_eq_true_2 _ Hflag).
  rewrite bind_apply, (hidePlaceholderPermanently_spec pg _ p) by done.
  match goal with |- context [flagged pg ?x] => set (wh := x) end.
  pose proof (hidden_style pg (set_placeholder (Some p) (set_video (Some v)
                {| nodes := ns; media := ms; storage := st; video := vi; placeholder := pl;
                   isInitialized := false; isVideoLoading := ivl; cleanupFunctions := [];
                   listeners := []; tasks := []; nextTask := nt; transitions := tr;
                   nextClosure := nc; plays := pls; playCalls := pc; console := con |})) p)
    as [Ho Hd].
  cbn zeta in Ho, Hd. fold wh in Ho, Hd.
  assert (storage (flagged pg wh) !! "videoReady" = Some "true") as Hst.
  { unfold flagged. rewrite Hs. destruct (setItemThrows pg); [exact Hflag|].
    cbn. by rewrite lookup_insert_eq. }
  assert (listeners (flagged pg wh) = [] ∧ tasks (flagged pg wh) = []
          ∧ cleanupFunctions (flagged pg wh) = [] ∧ nextClosure (flagged pg wh) = nc
          ∧ video (flagged pg wh) = Some v ∧ placeholder (flagged pg wh) = Some p
          ∧ media (flagged pg wh) = ms ∧ playCalls (flagged pg wh) = pc
          ∧ plays (flagged pg wh) = pls) as (F1 & F2 & F3 & F4 & F5 & F6 & F7 & F8 & F9).
  { unfold flagged. rewrite Hs. by destruct (setItemThrows pg). }
  clearbody wh. run. rewrite F5. run. rewrite F1, F3, F4. run.
  eexists; split; [reflexivity|]; run_fields.
  split_and!; try done. apply lookup_total_insert_eq.
Qed.

(** In a browser that refuses the storage, the initialisation gives up
    before it has registered anything. *)
Lemma initialize_without_storage (w : World) :
  isInitialized w = false →
  hasSessionStorage pg = false ∨ getItemThrows pg = true →
  initializeVideoBackground pg cfg w
  = (Normal tt,
     set_console (console w ++ [(error, "VideoBackgroundManager initialization failed:")])
       (set_placeholder (Some p) (set_video (Some v) w))).
Proof.
  intros Hi Hno. unfold initializeVideoBackground, setupVideoLoading, getItem, try_catch, log.
  rewrite Hv, Hp. run. rewrite Hi. run. rewrite !bool_decide_eq_true_2 by (by eexists). run.
  destruct Hno as [H|H]; rewrite H; run; [done|].
  destruct (hasSessionStorage pg); run; done.
Qed.

(** *** The events of the video and the fallback timer *)

Ltac decide_all :=
  repeat match goal with
  | |- context [bool_decide ?P] =>
      first [ rewrite (bool_decide_eq_true_2 P) by (first [done | by repeat constructor])
            | rewrite (bool_decide_eq_false_2 P) by (first [discriminate | congruence | done]) ]
  end.

Lemma dispatchEvent_single (t : EventTarget) (type : string) (w : World) (l : Listener) :
  List.filter (listens t type) (listeners w) = [l] → l_once l = false →
  dispatchEvent pg t type w
  = bind (try_catch (run_handler pg (l_handler l)) (fun _ => log error "Uncaught"))
      (fun _ => ret tt) w.
Proof.
  intros Hf Ho. unfold dispatchEvent. rewrite bind_gets, Hf. cbn [forEach].
  rewrite bind_assoc, bind_gets, bool_decide_eq_true_2.
  - rewrite Ho. unfold when. by rewrite bind_assoc, bind_ret.
  - assert (l ∈ List.filter (listens t type) (listeners w)) as Hin by (rewrite Hf; by left).
    apply list_elem_of_In, filter_In in Hin as [Hin _]. by apply list_elem_of_In.
Qed.

Definition ready_handler (type : string) (c : nat) : Handler :=
  if bool_decide (type = "canplaythrough") then OnCanPlayThrough c
  else if bool_decide (type = "loadeddata") then OnLoadedData c
  else OnCanPlay c.

Definition ready_event (type : string) : Prop :=
  type = "canplaythrough" ∨ type = "loadeddata" ∨ type = "canplay".

Lemma video_listeners_filter (c c' : nat) (type : string) :
  ready_event type →
  List.filter (listens (TNode v) type) (video_listeners c ++ swap_listeners c')
  = [mkListener (TNode v) type (ready_handler type c) false].
Proof.
  intros [-> | [-> | ->]]; unfold video_listeners, swap_listeners, ready_handler;
    cbn [app List.filter]; rewrite !listens_eval; cbn [l_type l_target];
    decide_all; reflexivity.
Qed.

Lemma ready_handler_hides (type : string) (c : nat) :
  run_handler pg (ready_handler type c) = hidePlaceholderPermanently pg.
Proof. unfold ready_handler. by repeat case_bool_decide. Qed.

(** What a ready event of the video, or the fallback timer, does to a
    manager whose placeholder is [p]. *)
Lemma ready_event_hides (w : World) (c c' : nat) (type : string) :
  listeners w = (video_listeners c ++ swap_listeners c')%list → placeholder w = Some p →
  ready_event type →
  dispatchEvent pg (TNode v) type w = (Normal tt, flagged pg (hidden p w)).
Proof.
  intros Hl Hpl Hty.
  rewrite (dispatchEvent_single _ _ _ (mkListener (TNode v) type (ready_handler type c) false));
    [|rewrite Hl; by apply video_listeners_filter|done].
  cbn [l_handler]. rewrite ready_handler_hides, bind_apply. unfold try_catch.
  by rewrite (hidePlaceholderPermanently_spec pg w p Hpl).
Qed.

Lemma fallback_hides (w : World) (id : positive) (when : When) (c : nat) :
  tasks w = [mkTask id when (HidePlaceholder c)] → placeholder w = Some p →
  run_task pg cfg id w = (Normal tt, flagged pg (hidden p (set_tasks [] w))).
Proof.
  intros Ht Hpl. unfold run_task. rewrite bind_gets, Ht. cbn [List.find k_id].
  rewrite Pos.eqb_refl, bind_modify. cbn [List.filter k_id k_callback run_callback].
  rewrite Pos.eqb_refl. cbn [negb]. by rewrite (hidePlaceholderPermanently_spec pg _ p).
Qed.

(** *** [destroy] *)

Lemma destroy_first_visit (w : World) (c c' : nat) (id : positive) (ms : Z) :
  listeners w = (video_listeners c ++ swap_listeners c')%list →
  tasks w = [mkTask id (AfterMs ms) (HidePlaceholder c)] →
  cleanupFunctions w
  = [RemoveVideoListener "canplaythrough" (OnCanPlayThrough c);
     RemoveVideoListener "loadeddata" (OnLoadedData c);
     RemoveVideoListener "canplay" (OnCanPlay c);
     ClearFallbackTimeout id; RemoveSwapListeners c'] →
  video w = Some v → transitions w !!! c' = mkTransition false None →
  destroy w
  = (Normal tt,
     set_placeholder None
       (set_video None
          (set_isInitialized false
             (set_cleanupFunctions [] (set_tasks [] (set_listeners [] w)))))).
Proof.
  intros Hl Ht Hc Hvi Htr.
  destruct w as [ns med st vi pl ini ivl cf ls ts nt tr nc pls pc con].
  cbn in Hl, Ht, Hc, Hvi, Htr. subst ls ts cf vi.
  unfold destroy. run. cbn [forEach run_cleanup]. unfold removeEventListener, clearTimeout.
  unfold video_listeners, swap_listeners, unregister. cbn [app].
  repeat (run; cbn [List.filter]; rewrite ?same_registration_eval;
          cbn [l_type l_target l_handler is_timer k_when k_id]; rewrite ?Pos.eqb_refl;
          decide_all; cbn [andb negb]).
  unfold transition. run. rewrite Htr. run. reflexivity.
Qed.

Lemma destroy_later_visit (w : World) (c : nat) :
  listeners w = swap_listeners c → tasks w = [] →
  cleanupFunctions w = [RemoveSwapListeners c] →
  transitions w !!! c = mkTransition false None →
  destroy w
  = (Normal tt,
     set_placeholder None
       (set_video None
          (set_isInitialized false
             (set_cleanupFunctions [] (set_tasks [] (set_listeners [] w)))))).
Proof.
  intros Hl Ht Hc Htr.
  destruct w as [ns med st vi pl ini ivl cf ls ts nt tr nc pls pc con].
  cbn in Hl, Ht, Hc, Htr. subst ls ts cf.
  unfold destroy. run. cbn [forEach run_cleanup]. unfold removeEventListener, clearTimeout.
  unfold swap_listeners, unregister.
  repeat (run; cbn [List.filter]; rewrite ?same_registration_eval;
          cbn [l_type l_target l_handler]; decide_all; cbn [andb negb]).
  unfold transition. run. rewrite Htr. run. reflexivity.
Qed.

Lemma initialize_missing (w : World) :
  isInitialized w = false →
  getElementById pg (videoId cfg) = None ∨ getElementById pg (placeholderId cfg) = None →
  initializeVideoBackground pg cfg w
  = (Normal tt,
     set_console (console w ++ [(warn, "VideoBackgroundManager: Required elements not found")])
       (set_placeholder (getElementById pg (placeholderId cfg))
          (set_video (getElementById pg (videoId cfg)) w))).
Proof.
  intros Hi Hno. unfold initializeVideoBackground, try_catch, log. run. rewrite Hi. run.
  destruct Hno as [H|H]; rewrite H.
  - rewrite (bool_decide_eq_false_2 (is_Some None)) by apply is_Some_None. by run.
  - rewrite (bool_decide_eq_false_2 (is_Some None)) by apply is_Some_None.
    rewrite andb_false_r. by run.
Qed.

End Initialise.

Lemma initializeVideoBackground_normal (pg : Page) (cfg : Config) (w : World) :
  fst (initializeVideoBackground pg cfg w) = Normal tt.
Proof.
  unfold initializeVideoBackground. rewrite bind_gets. destruct (isInitialized w); [done|].
  by apply try_catch_log_normal.
Qed.

(** X26: on a first visit the initialisation shows the placeholder and
    schedules the fallback timer; each of the three ready events of the
    video, and the fallback timer, then hides the placeholder for good and
    stores 'videoReady'.  The listeners all stay registered. *)
Theorem placeholder_shown_until_first_ready_signal (pg : Page) (cfg : Config) (w : World)
    (v p : node) :
  getElementById pg (videoId cfg) = Some v → getElementById pg (placeholderId cfg) = Some p →
  bare w → hasSessionStorage pg = true → getItemThrows pg = false →
  storage w !! "videoReady" ≠ Some "true" →
  let w1 := exec (initializeVideoBackground pg cfg) w in
  style (nodes w1 !!! p) !! "opacity" = Some "1"
  ∧ tasks w1 = [mkTask (nextTask w) (AfterMs (fallbackTimeout cfg))
                  (HidePlaceholder (nextClosure w))]
  ∧ ∀ w2,
      (∃ type, ready_event type ∧ w2 = exec (dispatchEvent pg (TNode v) type) w1)
      ∨ w2 = exec (run_task pg cfg (nextTask w)) w1 →
      style (nodes w2 !!! p) !! "opacity" = Some "0"
      ∧ style (nodes w2 !!! p) !! "display" = Some "none"
      ∧ (setItemThrows pg = false → storage w2 !! "videoReady" = Some "true")
      ∧ listeners w2 = listeners w1.
Proof.
  intros Hv Hp Hbare Hs Hg Hflag w1.
  destruct (initialize_first_visit pg cfg v p Hv Hp w Hbare Hs Hg Hflag)
    as (w' & Hrun & Hl & Ht & _ & _ & _ & Hpl & Hop & _).
  assert (w1 = w') as -> by (unfold w1, exec; by rewrite Hrun).
  split_and!; [done..|]. intros w2 Hw2.
  assert (∃ w0, w2 = flagged pg (hidden p w0) ∧ listeners w0 = listeners w')
    as (w0 & -> & Hl0).
  { destruct Hw2 as [(type & Hty & ->)| ->].
    - exists w'. unfold exec.
      by rewrite (ready_event_hides pg v p w' (nextClosure w) (S (nextClosure w)) type Hl Hpl Hty).
    - exists (set_tasks [] w'). unfold exec.
      rewrite (fallback_hides pg cfg p w' _ _ _ Ht Hpl). by destruct w'. }
  destruct (hidden_style pg w0 p) as [Ho Hd]. split_and!; [done | done | |].
  - intros Hset. by apply flagged_storage.
  - rewrite <- Hl0. unfold flagged, hidden. destruct (hasSessionStorage pg); [|by destruct w0].
    destruct (setItemThrows pg); by destruct w0.
Qed.

(** X27: on a later page of the tab, where 'videoReady' is stored, the
    initialisation hides the placeholder at once; it registers no listener
    on the video, starts no timer and does not call [play()].  Only the two
    listeners for the view transitions are registered. *)
Theorem stored_ready_flag_skips_the_loading_setup (pg : Page) (cfg : Config) (w : World)
    (v p : node) :
  getElementById pg (videoId cfg) = Some v → getElementById pg (placeholderId cfg) = Some p →
  bare w → hasSessionStorage pg = true → getItemThrows pg = false →
  storage w !! "videoReady" = Some "true" →
  let w1 := exec (initializeVideoBackground pg cfg) w in
  style (nodes w1 !!! p) !! "opacity" = Some "0"
  ∧ style (nodes w1 !!! p) !! "display" = Some "none"
  ∧ listeners w1 = swap_listeners (nextClosure w)
  ∧ tasks w1 = [] ∧ playCalls w1 = playCalls w ∧ plays w1 = plays w
  ∧ isReady w1 = true.
Proof.
  intros Hv Hp Hbare Hs Hg Hflag w1.
  destruct (initialize_later_visit pg cfg v p Hv Hp w Hbare Hs Hg Hflag)
    as (w' & Hrun & Hl & Ht & _ & Hi & Hvi & Hpl & Hop & Hdi & _ & _ & Hpc & Hpls & _).
  assert (w1 = w') as -> by (unfold w1, exec; by rewrite Hrun).
  split_and!; try done. unfold isReady. rewrite Hi, Hvi, Hpl.
  by rewrite !bool_decide_eq_true_2 by (by eexists).
Qed.

(** X28: [initializeVideoBackground] returns normally in every browser and
    on every page.  When an element is missing it logs a warning; when the
    storage cannot be read it logs an error; in both cases nothing is
    registered, the page is left as it is, and the manager is not ready. *)
Theorem initializeVideoBackground_never_throws (pg : Page) (cfg : Config) (w : World) :
  let w' := exec (initializeVideoBackground pg cfg) w in
  fst (initializeVideoBackground pg cfg w) = Normal tt
  ∧ (isInitialized w = false →
     getElementById pg (videoId cfg) = None ∨ getElementById pg (placeholderId cfg) = None
     ∨ hasSessionStorage pg = false ∨ getItemThrows pg = true →
     isReady w' = false ∧ listeners w' = listeners w ∧ tasks w' = tasks w
     ∧ nodes w' = nodes w ∧ storage w' = storage w ∧ playCalls w' = playCalls w
     ∧ ∃ entry, console w' = (console w ++ [entry])%list ∧ fst entry ≠ debug).
Proof.
  intros w'. split; [apply initializeVideoBackground_normal|]. intros Hi Hcase.
  destruct (getElementById pg (videoId cfg)) as [v|] eqn:Hv;
    [destruct (getElementById pg (placeholderId cfg)) as [p|] eqn:Hp|].
  - assert (hasSessionStorage pg = false ∨ getItemThrows pg = true) as Hno by naive_solver.
    unfold w', exec. rewrite (initialize_without_storage pg cfg v p Hv Hp w Hi Hno).
    cbn [snd]. unfold isReady. destruct w. cbn in *. subst.
    split_and!; try done. by eexists.
  - unfold w', exec. rewrite (initialize_missing pg cfg w Hi) by auto.
    cbn [snd]. unfold isReady. rewrite Hv, Hp. destruct w. cbn in *. subst.
    split_and!; try done. by eexists.
  - unfold w', exec. rewrite (initialize_missing pg cfg w Hi) by auto.
    cbn [snd]. unfold isReady. rewrite Hv. destruct w. cbn in *. subst.
    split_and!; try done. by eexists.
Qed.

(** X29: [destroy()] after the initialisation, on a first or on a later
    visit, leaves nothing of it registered: no listener, no timer, no
    cleanup function, and the references to the elements are dropped.  The
    placeholder is left as the initialisation has set it, and a pending
    promise of [play()] stays pending. *)
Theorem destroy_undoes_the_initialisation (pg : Page) (cfg : Config) (w : World)
    (v p : node) :
  getElementById pg (videoId cfg) = Some v → getElementById pg (placeholderId cfg) = Some p →
  bare w → hasSessionStorage pg = true → getItemThrows pg = false →
  let w1 := exec (initializeVideoBackground pg cfg) w in
  let w2 := exec destroy w1 in
  isReady w1 = true
  ∧ bare w2 ∧ video w2 = None ∧ placeholder w2 = None ∧ isReady w2 = false
  ∧ nodes w2 = nodes w1 ∧ plays w2 = plays w1 ∧ storage w2 = storage w1.
Proof.
  intros Hv Hp Hbare Hs Hg w1 w2.
  assert (isReady w1 = true
          ∧ destroy w1
            = (Normal tt,
               set_placeholder None
                 (set_video None
                    (set_isInitialized false
                       (set_cleanupFunctions [] (set_tasks [] (set_listeners [] w1)))))))
    as [Hready Hrun].
  { destruct (decide (storage w !! "videoReady" = Some "true")) as [Hflag|Hflag].
    - destruct (initialize_later_visit pg cfg v p Hv Hp w Hbare Hs Hg Hflag)
        as (w' & Hrun & Hl & Ht & Hc & Hi & Hvi & Hpl & _ & _ & _ & _ & _ & _ & Htr).
      assert (w1 = w') as -> by (unfold w1, exec; by rewrite Hrun).
      split.
      + unfold isReady. rewrite Hi, Hvi, Hpl. by rewrite !bool_decide_eq_true_2 by (by eexists).
      + by apply (destroy_later_visit w' (nextClosure w)).
    - destruct (initialize_first_visit pg cfg v p Hv Hp w Hbare Hs Hg Hflag)
        as (w' & Hrun & Hl & Ht & Hc & Hi & Hvi & Hpl & _ & _ & _ & _ & _ & Htr).
      assert (w1 = w') as -> by (unfold w1, exec; by rewrite Hrun).
      split.
      + unfold isReady. rewrite Hi, Hvi, Hpl. by rewrite !bool_decide_eq_true_2 by (by eexists).
      + by apply (destroy_first_visit v w' (nextClosure w) (S (nextClosure w)) (nextTask w)
                    (fallbackTimeout cfg)). }
  unfold w2, exec. rewrite Hrun. cbn [snd]. unfold bare, isReady. by destruct w1.
Qed.



Lemma sample_first_visit_bare : bare sample_first_visit.
Proof. by repeat split. Defined.

Lemma sample_later_visit_bare : bare sample_later_visit.
Proof. by repeat split. Defined.

Lemma placeholder_shown_until_first_ready_signal_witness :
  let w1 := exec (initializeVideoBackground sample_page sample_config) sample_first_visit in
  style (nodes w1 !!! 2%positive) !! "opacity" = Some "1"
  ∧ tasks w1 = [mkTask (nextTask sample_first_visit) (AfterMs (fallbackTimeout sample_config))
                  (HidePlaceholder (nextClosure sample_first_visit))]
  ∧ ∀ w2,
      (∃ type, ready_event type
               ∧ w2 = exec (dispatchEvent sample_page (TNode 1%positive) type) w1)
      ∨ w2 = exec (run_task sample_page sample_config (nextTask sample_first_visit)) w1 →
      style (nodes w2 !!! 2%positive) !! "opacity" = Some "0"
      ∧ style (nodes w2 !!! 2%positive) !! "display" = Some "none"
      ∧ (setItemThrows sample_page = false → storage w2 !! "videoReady" = Some "true")
      ∧ listeners w2 = listeners w1.
Proof.
  apply (placeholder_shown_until_first_ready_signal sample_page sample_config
           sample_first_visit 1%positive 2%positive).
  - reflexivity.
  - reflexivity.
  - exact sample_first_visit_bare.
  - reflexivity.
  - reflexivity.
  - intros H. vm_compute in H. discriminate H.
Defined.

Lemma stored_ready_flag_skips_the_loading_setup_witness :
  let w1 := exec (initializeVideoBackground sample_page sample_config) sample_later_visit in
  style (nodes w1 !!! 2%positive) !! "opacity" = Some "0"
  ∧ style (nodes w1 !!! 2%positive) !! "display" = Some "none"
  ∧ listeners w1 = swap_listeners (nextClosure sample_later_visit)
  ∧ tasks w1 = [] ∧ playCalls w1 = playCalls sample_later_visit
  ∧ plays w1 = plays sample_later_visit
  ∧ isReady w1 = true.
Proof.
  apply (stored_ready_flag_skips_the_loading_setup sample_page sample_config
           sample_later_visit 1%positive 2%positive).
  - reflexivity.
  - reflexivity.
  - exact sample_later_visit_bare.
  - reflexivity.
  - reflexivity.
  - vm_compute. reflexivity.
Defined.

Lemma destroy_undoes_the_initialisation_witness :
  let w1 := exec (initializeVideoBackground sample_page sample_config) sample_first_visit in
  let w2 := exec destroy w1 in
  isReady w1 = true
  ∧ bare w2 ∧ video w2 = None ∧ placeholder w2 = None ∧ isReady w2 = false
  ∧ nodes w2 = nodes w1 ∧ plays w2 = plays w1 ∧ storage w2 = storage w1.
Proof.
  apply (destroy_undoes_the_initialisation sample_page sample_config
           sample_first_visit 1%positive 2%positive).
  - reflexivity.
  - reflexivity.
  - exact sample_first_visit_bare.
  - reflexivity.
  - reflexivity.
Defined.

End VideoBackgroundFacts.

(** ** Video background: the view transitions *)

Module VideoTransitionFacts.
Import Js Dom JsFacts VideoBackgroundManager VideoBackgroundFacts.

Lemma try_catch_apply {A : Type} (m : M World A) (h : string → M World A) (w : World) :
  try_catch m h w = match m w with
                    | (Throw e, w') => h e w'
                    | r => r
                    end.
Proof. reflexivity. Qed.

Lemma ret_apply {A : Type} (a : A) (w : World) : ret a w = (Normal a, w).
Proof. reflexivity. Qed.

Lemma modify_apply (f : World → World) (w : World) : modify f w = (Normal tt, f w).
Proof. reflexivity. Qed.

Lemma gets_apply {A : Type} (f : World → A) (w : World) : gets f w = (Normal (f w), w).
Proof. reflexivity. Qed.

Ltac run_all :=
  repeat first [ progress run | rewrite try_catch_apply | rewrite ret_apply
               | rewrite modify_apply | rewrite gets_apply | rewrite bind_apply ].

(** X30: the first 'astro:before-swap' of a transition asks for a frame,
    the frame starts a 16 ms timer, and the timer stores the position the
    video has when it runs.  A second 'astro:before-swap' does nothing, and
    the transition still counts as in progress after the timer.  The write
    of the timer is outside every [try]: when the storage refuses it, the
    exception leaves the callback and nothing is logged. *)
Theorem before_swap_saves_the_position_once (pg : Page) (cfg : Config) (w : World)
    (n : node) (c : nat) (m : Media) :
  video w = Some n → hasSessionStorage pg = true → tasks w = [] →
  List.filter (listens TDocument "astro:before-swap") (listeners w)
  = [mkListener TDocument "astro:before-swap" (BeforeSwapHandler c) false] →
  transitions w !!! c = mkTransition false None →
  let w1 := exec (dispatchEvent pg TDocument "astro:before-swap") w in
  let w2 := exec (run_task pg cfg (nextTask w)) w1 in
  let w3 := exec (mediaChanged n m) w2 in
  let r := run_task pg cfg (Pos.succ (nextTask w)) w3 in
  tasks w1 = [mkTask (nextTask w) NextFrame (BeforeSwapFrame c)]
  ∧ dispatchEvent pg TDocument "astro:before-swap" w1 = (Normal tt, w1)
  ∧ tasks w2 = [mkTask (Pos.succ (nextTask w)) (AfterMs 16) (SaveVideoTime c)]
  ∧ storage w2 = storage w
  ∧ tasks (snd r) = []
  ∧ transitions (snd r) !!! c = mkTransition true (Some (Pos.succ (nextTask w)))
  ∧ (setItemThrows pg = false →
     fst r = Normal tt
     ∧ storage (snd r) = <["videoTime" := numberToString pg (currentTime m)]> (storage w))
  ∧ (setItemThrows pg = true →
     fst r = Throw "QuotaExceededError" ∧ storage (snd r) = storage w
     ∧ console (snd r) = console w).
Proof.
  intros Hv Hs Ht Hl Htr w1 w2 w3 r.
  destruct w as [ns med st vi pl ini ivl cf ls ts nt trs nc pls pc con].
  cbn in Hv, Ht, Hl, Htr. subst vi ts.
  set (w0 := mkWorld ns med st (Some n) pl ini ivl cf ls [] nt trs nc pls pc con) in *.
  set (l := mkListener TDocument "astro:before-swap" (BeforeSwapHandler c) false) in *.
  set (tr1 := <[c := mkTransition true None]> trs).
  set (u1 := mkWorld ns med st (Some n) pl ini ivl cf ls
               [mkTask nt NextFrame (BeforeSwapFrame c)] (Pos.succ nt) tr1 nc pls pc con).
  assert (dispatchEvent pg TDocument "astro:before-swap" w0 = (Normal tt, u1)) as H1.
  { rewrite (dispatchEvent_single pg _ _ _ l) by done.
    cbn [l l_handler run_handler]. unfold beforeSwapHandler, transition,
      set_transition, requestAnimationFrame. subst w0. run_all. rewrite Htr. run_all.
    reflexivity. }
  assert (w1 = u1) as -> by (unfold w1, exec; by rewrite H1).
  assert (dispatchEvent pg TDocument "astro:before-swap" u1 = (Normal tt, u1)) as H1'.
  { rewrite (dispatchEvent_single pg _ _ _ l) by done.
    cbn [l l_handler run_handler]. unfold beforeSwapHandler, transition. subst u1.
    run_all. subst tr1. rewrite lookup_total_insert_eq. run_all. reflexivity. }
  set (tr2 := <[c := mkTransition true (Some (Pos.succ nt))]> tr1).
  set (u2 := mkWorld ns med st (Some n) pl ini ivl cf ls
               [mkTask (Pos.succ nt) (AfterMs 16) (SaveVideoTime c)]
               (Pos.succ (Pos.succ nt)) tr2 nc pls pc con).
  assert (run_task pg cfg nt u1 = (Normal tt, u2)) as H2.
  { unfold run_task. subst u1. run. cbn [List.find k_id]. rewrite Pos.eqb_refl. run.
    cbn [List.filter k_id k_callback run_callback]. rewrite Pos.eqb_refl. cbn [negb].
    unfold beforeSwapFrame, transition, set_transition, setTimeout. run_all.
    rewrite bool_decide_eq_true_2 by (by eexists). rewrite Hs. run_all.
    subst tr1. rewrite lookup_total_insert_eq. cbn [saveTimeoutId]. run_all.
    rewrite lookup_total_insert_eq. reflexivity. }
  assert (w2 = u2) as -> by (unfold w2, exec; cbn [nextTask w0]; by rewrite H2).
  set (u3 := mkWorld ns (<[n := m]> med) st (Some n) pl ini ivl cf ls
               [mkTask (Pos.succ nt) (AfterMs 16) (SaveVideoTime c)]
               (Pos.succ (Pos.succ nt)) tr2 nc pls pc con).
  assert (w3 = u3) as -> by reflexivity.
  assert (r = if setItemThrows pg
              then (Throw "QuotaExceededError",
                    mkWorld ns (<[n := m]> med) st (Some n) pl ini ivl cf ls []
                      (Pos.succ (Pos.succ nt)) tr2 nc pls pc con)
              else (Normal tt,
                    mkWorld ns (<[n := m]> med)
                      (<["videoTime" := numberToString pg (currentTime m)]> st)
                      (Some n) pl ini ivl cf ls [] (Pos.succ (Pos.succ nt)) tr2 nc pls pc con))
    as Hr.
  { unfold r, run_task. cbn [nextTask w0]. subst u3. run. cbn [List.find k_id].
    rewrite Pos.eqb_refl. run. cbn [List.filter k_id k_callback run_callback].
    rewrite Pos.eqb_refl. cbn [negb]. unfold saveVideoTime, setItem. run. rewrite Hs.
    rewrite lookup_total_insert_eq. cbn [negb]. destruct (setItemThrows pg); run; reflexivity. }
  cbn [nextTask w0 storage console].
  split_and!; [done | exact H1' | done | done | | | |].
  - rewrite Hr. by destruct (setItemThrows pg).
  - rewrite Hr. destruct (setItemThrows pg); cbn; subst tr2; apply lookup_total_insert_eq.
  - intros Hset. rewrite Hr, Hset. done.
  - intros Hset. rewrite Hr, Hset. done.
Qed.


(** A manager on a later page of the tab, initialised. *)
Definition sample_initialised : World :=
  exec (initializeVideoBackground sample_page sample_config) sample_later_visit.

Lemma before_swap_saves_the_position_once_witness :
  let w := sample_initialised in
  let m := mkMedia false 12%float in
  let w1 := exec (dispatchEvent sample_page TDocument "astro:before-swap") w in
  let w2 := exec (run_task sample_page sample_config (nextTask w)) w1 in
  let w3 := exec (mediaChanged 1%positive m) w2 in
  let r := run_task sample_page sample_config (Pos.succ (nextTask w)) w3 in
  tasks w1 = [mkTask (nextTask w) NextFrame (BeforeSwapFrame 0)]
  ∧ dispatchEvent sample_page TDocument "astro:before-swap" w1 = (Normal tt, w1)
  ∧ tasks w2 = [mkTask (Pos.succ (nextTask w)) (AfterMs 16) (SaveVideoTime 0)]
  ∧ storage w2 = storage w
  ∧ tasks (snd r) = []
  ∧ transitions (snd r) !!! 0%nat = mkTransition true (Some (Pos.succ (nextTask w)))
  ∧ (setItemThrows sample_page = false →
     fst r = Normal tt
     ∧ storage (snd r)
       = <["videoTime" := numberToString sample_page (currentTime m)]> (storage w))
  ∧ (setItemThrows sample_page = true →
     fst r = Throw "QuotaExceededError" ∧ storage (snd r) = storage w
     ∧ console (snd r) = console w).
Proof.
  apply (before_swap_saves_the_position_once sample_page sample_config sample_initialised
           1%positive 0%nat (mkMedia false 12%float)).
  - vm_compute. reflexivity.
  - reflexivity.
  - vm_compute. reflexivity.
  - vm_compute. reflexivity.
  - vm_compute. reflexivity.
Defined.

End VideoTransitionFacts.
